(** * hmmkay: a discrete hidden Markov model in log space

    A shallow embedding of [hmmidunnomaybe.py]: the [HMM] class (parameter
    tables with their lazily derived logarithms, likelihood, decoding,
    sampling, Baum-Welch) and the numba kernels [_forward], [_backward],
    [_viterbi], [_get_best_path] and [_sample_one].

    numpy arrays are lists (a matrix is the list of its rows), array
    buffers that the code overwrites in place are passed and returned
    explicitly, and the object [self] is a record threaded through a state
    and exception monad. *)

From Stdlib Require Import ZArith QArith Qcanon String Decimal DecimalString.
From Stdlib Require PrimFloat.
From stdpp Require Import base option list.

Set Warnings "-abstract-large-number,-inexact-float".
Local Open Scope nat_scope.

(** ** Numbers

    Every number of the program is a float64, used in one of two roles: a
    probability (the tables pi, A, B and the EM accumulators) or a log
    probability (the derived logs and all lattices).  The operations the
    code applies to each role are the fields of [Floats P L]; [np.log] and
    [np.exp] go from one role to the other.  IEEE floats are one instance
    (with [P = L]); exact arithmetic is another ([Exact] below). *)

Class Floats (P L : Type) := {
  (* probabilities *)
  p0 : P;                          (* 0.0, the cells of np.zeros_like *)
  p1 : P;                          (* the literal 1 of np.log(1) *)
  padd : P -> P -> P;              (* + and += *)
  pmul : P -> P -> P;              (* * *)
  pdiv : P -> P -> P;              (* / *)
  pltb : P -> P -> bool;           (* < *)
  sums_to_1 : P -> bool;           (* the tolerance test on a sum *)
  allclose : P -> P -> bool;       (* np.allclose on scalars *)
  (* log probabilities *)
  l0 : L;                          (* the literal 0 of total_log_likelihood *)
  ladd : L -> L -> L;              (* + and += *)
  lsub : L -> L -> L;              (* - *)
  lltb : L -> L -> bool;           (* <, as np.argmax compares *)
  neg_inf : L;                     (* -inf *)
  uninit : L;                      (* a cell of np.empty *)
  uninit_int : nat;                (* a cell of np.empty with an integer dtype *)
  sp_logsumexp : list L -> L;      (* scipy.special.logsumexp on a vector *)
  (* between the two *)
  np_log : P -> L;
  np_exp : L -> P;
  (* _utils._logsumexp: the file is not part of the sources; the function
     is taken as it is called, a vector to a scalar *)
  _logsumexp : list L -> L;
}.

(** The random generators: numpy's [RandomState] object in [HMM.sample],
    the generator private to numba in [_sample_one], and [_utils._choice]
    which draws an index from a distribution with the latter. *)
Class Random (P : Type) := {
  np_rng : Type;
  RandomState : nat -> np_rng;
  randint : nat -> np_rng -> nat * np_rng;
  nb_rng : Type;
  nb_seed : nat -> nb_rng;
  _choice : list P -> nb_rng -> nat * nb_rng;
}.

(** ** Arrays *)

Section Arrays.
Context {X : Type} (d : X).

(** [a[i]] and [m[i, j]]; the kernels are compiled by numba without
    bounds checks, so the model gives a fixed value [d] out of range
    and the theorems state the ranges they need. *)
Definition get1 (a : list X) (i : nat) : X := nth i a d.
Definition get2 (m : list (list X)) (i j : nat) : X := nth j (nth i m []) d.

(** [m[:, j]] *)
Definition col (m : list (list X)) (j : nat) : list X :=
  map (fun row => nth j row d) m.

(** number of columns, [m.shape[1]] of a buffer *)
Definition ncols (m : list (list X)) : nat := length (nth 0 m []).

(** [m[:, -1]] *)
Definition col_last (m : list (list X)) : list X := col m (ncols m - 1).

(** [m[i, j] = x] *)
Definition set2 (m : list (list X)) (i j : nat) (x : X) : list (list X) :=
  <[i := <[j := x]> (nth i m [])]> m.

(** [m[:, j] = v] *)
Definition set_col (m : list (list X)) (j : nat) (v : list X) : list (list X) :=
  zip_with (fun row x => <[j := x]> row) m v.

(** [m[:, j] = x] for a scalar [x] *)
Definition fill_col (m : list (list X)) (j : nat) (x : X) : list (list X) :=
  map (fun row => <[j := x]> row) m.

(** [np.empty]/[np.zeros] of shape (r, c) with every cell [d] *)
Definition full2 (r c : nat) : list (list X) := repeat (repeat d c) r.

(** a matrix with [r] rows of [c] cells *)
Definition shape2 (r c : nat) (m : list (list X)) : Prop :=
  length m = r /\ Forall (fun row => length row = c) m.
End Arrays.

(** [for i in range(lo, hi): st = body(i, st)] *)
Definition for_range {St : Type} (lo hi : nat) (body : nat -> St -> St) (st : St) : St :=
  fold_left (fun st i => body i st) (seq lo (hi - lo)) st.

(** [for i in range(n - 1, -1, -1): st = body(i, st)] *)
Definition for_down {St : Type} (n : nat) (body : nat -> St -> St) (st : St) : St :=
  fold_left (fun st i => body i st) (rev (seq 0 n)) st.

(** [np.argmax] on a vector: the index of the first occurrence of the
    maximum (the running best is replaced only by a strictly larger cell). *)
Fixpoint argmax_from {X : Type} (ltb : X -> X -> bool)
    (best : nat) (bv : X) (i : nat) (a : list X) : nat :=
  match a with
  | [] => best
  | x :: a' => if ltb bv x then argmax_from ltb i x (S i) a'
               else argmax_from ltb best bv (S i) a'
  end.

Definition argmax {X : Type} (ltb : X -> X -> bool) (a : list X) : nat :=
  match a with
  | [] => 0
  | x :: a' => argmax_from ltb 0 x 1 a'
  end.

(** ** The numba kernels *)

Section Kernels.
Context {P L : Type} `{FL : Floats P L}.

Local Abbreviation vec := (list L).
Local Abbreviation mat := (list (list L)).

(** elementwise [u + v] on vectors of log probabilities *)
Definition vladd (u v : vec) : vec := zip_with ladd u v.

Definition lget2 := get2 uninit.
Definition lcol := col uninit.

(** One cell of the forward recurrence, the two statements
    [log_alpha[s, t] = _logsumexp(log_alpha[:, t - 1] + log_A[:, s])] and
    [log_alpha[s, t] += log_B[s, seq[t]]]. *)
Definition forward_cell (seq : list nat) (log_A log_B : mat) (t s : nat)
    (log_alpha : mat) : mat :=
  let log_alpha :=
    set2 log_alpha s t
      (_logsumexp (vladd (lcol log_alpha (t - 1)) (lcol log_A s))) in
  set2 log_alpha s t
    (ladd (lget2 log_alpha s t) (lget2 log_B s (get1 0 seq t))).

(** [_forward]: fills [log_alpha] and returns the log-likelihood. The
    result is the buffer after the call paired with the returned value. *)
Definition _forward (seq : list nat) (log_pi : vec) (log_A log_B : mat)
    (log_alpha : mat) : mat * L :=
  let n_obs := length seq in
  let n_hidden_states := length log_pi in
  let log_alpha :=
    set_col log_alpha 0 (vladd log_pi (lcol log_B (get1 0 seq 0))) in
  let log_alpha :=
    for_range 1 n_obs (fun t =>
      for_range 0 n_hidden_states (fun s =>
        forward_cell seq log_A log_B t s)) log_alpha in
  (log_alpha, _logsumexp (col_last uninit log_alpha)).

(** [_backward]: fills [log_beta]; returns nothing. *)
Definition backward_cell (seq : list nat) (log_A log_B : mat) (t s : nat)
    (log_beta : mat) : mat :=
  set2 log_beta s t
    (_logsumexp
       (vladd (vladd (nth s log_A []) (lcol log_B (get1 0 seq (t + 1))))
              (lcol log_beta (t + 1)))).

Definition _backward (seq : list nat) (log_pi : vec) (log_A log_B : mat)
    (log_beta : mat) : mat :=
  let n_obs := length seq in
  let n_hidden_states := length log_pi in
  let log_beta := fill_col log_beta (ncols log_beta - 1) (np_log p1) in
  for_down (n_obs - 1) (fun t =>
    for_range 0 n_hidden_states (fun s =>
      backward_cell seq log_A log_B t s)) log_beta.

(** [_viterbi]: fills [log_V] and [back_path]. *)
Definition viterbi_cell (seq : list nat) (log_A log_B : mat) (t s : nat)
    (st : mat * list (list nat)) : mat * list (list nat) :=
  let '(log_V, back_path) := st in
  let work_buffer := vladd (lcol log_V (t - 1)) (lcol log_A s) in
  let best_prev := argmax lltb work_buffer in
  let back_path := set2 back_path s t best_prev in
  let log_V :=
    set2 log_V s t
      (ladd (get1 uninit work_buffer best_prev)
            (lget2 log_B s (get1 0 seq t))) in
  (log_V, back_path).

Definition _viterbi (seq : list nat) (log_pi : vec) (log_A log_B : mat)
    (log_V : mat) (back_path : list (list nat)) : mat * list (list nat) :=
  let n_obs := length seq in
  let n_hidden_states := length log_pi in
  let log_V :=
    set_col log_V 0 (vladd log_pi (lcol log_B (get1 0 seq 0))) in
  for_range 1 n_obs (fun t =>
    for_range 0 n_hidden_states (fun s =>
      viterbi_cell seq log_A log_B t s)) (log_V, back_path).

(** [_get_best_path]: walks the back links from the best final state.
    The state of the loop is the pair of [s] and [best_path]. *)
Definition _get_best_path (log_V : mat) (back_path : list (list nat))
    (best_path : list nat) : list nat :=
  let s := argmax lltb (col_last uninit log_V) in
  snd (for_down (ncols back_path) (fun t '(s, best_path) =>
         let best_path := <[t := s]> best_path in
         (get2 0 back_path s t, best_path)) (s, best_path)).
End Kernels.

(** ** Exceptions, results and methods *)

Inductive exn (P : Type) : Type :=
  | RaggedArray          (* ValueError of np.array on rows of unequal length *)
  | IndexError           (* an index or a shape entry out of range *)
  | NegativeDimension    (* ValueError of np.empty on a negative dimension *)
  | InconsistentStates   (* ValueError("inconsistent number of hidden states.") *)
  | NotSummingTo1 (name : string) (total : P)
                         (* the error of _check_array_sums_to_1 *)
  | AssertionError
  | AttributeError.
Arguments RaggedArray {P}.
Arguments IndexError {P}.
Arguments NegativeDimension {P}.
Arguments InconsistentStates {P}.
Arguments NotSummingTo1 {P} name total.
Arguments AssertionError {P}.
Arguments AttributeError {P}.

(** A result that may be an exception; a method takes the object and gives
    a result or an exception, together with the object afterwards. *)
Definition res (P A : Type) : Type := exn P + A.
Definition M (P St A : Type) : Type := St -> res P A * St.

Definition res_bind {P A B} (r : res P A) (k : A -> res P B) : res P B :=
  match r with inl e => inl e | inr a => k a end.

Section Monad.
Context {P St : Type}.

Definition ret {A} (a : A) : M P St A := fun h => (inr a, h).
Definition bind {A B} (m : M P St A) (k : A -> M P St B) : M P St B :=
  fun h => match m h with
           | (inl e, h') => (inl e, h')
           | (inr a, h') => k a h'
           end.
Definition lift {A} (r : res P A) : M P St A := fun h => (r, h).
Definition gets {A} (f : St -> A) : M P St A := fun h => (inr (f h), h).
Definition modify (f : St -> St) : M P St unit := fun h => (inr tt, f h).

(** [for x in xs: st = body(x, st)], where the body may raise *)
Fixpoint forM {X S'} (xs : list X) (body : X -> S' -> M P St S') (st : S')
    : M P St S' :=
  match xs with
  | [] => ret st
  | x :: xs' => bind (body x st) (forM xs' body)
  end.
End Monad.

Notation "x <- m ;; k" := (bind m (fun x => k))
  (at level 100, m at next level, right associativity).
Notation "m ;;; k" := (bind m (fun _ => k))
  (at level 100, right associativity).
Notation "x <~ r ;; k" := (res_bind r (fun x => k))
  (at level 100, r at next level, right associativity).

(** ** numpy on lists *)

Section Numpy.
Context {P L : Type} `{FL : Floats P L}.

(** [np.array] on a nested list: the rows must have one length. *)
Definition rectangular {X} (m : list (list X)) : bool :=
  match m with
  | [] => true
  | r :: m' => forallb (fun r' => length r' =? length r) m'
  end.

Definition np_array {X} (m : list (list X)) : res P (list (list X)) :=
  if rectangular m then inr m else inl RaggedArray.

(** [m.shape[1]]; the array of an empty list has one axis only. *)
Definition shape1 {X} (m : list (list X)) : res P nat :=
  match m with
  | [] => inl IndexError
  | r :: _ => inr (length r)
  end.

(** checked indexing, as numpy does it outside the kernels *)
Definition idx1 {X} (a : list X) (i : nat) : res P X :=
  match a !! i with Some x => inr x | None => inl IndexError end.
Definition idx2 {X} (m : list (list X)) (i j : nat) : res P X :=
  row <~ idx1 m i ;; idx1 row j.
Definition idx_col {X} (d : X) (m : list (list X)) (j : nat) : res P (list X) :=
  if j <? ncols m then inr (col d m j) else inl IndexError.
Definition setidx3 {X} (e : list (list (list X))) (i j t : nat) (x : X)
    : res P (list (list (list X))) :=
  plane <~ idx1 e i ;; row <~ idx1 plane j ;; _ <~ idx1 row t ;;
  inr (<[i := <[j := <[t := x]> row]> plane]> e).

(** [np.sum] of a vector of probabilities *)
Definition psum (a : list P) : P := fold_left padd a p0.

(** [np.zeros_like] *)
Definition zeros_like1 (a : list P) : list P := map (fun _ => p0) a.
Definition zeros_like2 (m : list (list P)) : list (list P) := map zeros_like1 m.

(** elementwise [+] of probabilities *)
Definition vpadd (u v : list P) : list P := zip_with padd u v.
Definition mpadd (m n : list (list P)) : list (list P) := zip_with vpadd m n.

(** [np.empty(shape=(a, b, c))] *)
Definition empty3 (a b c : nat) : list (list (list L)) :=
  repeat (repeat (repeat uninit c) b) a.

(** [e[:, :, t]] *)
Definition slice_t {X} (d : X) (e : list (list (list X))) (t : nat) : list (list X) :=
  map (fun plane => col d plane t) e.

(** Modelled from the spec: [_utils._check_array_sums_to_1], which is not
    part of the sources.  The sum of all cells must be 1 within the
    tolerance; the error names the array and carries the sum found. *)
Definition _check_array_sums_to_1 (a : list P) (name : string) : res P unit :=
  let total := psum a in
  if sums_to_1 total then inr tt else inl (NotSummingTo1 name total).

(** Modelled from the spec: [_utils._normalize], which is not part of the
    sources.  Every cell is divided by the sum of its vector (of its row
    with [axis=1]); nothing is special-cased when the sum is zero. *)
Definition _normalize (a : list P) : list P :=
  let total := psum a in map (fun x => pdiv x total) a.
Definition _normalize_axis1 (m : list (list P)) : list (list P) :=
  map _normalize m.

(** the decimal digits of [n], as an f-string prints them *)
Definition str_of_nat (n : nat) : string := NilEmpty.string_of_uint (Nat.to_uint n).

(** [for x in xs: body(x)] where the body returns nothing and may raise *)
Fixpoint forR {X} (xs : list X) (body : X -> res P unit) : res P unit :=
  match xs with
  | [] => inr tt
  | x :: xs' => _ <~ body x ;; forR xs' body
  end.
End Numpy.

(** ** [_sample_one] *)

Section Sampling.
Context {P : Type} `{RN : Random P}.

(** The loop state is the generator, the hidden state [s] and the list
    [observations]; only the observations are returned. *)
Definition _sample_one (n_obs : nat) (pi : list P) (A B : list (list P))
    (seed : nat) : list nat :=
  let g := nb_seed seed in
  let observations := [] in
  let '(s, g) := _choice pi g in
  let '(_, _, observations) :=
    for_range 0 n_obs (fun _ '(g, s, observations) =>
      let '(obs, g) := _choice (nth s B []) g in
      let observations := observations ++ [obs] in
      let '(s, g) := _choice (nth s A []) g in
      (g, s, observations)) (g, s, observations) in
  observations.
End Sampling.

(** ** The class [HMM] *)

Module HMM.

(** The attributes of an object.  An attribute that was never assigned is
    [None], which is what [getattr(self, name, default)] tests.  Python
    stores [self.__log_pi] under the name [_HMM__log_pi]. *)
Record self (P L : Type) : Type := mk {
  init_probas : list P;
  transitions : list (list P);
  emissions : list (list P);
  n_iter : nat;
  n_hidden_states : nat;
  n_observable_states : nat;
  _recompute_log_pi : option bool;
  _HMM__log_pi : option (list L);
  _recompute_log_A : option bool;
  _HMM__log_A : option (list (list L));
  _recompute_log_B : option bool;
  _HMM__log_B : option (list (list L));
  _enable_sanity_checks : option bool;
}.
Arguments mk {P L}.
Arguments init_probas {P L}.
Arguments transitions {P L}.
Arguments emissions {P L}.
Arguments n_iter {P L}.
Arguments n_hidden_states {P L}.
Arguments n_observable_states {P L}.
Arguments _recompute_log_pi {P L}.
Arguments _HMM__log_pi {P L}.
Arguments _recompute_log_A {P L}.
Arguments _HMM__log_A {P L}.
Arguments _recompute_log_B {P L}.
Arguments _HMM__log_B {P L}.
Arguments _enable_sanity_checks {P L}.

(** The buffers [EM] allocates once and reuses for every sequence of every
    iteration, and the accumulators of one iteration. *)
Record scratch (L : Type) : Type := mk_scratch {
  log_alpha : list (list L);
  log_beta : list (list L);
  log_E : list (list (list L));
  log_gamma : list (list L);
}.
Arguments mk_scratch {L}.
Arguments log_alpha {L}.
Arguments log_beta {L}.
Arguments log_E {L}.
Arguments log_gamma {L}.

Record accumulators (P : Type) : Type := mk_acc {
  pi_acc : list P;
  A_acc : list (list P);
  B_acc : list (list P);
}.
Arguments mk_acc {P}.
Arguments pi_acc {P}.
Arguments A_acc {P}.
Arguments B_acc {P}.

Section Class.
Context {P L : Type} `{FL : Floats P L} `{RN : Random P}.

Local Abbreviation kernel_forward := _forward.
Local Abbreviation kernel_backward := _backward.
Local Abbreviation kernel_viterbi := _viterbi.
Local Abbreviation Meth := (M P (self P L)).

(** *** The properties [pi], [A], [B] and their logs *)

Definition pi (h : self P L) : list P := init_probas h.
Definition A (h : self P L) : list (list P) := transitions h.
Definition B (h : self P L) : list (list P) := emissions h.

Definition set_pi (value : list P) : Meth unit :=
  modify (fun h =>
    mk value (transitions h) (emissions h) (n_iter h) (n_hidden_states h)
       (n_observable_states h) (Some true) (_HMM__log_pi h)
       (_recompute_log_A h) (_HMM__log_A h) (_recompute_log_B h)
       (_HMM__log_B h) (_enable_sanity_checks h)).

Definition set_A (value : list (list P)) : Meth unit :=
  modify (fun h =>
    mk (init_probas h) value (emissions h) (n_iter h) (n_hidden_states h)
       (n_observable_states h) (_recompute_log_pi h) (_HMM__log_pi h)
       (Some true) (_HMM__log_A h) (_recompute_log_B h)
       (_HMM__log_B h) (_enable_sanity_checks h)).

Definition set_B (value : list (list P)) : Meth unit :=
  modify (fun h =>
    mk (init_probas h) (transitions h) value (n_iter h) (n_hidden_states h)
       (n_observable_states h) (_recompute_log_pi h) (_HMM__log_pi h)
       (_recompute_log_A h) (_HMM__log_A h) (Some true)
       (_HMM__log_B h) (_enable_sanity_checks h)).

(** [self.__log_pi = value] *)
Definition store_log_pi (value : list L) (h : self P L) : self P L :=
  mk (init_probas h) (transitions h) (emissions h) (n_iter h)
     (n_hidden_states h) (n_observable_states h) (_recompute_log_pi h)
     (Some value) (_recompute_log_A h) (_HMM__log_A h)
     (_recompute_log_B h) (_HMM__log_B h) (_enable_sanity_checks h).

Definition store_log_A (value : list (list L)) (h : self P L) : self P L :=
  mk (init_probas h) (transitions h) (emissions h) (n_iter h)
     (n_hidden_states h) (n_observable_states h) (_recompute_log_pi h)
     (_HMM__log_pi h) (_recompute_log_A h) (Some value)
     (_recompute_log_B h) (_HMM__log_B h) (_enable_sanity_checks h).

Definition store_log_B (value : list (list L)) (h : self P L) : self P L :=
  mk (init_probas h) (transitions h) (emissions h) (n_iter h)
     (n_hidden_states h) (n_observable_states h) (_recompute_log_pi h)
     (_HMM__log_pi h) (_recompute_log_A h) (_HMM__log_A h)
     (_recompute_log_B h) (Some value) (_enable_sanity_checks h).

(** reading an attribute that may be absent *)
Definition attr {X} (o : option X) : res P X :=
  match o with Some x => inr x | None => inl AttributeError end.

Definition _log_pi : Meth (list L) := fun h =>
  let h :=
    if default true (_recompute_log_pi h)
    then store_log_pi (map np_log (pi h)) h else h in
  (attr (_HMM__log_pi h), h).

Definition _log_A : Meth (list (list L)) := fun h =>
  let h :=
    if default true (_recompute_log_A h)
    then store_log_A (map (map np_log) (A h)) h else h in
  (attr (_HMM__log_A h), h).

Definition _log_B : Meth (list (list L)) := fun h =>
  let h :=
    if default true (_recompute_log_B h)
    then store_log_B (map (map np_log) (B h)) h else h in
  (attr (_HMM__log_B h), h).

(** *** Validation and construction *)

Definition _check_matrices_conditioning (h : self P L) : res P unit :=
  _ <~ _check_array_sums_to_1 (pi h) "init_probas" ;;
  forR (seq 0 (n_hidden_states h)) (fun s =>
    row <~ idx1 (A h) s ;;
    _ <~ _check_array_sums_to_1 row ("Row " ++ str_of_nat s ++ " of A") ;;
    row <~ idx1 (B h) s ;;
    _check_array_sums_to_1 row ("Row " ++ str_of_nat s ++ " of B")).

(** [HMM(init_probas, transitions, emissions, n_iter)]: the object, or
    the exception that leaves the caller without one. *)
Definition __init__ (init_probas : list P) (transitions emissions : list (list P))
    (n_iter : nat) : res P (self P L) :=
  transitions <~ np_array transitions ;;
  emissions <~ np_array emissions ;;
  let n_hidden_states := length transitions in
  n_observable_states <~ shape1 emissions ;;
  A_shape1 <~ shape1 transitions ;;
  if negb ((length transitions =? A_shape1)
           && (A_shape1 =? length init_probas)
           && (length init_probas =? length emissions))
  then inl InconsistentStates
  else
    let h := mk init_probas transitions emissions n_iter n_hidden_states
                n_observable_states None None None None None None None in
    _ <~ _check_matrices_conditioning h ;;
    inr h.

(** *** The methods that call the kernels *)

Definition _forward (seq : list nat) (log_alpha : list (list L))
    : Meth (list (list L) * L) :=
  log_pi <- _log_pi ;; log_A <- _log_A ;; log_B <- _log_B ;;
  ret (kernel_forward seq log_pi log_A log_B log_alpha).

Definition _backward (seq : list nat) (log_beta : list (list L))
    : Meth (list (list L)) :=
  log_pi <- _log_pi ;; log_A <- _log_A ;; log_B <- _log_B ;;
  ret (kernel_backward seq log_pi log_A log_B log_beta).

Definition _viterbi (seq : list nat) (log_V : list (list L))
    (back_path : list (list nat)) : Meth (list (list L) * list (list nat)) :=
  log_pi <- _log_pi ;; log_A <- _log_A ;; log_B <- _log_B ;;
  ret (kernel_viterbi seq log_pi log_A log_B log_V back_path).

Definition log_likelihood (sequences : list (list nat)) : Meth L :=
  sequences <- lift (np_array sequences) ;;
  n_obs <- lift (shape1 sequences) ;;
  S <- gets n_hidden_states ;;
  let log_alpha := full2 uninit S n_obs in
  let total_log_likelihood := l0 in
  st <- forM sequences (fun seq '(log_alpha, total_log_likelihood) =>
          r <- _forward seq log_alpha ;;
          ret (fst r, ladd total_log_likelihood (snd r)))
        (log_alpha, total_log_likelihood) ;;
  ret (snd st).

Definition likelihood (sequences : list (list nat)) : Meth P :=
  ll <- log_likelihood sequences ;; ret (np_exp ll).

(** [decode] takes an array: [sequences] is already rectangular. *)
Definition decode (sequences : list (list nat)) : Meth (list (list nat)) :=
  n_obs <- lift (shape1 sequences) ;;
  S <- gets n_hidden_states ;;
  let log_V := full2 uninit S n_obs in
  let back_path := full2 uninit_int S n_obs in
  let out := [] in
  st <- forM sequences (fun seq '(log_V, back_path, out) =>
          r <- _viterbi seq log_V back_path ;;
          let '(log_V, back_path) := r in
          let best_path := repeat uninit_int n_obs in
          let best_path := _get_best_path log_V back_path best_path in
          ret (log_V, back_path, out ++ [best_path]))
        (log_V, back_path, out) ;;
  ret (snd st).

(** [sample] reads the tables and changes nothing in the object. *)
Definition sample (h : self P L) (n_seq n_obs : nat) (seed : nat)
    : list (list nat) :=
  let rng := RandomState seed in
  snd (for_range 0 n_seq (fun _ '(rng, sequences) =>
         let '(sub_seed, rng) := randint 10000 rng in
         (rng, sequences ++ [_sample_one n_obs (pi h) (A h) (B h) sub_seed]))
       (rng, [])).
(** *** Baum-Welch *)

(** [getattr(self, "_enable_sanity_checks", False)] *)
Definition sanity_checks_enabled (h : self P L) : bool :=
  default false (_enable_sanity_checks h).

(** The assignment to [log_E[i, j, t]]; its right-hand side reads the two
    log properties and indexes the arrays from left to right. *)
Definition E_cell (seq : list nat) (log_alpha log_beta : list (list L))
    (log_likelihood : L) (t i j : nat) (log_E : list (list (list L)))
    : Meth (list (list (list L))) :=
  a <- lift (idx2 log_alpha i t) ;;
  log_A <- _log_A ;;
  x <- lift (idx2 log_A i j) ;;
  log_B <- _log_B ;;
  o <- lift (idx1 seq (t + 1)) ;;
  y <- lift (idx2 log_B j o) ;;
  b <- lift (idx2 log_beta j (t + 1)) ;;
  lift (setidx3 log_E i j t
          (lsub (ladd (ladd (ladd a x) y) b) log_likelihood)).

Definition compute_E (seq : list nat) (n_obs : nat)
    (log_alpha log_beta : list (list L)) (log_likelihood : L)
    (log_E : list (list (list L))) : Meth (list (list (list L))) :=
  forM (List.seq 0 (n_obs - 1)) (fun t log_E =>
    S <- gets n_hidden_states ;;
    forM (List.seq 0 S) (fun i log_E =>
      S <- gets n_hidden_states ;;
      forM (List.seq 0 S) (fun j log_E =>
        E_cell seq log_alpha log_beta log_likelihood t i j log_E) log_E)
      log_E) log_E.

(** [log_alpha + log_beta - log_likelihood] *)
Definition compute_gamma (log_alpha log_beta : list (list L))
    (log_likelihood : L) : list (list L) :=
  zip_with (zip_with (fun a b => lsub (ladd a b) log_likelihood))
    log_alpha log_beta.

(** The checks made under [_enable_sanity_checks]. *)
Definition E_step_checks (n_obs S : nat) (log_E : list (list (list L)))
    (log_gamma : list (list L)) : res P unit :=
  let E := map (map (map np_exp)) log_E in
  let gamma := map (map np_exp) log_gamma in
  _ <~ forR (seq 0 (n_obs - 1)) (fun t =>
         _check_array_sums_to_1 (concat (slice_t p0 E t))
           ("E at t=" ++ str_of_nat t)) ;;
  _ <~ forR (seq 0 (ncols log_gamma)) (fun t =>
         _check_array_sums_to_1 (col p0 gamma t)
           ("gamma at t=" ++ str_of_nat t)) ;;
  forR (seq 0 (n_obs - 1)) (fun t =>
    forR (seq 0 S) (fun i =>
      g <~ idx2 gamma i t ;;
      plane <~ idx1 E i ;;
      if allclose g (psum (col p0 plane t)) then inr tt
      else inl AssertionError)).

(** [B_acc[:, k] += v] *)
Definition add_to_col (B_acc : list (list P)) (k : nat) (v : list P)
    : res P (list (list P)) :=
  c <~ idx_col p0 B_acc k ;; inr (set_col B_acc k (vpadd c v)).

(** The three updates of the accumulators for one sequence. *)
Definition accumulate (seq : list nat) (n_obs : nat)
    (log_E : list (list (list L))) (log_gamma : list (list L))
    (acc : accumulators P) : res P (accumulators P) :=
  g0 <~ idx_col uninit log_gamma 0 ;;
  let pi_acc := vpadd (pi_acc acc) (map np_exp g0) in
  let A_acc :=
    mpadd (A_acc acc) (map (map (fun r => psum (map np_exp r))) log_E) in
  B_acc <~ (fix loop (ts : list nat) (B_acc : list (list P)) :=
              match ts with
              | [] => inr B_acc
              | t :: ts' =>
                  o <~ idx1 seq t ;;
                  g <~ idx_col uninit log_gamma t ;;
                  B_acc <~ add_to_col B_acc o (map np_exp g) ;;
                  loop ts' B_acc
              end) (List.seq 0 n_obs) (B_acc acc) ;;
  inr (mk_acc pi_acc A_acc B_acc).

(** The body of [for seq in sequences]. *)
Definition E_step (n_obs : nat) (seq : list nat)
    (st : scratch L * accumulators P) : Meth (scratch L * accumulators P) :=
  let '(sc, acc) := st in
  r <- _forward seq (log_alpha sc) ;;
  let log_alpha := fst r in
  log_beta <- _backward seq (log_beta sc) ;;
  let log_likelihood := sp_logsumexp (col_last uninit log_alpha) in
  log_E <- compute_E seq n_obs log_alpha log_beta log_likelihood (log_E sc) ;;
  let log_gamma := compute_gamma log_alpha log_beta log_likelihood in
  sanity <- gets sanity_checks_enabled ;;
  (if sanity then
     S <- gets n_hidden_states ;;
     lift (E_step_checks n_obs S log_E log_gamma)
   else ret tt) ;;;
  acc <- lift (accumulate seq n_obs log_E log_gamma acc) ;;
  ret (mk_scratch log_alpha log_beta log_E log_gamma, acc).

(** The body of [for _ in range(self.n_iter)]. *)
Definition EM_iteration (sequences : list (list nat)) (n_obs : nat)
    (sc : scratch L) : Meth (scratch L) :=
  pi_acc <- gets (fun h => zeros_like1 (pi h)) ;;
  A_acc <- gets (fun h => zeros_like2 (A h)) ;;
  B_acc <- gets (fun h => zeros_like2 (B h)) ;;
  st <- forM sequences (E_step n_obs) (sc, mk_acc pi_acc A_acc B_acc) ;;
  let '(sc, acc) := st in
  set_pi (_normalize (HMM.pi_acc acc)) ;;;
  set_A (_normalize_axis1 (HMM.A_acc acc)) ;;;
  set_B (_normalize_axis1 (HMM.B_acc acc)) ;;;
  sanity <- gets sanity_checks_enabled ;;
  (if sanity then
     h <- gets id ;; lift (_check_matrices_conditioning h)
   else ret tt) ;;;
  ret sc.

(** [EM(sequences, n_iter=100)]. The loop runs [self.n_iter] times; the
    argument [n_iter] is not read. *)
Definition EM (sequences : list (list nat)) (n_iter : nat) : Meth unit :=
  sequences <- lift (np_array sequences) ;;
  n_obs <- lift (shape1 sequences) ;;
  S <- gets n_hidden_states ;;
  let log_alpha := full2 uninit S n_obs in
  let log_beta := full2 uninit S n_obs in
  (if n_obs =? 0 then lift (inl NegativeDimension) else ret tt) ;;;
  let log_E := empty3 S S (n_obs - 1) in
  let log_gamma := full2 uninit S n_obs in
  count <- gets HMM.n_iter ;;
  forM (seq 0 count) (fun _ => EM_iteration sequences n_obs)
    (mk_scratch log_alpha log_beta log_E log_gamma) ;;;
  ret tt.
End Class.
End HMM.

(** ** Exact arithmetic

    The instance in which no operation rounds.  A probability is a
    rational.  A log probability [x] is represented by the non-negative
    rational [exp x], its weight: [-inf] is the weight 0, the log-space [+]
    is the product of weights, [-] their quotient, log-sum-exp their sum,
    and [np.log], [np.exp] leave the number unchanged. *)

Module Exact.
Definition ltb (x y : Qc) : bool :=
  (Qnum x * Zpos (Qden y) <? Qnum y * Zpos (Qden x))%Z.

Definition leb (x y : Qc) : bool := negb (ltb y x).

Definition abs (x : Qc) : Qc := if ltb x 0 then (- x)%Qc else x.

Definition frac (n : Z) (d : positive) : Qc := Q2Qc (Qmake n d).

(** the absolute tolerance 1e-8 *)
Definition atol : Qc := frac 1 100000000.
(** the relative tolerance 1e-5 of [np.allclose] *)
Definition rtol : Qc := frac 1 100000.

Definition total (a : list Qc) : Qc := fold_right Qcplus 0%Qc a.

(** A weight: a rational that is not negative. *)
Record W : Type := mkW { wval : Qc; wpos : leb 0 wval = true }.

(** the weight of a rational; a negative one, which is the exponential
    of no number, gives 0 *)
Definition weight (q : Qc) : W :=
  match Bool.bool_dec (leb 0 q) true with
  | left H => mkW q H
  | right _ => mkW 0%Qc eq_refl
  end.

Definition wtotal (a : list W) : W := weight (total (map wval a)).

#[global] Instance floats : Floats Qc W := {|
  p0 := 0%Qc;
  p1 := 1%Qc;
  padd := Qcplus;
  pmul := Qcmult;
  pdiv := Qcdiv;
  pltb := ltb;
  sums_to_1 := fun s => leb (abs (s - 1)%Qc) atol;
  allclose := fun a b => leb (abs (a - b)%Qc) (atol + rtol * abs b)%Qc;
  l0 := weight 1;
  ladd := fun x y => weight (wval x * wval y);
  lsub := fun x y => weight (wval x / wval y);
  lltb := fun x y => ltb (wval x) (wval y);
  neg_inf := weight 0;
  uninit := weight (frac 99 1);
  uninit_int := 99;
  sp_logsumexp := wtotal;
  np_log := weight;
  np_exp := wval;
  _logsumexp := wtotal;
|}.

(** The parameters of the test suite: two hidden states, three symbols. *)
Definition toy_pi : list Qc := [frac 6 10; frac 4 10].
Definition toy_A : list (list Qc) :=
  [[frac 7 10; frac 3 10]; [frac 4 10; frac 6 10]].
Definition toy_B : list (list Qc) :=
  [[frac 1 10; frac 4 10; frac 5 10]; [frac 6 10; frac 3 10; frac 1 10]].
Definition toy_seq : list nat := [0; 1; 2; 0; 1; 2; 0; 1].

(** An initial vector that sums to 1 with an entry below zero. *)
Definition signed_pi : list Qc := [frac 3 2; frac (-1) 2].

(** The object [HMM(toy_pi, toy_A, toy_B, n_iter)] right after its
    construction. *)
Definition toy_model (n_iter : nat) : HMM.self Qc W :=
  HMM.mk toy_pi toy_A toy_B n_iter 2 3 None None None None None None None.
End Exact.


(** * Specification-side definitions *)

(** Two buffers of the same height that agree outside column [t]. *)
Definition agree_off {X : Type} (d : X) (t : nat) (m1 m2 : list (list X)) : Prop :=
  length m1 = length m2 /\
  forall i j, j <> t -> get2 d m1 i j = get2 d m2 i j.

(** ** The lattices as the specification writes them *)

Section LatticeSpec.
Context {P L : Type} `{FL : Floats P L}.
Variables (log_pi : list L) (log_A log_B : list (list L)).
Variables (S : nat) (seq : list nat).

(** [logsumexp_j f(j)] over the states [0..S-1] *)
Definition lse_states (f : nat -> L) : L := _logsumexp (map f (List.seq 0 S)).

(** [log_alpha[s, t]] by the forward recurrence *)
Fixpoint alpha_spec (t s : nat) : L :=
  match t with
  | 0 => ladd (get1 uninit log_pi s) (lget2 log_B s (get1 0 seq 0))
  | Datatypes.S t' =>
      ladd (lse_states (fun j => ladd (alpha_spec t' j) (lget2 log_A j s)))
           (lget2 log_B s (get1 0 seq t))
  end.

(** the log-likelihood of [seq], by the forward lattice alone *)
Definition loglik_spec : L :=
  lse_states (fun s => alpha_spec (length seq - 1) s).

(** [log_beta[s, T - 1 - k]] by the backward recurrence, [k] columns
    before the last *)
Fixpoint beta_back (k s : nat) : L :=
  match k with
  | 0 => np_log p1
  | Datatypes.S k' =>
      lse_states (fun j =>
        ladd (ladd (lget2 log_A s j)
                   (lget2 log_B j (get1 0 seq (length seq - 1 - k'))))
             (beta_back k' j))
  end.

Definition beta_spec (t s : nat) : L := beta_back (length seq - 1 - t) s.
End LatticeSpec.

(** ** Models and corpora the claims speak about *)

Section Models.
Context {P L : Type} `{FL : Floats P L}.

(** A flag that says "do not recompute" comes with the log of the
    current table in the cache. *)
Definition cache_ok {V} (flag : option bool) (cache : option V) (v : V) : Prop :=
  flag = Some false -> cache = Some v.

Definition log_of_pi (h : HMM.self P L) : list L := map np_log (HMM.pi h).
Definition log_of_A (h : HMM.self P L) : list (list L) :=
  map (map np_log) (HMM.A h).
Definition log_of_B (h : HMM.self P L) : list (list L) :=
  map (map np_log) (HMM.B h).

Definition coherent (h : HMM.self P L) : Prop :=
  cache_ok (HMM._recompute_log_pi h) (HMM._HMM__log_pi h) (log_of_pi h) /\
  cache_ok (HMM._recompute_log_A h) (HMM._HMM__log_A h) (log_of_A h) /\
  cache_ok (HMM._recompute_log_B h) (HMM._HMM__log_B h) (log_of_B h).

(** The shape invariant of a model with [S] hidden states and [K]
    symbols, with coherent caches. *)
Definition well_formed (S K : nat) (h : HMM.self P L) : Prop :=
  HMM.n_hidden_states h = S /\ length (HMM.pi h) = S /\
  shape2 S S (HMM.A h) /\ shape2 S K (HMM.B h) /\ coherent h.

(** Every distribution of the model passes the tolerance test. *)
Definition rows_sum_to_1 (h : HMM.self P L) : Prop :=
  sums_to_1 (psum (HMM.pi h)) = true /\
  Forall (fun row => sums_to_1 (psum row) = true) (HMM.A h) /\
  Forall (fun row => sums_to_1 (psum row) = true) (HMM.B h).

(** A non-empty corpus of sequences of length [T] over [K] symbols. *)
Definition corpus_ok (T K : nat) (sequences : list (list nat)) : Prop :=
  sequences <> [] /\ 1 <= T /\
  Forall (fun seq => length seq = T /\ Forall (fun o => o < K) seq) sequences.

(** The object after its three logs were read. *)
Definition warm (h : HMM.self P L) : HMM.self P L :=
  snd (HMM._log_B (snd (HMM._log_A (snd (HMM._log_pi h))))).
End Models.

(** ** Laws of exact arithmetic

    What the log-space operations satisfy when nothing rounds: [+] is a
    commutative monoid with unit [log 1], log-sum-exp is the sum of a
    commutative monoid with unit [-inf], and [+] distributes over it. *)

Class LogSemiring {P L : Type} (FL : Floats P L) : Prop := {
  ladd_comm : forall x y, ladd x y = ladd y x;
  ladd_assoc : forall x y z, ladd x (ladd y z) = ladd (ladd x y) z;
  ladd_log1 : forall x, ladd x (np_log p1) = x;
  ladd_neg_inf : forall c, ladd c neg_inf = neg_inf;
  lse_nil : _logsumexp [] = neg_inf;
  lse_cons : forall x l, _logsumexp (x :: l) = _logsumexp [x; _logsumexp l];
  lse2_comm : forall x y, _logsumexp [x; y] = _logsumexp [y; x];
  lse2_assoc : forall x y z,
    _logsumexp [x; _logsumexp [y; z]] = _logsumexp [_logsumexp [x; y]; z];
  lse2_neg_inf : forall x, _logsumexp [x; neg_inf] = x;
  ladd_lse2 : forall c x y,
    ladd c (_logsumexp [x; y]) = _logsumexp [ladd c x; ladd c y];
}.

(** [x <= y] on log probabilities, as [np.argmax] sees the order *)
Definition lle {P L : Type} `{FL : Floats P L} (x y : L) : Prop :=
  lltb y x = false.

(** The comparison is a total preorder and [+] is monotone. *)
Class LogOrder {P L : Type} (FL : Floats P L) : Prop := {
  lltb_asym : forall x y, lltb x y = true -> lltb y x = false;
  lle_trans : forall x y z, lle x y -> lle y z -> lle x z;
  ladd_mono : forall x y c, lle x y -> lle (ladd x c) (ladd y c);
}.

(** [np.exp] turns the log-space [+] into the product. *)
Class ExpLaws {P L : Type} (FL : Floats P L) : Prop := {
  np_exp_l0 : np_exp l0 = p1;
  np_exp_ladd : forall a b, np_exp (ladd a b) = pmul (np_exp a) (np_exp b);
  pmul_1_l : forall x, pmul p1 x = x;
}.

(** ** Viterbi, as the specification writes it *)

(** [i] is the first index at which the vector [a] is maximal. *)
Definition first_max {P L : Type} `{FL : Floats P L} (a : list L) (i : nat) : Prop :=
  i < length a /\
  (forall j, j < length a -> lle (get1 uninit a j) (get1 uninit a i)) /\
  (forall j, j < i -> lltb (get1 uninit a j) (get1 uninit a i) = true).

Section ViterbiSpec.
Context {P L : Type} `{FL : Floats P L}.
Variables (log_pi : list L) (log_A log_B : list (list L)).
Variables (S : nat) (seq : list nat).

(** [work[j] = prev[j] + log_A[j, s]] *)
Definition work_spec (prev : nat -> L) (s : nat) : list L :=
  map (fun j => ladd (prev j) (lget2 log_A j s)) (List.seq 0 S).

(** [log_V[s, t]] by the max recurrence *)
Fixpoint V_spec (t s : nat) : L :=
  match t with
  | 0 => ladd (get1 uninit log_pi s) (lget2 log_B s (get1 0 seq 0))
  | Datatypes.S t' =>
      let work := work_spec (V_spec t') s in
      ladd (get1 uninit work (argmax lltb work))
           (lget2 log_B s (get1 0 seq t))
  end.

(** [back_path[s, t]] for [t >= 1] *)
Definition back_spec (t s : nat) : nat :=
  argmax lltb (work_spec (V_spec (t - 1)) s).

(** the state of the decoded path [k] steps before the last one *)
Fixpoint walk_back (k : nat) : nat :=
  match k with
  | 0 => argmax lltb (map (V_spec (length seq - 1)) (List.seq 0 S))
  | Datatypes.S k' => back_spec (length seq - 1 - k') (walk_back k')
  end.

Definition viterbi_path : list nat :=
  map (fun t => walk_back (length seq - 1 - t)) (List.seq 0 (length seq)).

(** The log of the joint probability of the observations up to time [t]
    and of the states [path[0..t]]. *)
Fixpoint path_score (path : list nat) (t : nat) : L :=
  match t with
  | 0 => ladd (get1 uninit log_pi (get1 0 path 0))
              (lget2 log_B (get1 0 path 0) (get1 0 seq 0))
  | Datatypes.S t' =>
      ladd (ladd (path_score path t')
                 (lget2 log_A (get1 0 path t') (get1 0 path t)))
           (lget2 log_B (get1 0 path t) (get1 0 seq t))
  end.

Definition joint_log_prob (path : list nat) : L :=
  path_score path (length seq - 1).

(** a sequence of [length seq] states *)
Definition state_path (path : list nat) : Prop :=
  length path = length seq /\ Forall (fun s => s < S) path.
End ViterbiSpec.

(** ** Uses of the parameter store *)

(** An assignment to one of the three tables or a read of one of the
    three logs. *)
Inductive store_op (P : Type) : Type :=
  | Assign_pi (value : list P)
  | Assign_A (value : list (list P))
  | Assign_B (value : list (list P))
  | Read_log_pi
  | Read_log_A
  | Read_log_B.
Arguments Assign_pi {P} value.
Arguments Assign_A {P} value.
Arguments Assign_B {P} value.
Arguments Read_log_pi {P}.
Arguments Read_log_A {P}.
Arguments Read_log_B {P}.

Section StoreOps.
Context {P L : Type} `{FL : Floats P L}.

(** the object after one use *)
Definition store_step (h : HMM.self P L) (o : store_op P) : HMM.self P L :=
  match o with
  | Assign_pi v => snd (HMM.set_pi v h)
  | Assign_A v => snd (HMM.set_A v h)
  | Assign_B v => snd (HMM.set_B v h)
  | Read_log_pi => snd (HMM._log_pi h)
  | Read_log_A => snd (HMM._log_A h)
  | Read_log_B => snd (HMM._log_B h)
  end.

(** the object after a sequence of uses *)
Definition store_run (ops : list (store_op P)) (h : HMM.self P L) : HMM.self P L :=
  fold_left store_step ops h.

(** no flag of the object is [False] *)
Definition never_cleared (h : HMM.self P L) : Prop :=
  HMM._recompute_log_pi h <> Some false /\
  HMM._recompute_log_A h <> Some false /\
  HMM._recompute_log_B h <> Some false.

(** [getattr(self, flag, True)]: the log must be recomputed *)
Definition stale (flag : option bool) : bool := default true flag.
End StoreOps.

(** ** Construction, as the specification writes it *)

Section ConstructionSpec.
Context {P L : Type} `{FL : Floats P L}.

(** The distributions of a model in the order in which their sums are
    checked, each with the name the check gives it. *)
Definition rows_of_state (A B : list (list P)) (s : nat)
    : list (string * list P) :=
  [("Row " ++ str_of_nat s ++ " of A", nth s A []);
   ("Row " ++ str_of_nat s ++ " of B", nth s B [])]%string.

Definition labelled_rows (pi : list P) (A B : list (list P))
    : list (string * list P) :=
  ("init_probas"%string, pi)
  :: concat (map (rows_of_state A B) (List.seq 0 (length A))).

Definition offends (r : string * list P) : bool :=
  negb (sums_to_1 (psum (snd r))).

(** the first distribution whose sum is not 1 within the tolerance *)
Definition first_offender (pi : list P) (A B : list (list P))
    : option (string * list P) :=
  List.find offends (labelled_rows pi A B).

(** no entry of the tables is below zero *)
Definition non_negative (h : HMM.self P L) : Prop :=
  Forall (fun x => pltb x p0 = false) (HMM.pi h) /\
  Forall (Forall (fun x => pltb x p0 = false)) (HMM.A h) /\
  Forall (Forall (fun x => pltb x p0 = false)) (HMM.B h).

(** The four counts of hidden states agree (and both matrices are
    arrays with two axes). *)
Definition consistent_shapes (pi : list P) (A B : list (list P)) : Prop :=
  rectangular A = true /\ rectangular B = true /\ A <> [] /\ B <> [] /\
  length pi = length A /\ ncols A = length A /\ length B = length A.
End ConstructionSpec.

(** ** Baum-Welch, as the specification writes it *)

(** Arrays given by their cells. *)
Definition tabulate2 {X : Type} (r c : nat) (f : nat -> nat -> X)
    : list (list X) :=
  map (fun i => map (fun j => f i j) (List.seq 0 c)) (List.seq 0 r).

Definition tabulate3 {X : Type} (a b c : nat) (f : nat -> nat -> nat -> X)
    : list (list (list X)) :=
  map (fun i => tabulate2 b c (f i)) (List.seq 0 a).

(** [e[i, j, t]], [e[i, j, t] = x] and the shape (a, b, c) *)
Definition get3 {X : Type} (d : X) (e : list (list (list X))) (i j t : nat) : X :=
  nth t (nth j (nth i e []) []) d.

Definition set3 {X : Type} (e : list (list (list X))) (i j t : nat) (x : X)
    : list (list (list X)) :=
  <[i := <[j := <[t := x]> (nth j (nth i e []) [])]> (nth i e [])]> e.

Definition shape3 {X : Type} (a b c : nat) (e : list (list (list X))) : Prop :=
  length e = a /\ Forall (shape2 b c) e.

(** The cells of the tensor [e] that lie in [D] hold their value by [f]. *)
Definition filled {X : Type} (d : X) (a b c : nat) (f : nat -> nat -> nat -> X)
    (D : nat -> nat -> nat -> Prop) (e : list (list (list X))) : Prop :=
  shape3 a b c e /\
  forall i j t, i < a -> j < b -> t < c -> D i j t -> get3 d e i j t = f i j t.

Section EMSpec.
Context {P L : Type} `{FL : Floats P L}.
Variables (log_pi : list L) (log_A log_B : list (list L)).
Variables (S : nat).

(** [L], the log-likelihood of the sequence as [EM] computes it *)
Definition seq_loglik (seq : list nat) : L :=
  sp_logsumexp
    (map (alpha_spec log_pi log_A log_B S seq (length seq - 1)) (List.seq 0 S)).

(** [log_E[i, j, t]] *)
Definition log_E_spec (seq : list nat) (i j t : nat) : L :=
  lsub (ladd (ladd (ladd (alpha_spec log_pi log_A log_B S seq t i)
                         (lget2 log_A i j))
                   (lget2 log_B j (get1 0 seq (t + 1))))
             (beta_spec log_A log_B S seq (t + 1) j))
       (seq_loglik seq).

(** [log_gamma[i, t]] *)
Definition log_gamma_spec (seq : list nat) (i t : nat) : L :=
  lsub (ladd (alpha_spec log_pi log_A log_B S seq t i)
             (beta_spec log_A log_B S seq t i))
       (seq_loglik seq).

(** The buffers after the E-step of a sequence. *)
Definition scratch_after (seq : list nat) : HMM.scratch L :=
  HMM.mk_scratch
    (tabulate2 S (length seq) (fun s t => alpha_spec log_pi log_A log_B S seq t s))
    (tabulate2 S (length seq) (fun s t => beta_spec log_A log_B S seq t s))
    (tabulate3 S S (length seq - 1) (log_E_spec seq))
    (tabulate2 S (length seq) (log_gamma_spec seq)).

(** The accumulators after one more sequence: [exp(log_gamma[:, 0])] is
    added to the first, the sum over [t] of [exp(log_E)] to the second and,
    for every [t], [exp(log_gamma[:, t])] to column [seq[t]] of the third. *)
Definition acc_step (acc : HMM.accumulators P) (seq : list nat)
    : HMM.accumulators P :=
  HMM.mk_acc
    (vpadd (HMM.pi_acc acc)
       (map (fun i => np_exp (log_gamma_spec seq i 0)) (List.seq 0 S)))
    (mpadd (HMM.A_acc acc)
       (tabulate2 S S (fun i j =>
          psum (map (fun t => np_exp (log_E_spec seq i j t))
                  (List.seq 0 (length seq - 1))))))
    (fold_left (fun B_acc t =>
       set_col B_acc (get1 0 seq t)
         (vpadd (col p0 B_acc (get1 0 seq t))
            (map (fun i => np_exp (log_gamma_spec seq i t)) (List.seq 0 S))))
       (List.seq 0 (length seq)) (HMM.B_acc acc)).

(** The buffers after the E-steps of a corpus: those of its last
    sequence. *)
Definition scratch_run (sc : HMM.scratch L) (sequences : list (list nat))
    : HMM.scratch L :=
  fold_left (fun _ seq => scratch_after seq) sequences sc.

(** The accumulators of an iteration: zero, then every sequence. *)
Definition accumulated (pi : list P) (A B : list (list P))
    (sequences : list (list nat)) : HMM.accumulators P :=
  fold_left acc_step sequences
    (HMM.mk_acc (zeros_like1 pi) (zeros_like2 A) (zeros_like2 B)).
End EMSpec.

(** The buffers of [EM] have the shapes it allocated them with. *)
Definition scratch_ok {L : Type} (S T : nat) (sc : HMM.scratch L) : Prop :=
  shape2 S T (HMM.log_alpha sc) /\ shape2 S T (HMM.log_beta sc) /\
  shape3 S S (T - 1) (HMM.log_E sc).

(** ** What a method leaves of the object *)

Section Frames.
Context {P L : Type} `{FL : Floats P L}.

(** Everything of an object but its three flags and its three cached
    logs. *)
Definition same_parameters (h h' : HMM.self P L) : Prop :=
  HMM.pi h' = HMM.pi h /\ HMM.A h' = HMM.A h /\ HMM.B h' = HMM.B h /\
  HMM.n_iter h' = HMM.n_iter h /\
  HMM.n_hidden_states h' = HMM.n_hidden_states h /\
  HMM.n_observable_states h' = HMM.n_observable_states h /\
  HMM._enable_sanity_checks h' = HMM._enable_sanity_checks h.

(** A method that, whatever it returns or raises, changes the object in
    its flags and cached logs only. *)
Definition read_only {A} (m : M P (HMM.self P L) A) : Prop :=
  forall h, same_parameters h (snd (m h)).
End Frames.

(** ** The seeds of the rows of a sample *)

Section SamplingSpec.
Context {P : Type} `{RN : Random P}.

(** the first [n] numbers that [randint(10000)] draws from [rng] *)
Fixpoint sub_seeds (n : nat) (rng : np_rng) : list nat :=
  match n with
  | 0 => []
  | Datatypes.S n' =>
      let '(x, rng') := randint 10000 rng in x :: sub_seeds n' rng'
  end.
End SamplingSpec.

(** ** Iterations of Baum-Welch on the object *)

Section EMRun.
Context {P L : Type} `{FL : Floats P L}.

(** The object after one iteration over [sequences]: the three tables
    are the normalized accumulators, the three flags are set, and the
    caches hold the logs the iteration read, those of the tables it
    replaced. *)
Definition em_next (S : nat) (sequences : list (list nat))
    (h : HMM.self P L) : HMM.self P L :=
  let acc :=
    accumulated (log_of_pi h) (log_of_A h) (log_of_B h) S
      (HMM.pi h) (HMM.A h) (HMM.B h) sequences in
  HMM.mk (_normalize (HMM.pi_acc acc)) (_normalize_axis1 (HMM.A_acc acc))
    (_normalize_axis1 (HMM.B_acc acc))
    (HMM.n_iter h) (HMM.n_hidden_states h) (HMM.n_observable_states h)
    (Some true) (Some (log_of_pi h)) (Some true) (Some (log_of_A h))
    (Some true) (Some (log_of_B h)) (HMM._enable_sanity_checks h).

(** [self.n_iter = n] *)
Definition with_n_iter (n : nat) (h : HMM.self P L) : HMM.self P L :=
  HMM.mk (HMM.init_probas h) (HMM.transitions h) (HMM.emissions h) n
    (HMM.n_hidden_states h) (HMM.n_observable_states h)
    (HMM._recompute_log_pi h) (HMM._HMM__log_pi h)
    (HMM._recompute_log_A h) (HMM._HMM__log_A h)
    (HMM._recompute_log_B h) (HMM._HMM__log_B h)
    (HMM._enable_sanity_checks h).
End EMRun.

(** ** One iteration of Baum-Welch, cell by cell *)

Section EMCells.
Context {P L : Type} `{FL : Floats P L}.
Variables (log_pi : list L) (log_A log_B : list (list L)).
Variables (S : nat).

(** The numbers [xs] added to [total] one after the other. *)
Fixpoint add_in_order (total : P) (xs : list P) : P :=
  match xs with
  | [] => total
  | x :: xs' => add_in_order (padd total x) xs'
  end.

(** What the three accumulators hold after the E-steps of a corpus.  Each
    cell starts at zero.  Cell [i] of the first receives, for every
    sequence in turn, [exp(log_gamma[i, 0])]; cell [(i, j)] of the second
    receives for every sequence the sum over [t] of [exp(log_E[i, j, t])];
    cell [(i, k)] of the third receives [exp(log_gamma[i, t])] for every
    sequence and every time [t] at which the sequence shows the symbol
    [k]. *)
Definition pi_counts (sequences : list (list nat)) : list P :=
  map (fun i =>
         add_in_order p0
           (map (fun seq => np_exp (log_gamma_spec log_pi log_A log_B S seq i 0))
              sequences))
      (List.seq 0 S).

Definition A_counts (sequences : list (list nat)) : list (list P) :=
  tabulate2 S S (fun i j =>
    add_in_order p0
      (map (fun seq =>
              add_in_order p0
                (map (fun t => np_exp (log_E_spec log_pi log_A log_B S seq i j t))
                   (List.seq 0 (length seq - 1))))
         sequences)).

Definition B_counts (K : nat) (sequences : list (list nat)) : list (list P) :=
  tabulate2 S K (fun i k =>
    add_in_order p0
      (concat
         (map (fun seq =>
                 map (fun t => np_exp (log_gamma_spec log_pi log_A log_B S seq i t))
                   (List.filter (fun t => get1 0 seq t =? k)
                      (List.seq 0 (length seq))))
            sequences))).

(** A vector with every cell divided by the sum of the vector. *)
Definition divided_by_sum (v : list P) : list P :=
  map (fun x => pdiv x (add_in_order p0 v)) v.

(** The error of the first sequence of the corpus whose posteriors fail
    a check of the E-step. *)
Fixpoint first_check_error (T : nat) (sequences : list (list nat))
    : option (exn P) :=
  match sequences with
  | [] => None
  | seq :: rest =>
      match HMM.E_step_checks T S
              (tabulate3 S S (T - 1) (log_E_spec log_pi log_A log_B S seq))
              (tabulate2 S T (log_gamma_spec log_pi log_A log_B S seq)) with
      | inl e => Some e
      | inr _ => first_check_error T rest
      end
  end.
End EMCells.

(** The object after an iteration over [sequences] that ran to its end:
    the three tables are the accumulators divided by their sums, the
    vector as a whole and the two matrices row by row; the three flags
    are set, and the caches hold the logs of the tables that were
    replaced. *)
Definition after_iteration {P L : Type} `{FL : Floats P L} (S K : nat)
    (sequences : list (list nat)) (h : HMM.self P L) : HMM.self P L :=
  HMM.mk
    (divided_by_sum
       (pi_counts (log_of_pi h) (log_of_A h) (log_of_B h) S sequences))
    (map divided_by_sum
       (A_counts (log_of_pi h) (log_of_A h) (log_of_B h) S sequences))
    (map divided_by_sum
       (B_counts (log_of_pi h) (log_of_A h) (log_of_B h) S K sequences))
    (HMM.n_iter h) (HMM.n_hidden_states h) (HMM.n_observable_states h)
    (Some true) (Some (log_of_pi h)) (Some true) (Some (log_of_A h))
    (Some true) (Some (log_of_B h)) (HMM._enable_sanity_checks h).

(** The model of two hidden states that never change: the chain starts
    in state 0, which always shows the symbol 0; state 1 always shows
    the symbol 2; no state shows the symbol 1. *)
Definition det_model (n_iter : nat) : HMM.self Qc Exact.W :=
  HMM.mk [1%Qc; 0%Qc] [[1%Qc; 0%Qc]; [0%Qc; 1%Qc]]
    [[1%Qc; 0%Qc; 0%Qc]; [0%Qc; 0%Qc; 1%Qc]]
    n_iter 2 3 None None None None None None None.

(** ** More laws of exact arithmetic

    What [-] in log space, the two log-sum-exp functions, [np.exp] of a
    log-sum-exp and the two tolerance tests satisfy when nothing rounds:
    [-] is the inverse of [+] away from [-inf] and distributes over
    log-sum-exp, the exponential of a log-sum-exp is the sum of the
    exponentials, and a number is close to itself. *)

Class QuotientLaws {P L : Type} (FL : Floats P L) : Prop := {
  sp_logsumexp_spec : forall l, sp_logsumexp l = _logsumexp l;
  lsub_lse : forall l c,
    lsub (_logsumexp l) c = _logsumexp (map (fun x => lsub x c) l);
  lsub_diag : forall x, x <> neg_inf -> lsub x x = l0;
  np_exp_lse : forall l, np_exp (_logsumexp l) = psum (map np_exp l);
  sums_to_1_p1 : sums_to_1 p1 = true;
  allclose_refl : forall x, allclose x x = true;
}.

(** A log-sum-exp is at least each of its terms. *)
Class LogSumOrder {P L : Type} (FL : Floats P L) : Prop := {
  lse2_upper : forall x y, lle x (_logsumexp [x; y]);
}.

(** The toy object of the test of [EM], after the assignment
    [hmm._enable_sanity_checks = True]. *)
Definition checked_toy_model (n_iter : nat) : HMM.self Qc Exact.W :=
  HMM.mk Exact.toy_pi Exact.toy_A Exact.toy_B n_iter 2 3
    None None None None None None (Some true).

(** ** All hidden paths *)

(** The sequences of [n] states among [S] states, in lexicographic
    order. *)
Fixpoint all_paths (S n : nat) : list (list nat) :=
  match n with
  | 0 => [[]]
  | Datatypes.S n' =>
      concat (map (fun p => map (fun s => p ++ [s]) (List.seq 0 S))
                  (all_paths S n'))
  end.

(** ** The helper of the test suite *)

Section TestHelpers.
Context {P : Type}.

(** [to_weird_format(sequences)], the corpus as hmmlearn takes it: under
    ["X"] one column with the observations of all sequences, one after
    the other, and under ["lengths"] the length of every sequence.  The
    dictionary is the pair of its two values; [sequences] is an array, as
    for [decode]. *)
Definition to_weird_format (sequences : list (list nat))
    : res P (list (list nat) * list nat) :=
  sequences' <~ np_array sequences ;;
  let X := map (fun x => [x]) (concat sequences') in
  n_obs <~ shape1 sequences ;;
  inr (X, repeat n_obs (length sequences)).
End TestHelpers.

(** What hmmlearn makes of the two values: the column cut into pieces of
    the given lengths. *)
Fixpoint cut_by_lengths {X : Type} (lengths : list nat) (xs : list X)
    : list (list X) :=
  match lengths with
  | [] => []
  | n :: lengths' => take n xs :: cut_by_lengths lengths' (drop n xs)
  end.

(** ** Binary64 arithmetic

    The arithmetic numpy computes with: IEEE 754 binary64, where every
    [+], [-], [*] and [/] is rounded to the nearest number, ties to even.
    These are the operations of the primitive floats.  [np.exp] and
    [np.log] are not among them: they are given at the special arguments
    (zeros, one, the infinities, NaN), where IEEE 754 fixes their value,
    and at the few other arguments listed in two tables, each with the
    binary64 number nearest to the exact value (the exact value lies
    within 0.21 units in the last place of it).  A number is [None] when
    it would need an exponential or a logarithm outside the tables, or a
    cell of [np.empty]; a result [Some x] depends on none of these and is
    the number binary64 arithmetic gives. *)

Module Binary64.
Import PrimFloat.
Local Open Scope float_scope.

Definition f64 : Type := option float.

Definition op2 (f : float -> float -> float) (x y : f64) : f64 :=
  match x, y with
  | Some a, Some b => Some (f a b)
  | _, _ => None
  end.

Definition cmp (f : float -> float -> bool) (x y : f64) : bool :=
  match x, y with
  | Some a, Some b => f a b
  | _, _ => false
  end.

Definition is_nan (x : float) : bool := negb (x =? x).

(** [np.isfinite] *)
Definition isfinite (x : float) : bool := abs x <? infinity.

Definition log_table : list (float * float) :=
  [(0.5, -0.6931471805599453); (0.25, -1.3862943611198906)].

Definition exp_table : list (float * float) :=
  [(-0.6931471805599453, 0.5); (-1.3862943611198906, 0.25);
   (-2.0794415416798357, 0.12500000000000003)].

Definition tabulated (table : list (float * float)) (x : float) : f64 :=
  match List.find (fun p => fst p =? x) table with
  | Some p => Some (snd p)
  | None => None
  end.

(** [np.log] of a number *)
Definition log (x : float) : f64 :=
  if is_nan x then Some nan
  else if x <? 0 then Some nan
  else if x =? 0 then Some neg_infinity
  else if x =? 1 then Some 0
  else if x =? infinity then Some infinity
  else tabulated log_table x.

(** [np.exp] of a number *)
Definition exp (x : float) : f64 :=
  if is_nan x then Some nan
  else if x =? neg_infinity then Some 0
  else if x =? 0 then Some 1
  else if x =? infinity then Some infinity
  else tabulated exp_table x.

(** [np.amax] of a vector that is not empty: a NaN wins. *)
Definition amax (a : list float) : float :=
  match a with
  | [] => nan
  | x :: a' =>
      fold_left (fun m y =>
        if is_nan m then m else if is_nan y then y
        else if m <? y then y else m) a' x
  end.

(** the numbers of a vector, when all are known *)
Fixpoint known (a : list f64) : option (list float) :=
  match a with
  | [] => Some []
  | Some x :: a' =>
      match known a' with Some xs => Some (x :: xs) | None => None end
  | None :: _ => None
  end.

(** [np.sum] of a short vector: the cells are added to 0 from left to
    right *)
Definition sum (a : list f64) : f64 := fold_left (op2 add) a (Some 0).

(** Modelled from the spec: [_utils._logsumexp], which is not part of the
    sources, and [scipy.special.logsumexp] on a vector.  The maximum is
    subtracted before the exponentials are taken and added back to the
    logarithm of their sum; a maximum that is not finite is replaced by
    0, so that a vector of [-inf] gives [-inf]. *)
Definition logsumexp (a : list f64) : f64 :=
  match known a with
  | None => None
  | Some xs =>
      let a_max := amax xs in
      let a_max := if isfinite a_max then a_max else 0 in
      let s := sum (map (fun x => exp (x - a_max)) xs) in
      op2 add (match s with Some v => log v | None => None end) (Some a_max)
  end.

(** The tolerances are those of the exact instance: 1e-8 on a sum, and
    those of [np.allclose]. *)
Definition floats : Floats f64 f64 := {|
  p0 := Some 0;
  p1 := Some 1;
  padd := op2 add;
  pmul := op2 mul;
  pdiv := op2 div;
  pltb := cmp ltb;
  sums_to_1 := fun s => cmp leb (op2 sub s (Some 1) ≫= fun d => Some (abs d)) (Some 1e-8);
  allclose := fun a b =>
    cmp leb (op2 sub a b ≫= fun d => Some (abs d))
      (op2 add (Some 1e-8) (op2 mul (Some 1e-5) (b ≫= fun v => Some (abs v))));
  l0 := Some 0;
  ladd := op2 add;
  lsub := op2 sub;
  lltb := cmp ltb;
  neg_inf := Some neg_infinity;
  uninit := None;
  uninit_int := 99%nat;
  sp_logsumexp := logsumexp;
  np_log := fun x => x ≫= log;
  np_exp := fun x => x ≫= exp;
  _logsumexp := logsumexp;
|}.

(** A model with one hidden state and three symbols. *)
Definition one_state_model (n_iter : nat) : HMM.self f64 f64 :=
  HMM.mk [Some 1] [[Some 1]] [[Some 0.5; Some 0.25; Some 0.25]]
    n_iter 1%nat 3%nat None None None None None None None.

(** A model with two hidden states that never change: the chain starts
    in state 0, which always emits symbol 0; state 1 always emits
    symbol 2; no state emits symbol 1. *)
Definition det_model (n_iter : nat) : HMM.self f64 f64 :=
  HMM.mk [Some 1; Some 0] [[Some 1; Some 0]; [Some 0; Some 1]]
    [[Some 1; Some 0; Some 0]; [Some 0; Some 0; Some 1]]
    n_iter 2%nat 3%nat None None None None None None None.
End Binary64.

(** * Facts *)

(** ** Arrays and loops *)

Section ArrayFacts.
Context {X : Type} (d : X).
Implicit Types (m : list (list X)) (a v : list X).

Lemma nth_insert_eq a i x : i < length a -> nth i (<[i := x]> a) d = x.
Proof.
  intros Hi. rewrite nth_lookup, list_lookup_insert_eq; [done | lia].
Qed.

Lemma nth_insert_ne a i j x : i <> j -> nth j (<[i := x]> a) d = nth j a d.
Proof.
  intros Hne. by rewrite !nth_lookup, list_lookup_insert_ne.
Qed.

Lemma nth_rows_insert_eq m i (r : list X) :
  i < length m -> nth i (<[i := r]> m) [] = r.
Proof.
  intros Hi. rewrite nth_lookup, list_lookup_insert_eq; [done | lia].
Qed.

Lemma nth_rows_insert_ne m i i' (r : list X) :
  i <> i' -> nth i' (<[i := r]> m) [] = nth i' m [].
Proof.
  intros Hne. by rewrite !nth_lookup, list_lookup_insert_ne.
Qed.

Lemma shape2_row r c m i : shape2 r c m -> i < r -> length (nth i m []) = c.
Proof.
  intros [Hr Hc] Hi. rewrite Forall_forall in Hc. apply Hc.
  apply list_elem_of_In, nth_In. lia.
Qed.

Lemma shape2_set2 r c m i j x : shape2 r c m -> shape2 r c (set2 m i j x).
Proof.
  intros [Hr Hc]. unfold set2. split; [by rewrite length_insert |].
  destruct (decide (i < length m)) as [Hi | Hi].
  - apply Forall_insert; [done |]. rewrite length_insert.
    eapply shape2_row; [by split | lia].
  - rewrite list_insert_ge; [done | lia].
Qed.

Lemma get2_set2_eq r c m i j x :
  shape2 r c m -> i < r -> j < c -> get2 d (set2 m i j x) i j = x.
Proof.
  intros Hm Hi Hj. unfold get2, set2.
  rewrite nth_rows_insert_eq by (destruct Hm; lia).
  apply nth_insert_eq. by rewrite (shape2_row r c).
Qed.

Lemma get2_set2_ne m i j i' j' x :
  i <> i' \/ j <> j' -> get2 d (set2 m i j x) i' j' = get2 d m i' j'.
Proof.
  intros Hne. unfold get2, set2.
  destruct (decide (i = i')) as [<- | Hi].
  - destruct (decide (i < length m)) as [Hlt | Hge].
    + rewrite nth_rows_insert_eq by done.
      apply nth_insert_ne. destruct Hne; [done | done].
    + rewrite list_insert_ge; [done | lia].
  - by rewrite nth_rows_insert_ne.
Qed.

Lemma set2_set2 m i j x y : set2 (set2 m i j x) i j y = set2 m i j y.
Proof.
  unfold set2. destruct (decide (i < length m)) as [Hlt | Hge].
  - rewrite nth_rows_insert_eq by done.
    by rewrite list_insert_insert_eq, list_insert_insert_eq.
  - rewrite !(list_insert_ge m) by lia. done.
Qed.

Lemma map_nth_seq {W Y} (f : W -> Y) (l : list W) (w : W) :
  map f l = map (fun i => f (nth i l w)) (seq 0 (length l)).
Proof.
  induction l as [| x l IH]; [done |].
  simpl. f_equal. rewrite IH, <- seq_shift, List.map_map. done.
Qed.

Lemma map_as_seq {Y} (f : list X -> Y) m :
  map f m = map (fun i => f (nth i m [])) (seq 0 (length m)).
Proof. apply map_nth_seq. Qed.

Lemma col_get2 m j : col d m j = map (fun i => get2 d m i j) (seq 0 (length m)).
Proof. unfold col, get2. apply map_as_seq. Qed.

Lemma length_col m j : length (col d m j) = length m.
Proof. apply List.length_map. Qed.

Lemma ncols_shape2 r c m : shape2 r c m -> 0 < r -> ncols m = c.
Proof. intros Hm Hr. unfold ncols. by apply (shape2_row r c). Qed.

Lemma shape2_set_col r c m j v :
  shape2 r c m -> length v = r -> shape2 r c (set_col m j v).
Proof.
  intros [Hr Hc] Hv. unfold set_col. split.
  - rewrite length_zip_with. lia.
  - rewrite Forall_forall in Hc. apply Forall_forall. intros row Hin.
    apply list_elem_of_lookup in Hin as [i Hi].
    apply lookup_zip_with_Some in Hi as (r0 & x & -> & Hr0 & _).
    rewrite length_insert. apply Hc.
    apply list_elem_of_lookup. eauto.
Qed.

Lemma nth_set_col m j v i :
  i < length m -> i < length v ->
  nth i (set_col m j v) [] = <[j := nth i v d]> (nth i m []).
Proof.
  intros Hm Hv. unfold set_col. rewrite nth_lookup.
  destruct (lookup_lt_is_Some_2 m i Hm) as [row Hrow].
  destruct (lookup_lt_is_Some_2 v i Hv) as [x Hx].
  rewrite (proj2 (lookup_zip_with_Some _ m v i (<[j := x]> row))).
  - simpl. by rewrite !nth_lookup, Hrow, Hx.
  - eauto.
Qed.

Lemma get2_set_col_eq r c m j v i :
  shape2 r c m -> length v = r -> i < r -> j < c ->
  get2 d (set_col m j v) i j = nth i v d.
Proof.
  intros Hm Hv Hi Hj. unfold get2.
  rewrite nth_set_col by (destruct Hm; lia).
  apply nth_insert_eq. by rewrite (shape2_row r c).
Qed.

Lemma get2_set_col_ne r m j v i j' :
  length m = r -> length v = r -> j <> j' ->
  get2 d (set_col m j v) i j' = get2 d m i j'.
Proof.
  intros Hm Hv Hne. unfold get2.
  destruct (decide (i < r)) as [Hi | Hi].
  - rewrite nth_set_col by lia. by apply nth_insert_ne.
  - rewrite !(nth_overflow _ []); [done | lia |].
    unfold set_col. rewrite length_zip_with. lia.
Qed.

Lemma shape2_fill_col r c m j x : shape2 r c m -> shape2 r c (fill_col m j x).
Proof.
  intros [Hr Hc]. unfold fill_col. split; [by rewrite List.length_map |].
  apply Forall_map. eapply Forall_impl; [exact Hc |].
  intros row Hrow. simpl. by rewrite length_insert.
Qed.

Lemma get2_fill_col_eq r c m j x i :
  shape2 r c m -> i < r -> j < c -> get2 d (fill_col m j x) i j = x.
Proof.
  intros Hm Hi Hj. unfold get2, fill_col.
  rewrite (nth_indep _ [] (<[j := x]> [])) by (rewrite List.length_map; destruct Hm; lia).
  rewrite (map_nth (fun row => <[j := x]> row)).
  apply nth_insert_eq. by rewrite (shape2_row r c).
Qed.

Lemma get2_fill_col_ne m j x i j' :
  j <> j' -> get2 d (fill_col m j x) i j' = get2 d m i j'.
Proof.
  intros Hne. unfold get2, fill_col.
  destruct (decide (i < length m)) as [Hi | Hi].
  - rewrite (nth_indep _ [] (<[j := x]> [])) by (by rewrite List.length_map).
    rewrite (map_nth (fun row => <[j := x]> row)).
    by apply nth_insert_ne.
  - rewrite !(nth_overflow _ []); [done | lia | rewrite List.length_map; lia].
Qed.

Lemma shape2_full2 r c : shape2 r c (full2 d r c).
Proof.
  unfold full2. split; [apply repeat_length |].
  apply Forall_forall. intros row Hin.
  apply list_elem_of_In, repeat_spec in Hin as ->.
  apply repeat_length.
Qed.
End ArrayFacts.

Section LoopFacts.
Context {St : Type}.

Lemma for_range_snoc lo hi (body : nat -> St -> St) st :
  lo <= hi ->
  for_range lo (S hi) body st = body hi (for_range lo hi body st).
Proof.
  intros Hle. unfold for_range.
  replace (S hi - lo) with (S (hi - lo)) by lia.
  rewrite seq_S, fold_left_app. simpl. do 2 f_equal. lia.
Qed.

Lemma for_range_ind (Inv : nat -> St -> Prop) lo hi body st :
  lo <= hi -> Inv lo st ->
  (forall t st', lo <= t < hi -> Inv t st' -> Inv (S t) (body t st')) ->
  Inv hi (for_range lo hi body st).
Proof.
  intros Hle H0 Hstep. induction hi as [| hi IH].
  - assert (lo = 0) as -> by lia. exact H0.
  - destruct (decide (lo = S hi)) as [-> | Hne].
    + unfold for_range. rewrite Nat.sub_diag. exact H0.
    + rewrite for_range_snoc by lia. apply Hstep; [lia |].
      apply IH; [lia |]. intros t st' Ht. apply Hstep. lia.
Qed.

Lemma for_down_S n (body : nat -> St -> St) st :
  for_down (S n) body st = for_down n body (body n st).
Proof. unfold for_down. rewrite seq_S, rev_app_distr. done. Qed.

Lemma for_down_ind (Inv : nat -> St -> Prop) n body st :
  Inv n st ->
  (forall t st', t < n -> Inv (S t) st' -> Inv t (body t st')) ->
  Inv 0 (for_down n body st).
Proof.
  revert st. induction n as [| n IH]; intros st H0 Hstep; [exact H0 |].
  rewrite for_down_S. apply IH.
  - apply Hstep; [lia | exact H0].
  - intros t st' Ht. apply Hstep. lia.
Qed.
End LoopFacts.

Section ColumnLoops.
Context {X : Type} (d : X).
Implicit Types (m : list (list X)).

Lemma agree_off_refl t m : agree_off d t m m.
Proof. by split. Qed.

Lemma agree_off_trans t m1 m2 m3 :
  agree_off d t m1 m2 -> agree_off d t m2 m3 -> agree_off d t m1 m3.
Proof.
  intros [H1 H2] [H3 H4]. split; [congruence |].
  intros i j Hj. by rewrite H2, H4.
Qed.

Lemma agree_off_set2 t m s x : agree_off d t m (set2 m s t x).
Proof.
  split; [unfold set2; by rewrite length_insert |].
  intros i j Hj. symmetry. apply get2_set2_ne. right. done.
Qed.

Lemma agree_off_col t m1 m2 j : agree_off d t m1 m2 -> j <> t -> col d m1 j = col d m2 j.
Proof.
  intros [Hlen Hag] Hj. rewrite !col_get2, Hlen.
  apply map_ext. intros i. by apply Hag.
Qed.

(** The loop over the states that writes column [t], when each written
    cell [f s m] depends on the other columns only. *)
Lemma fill_column (f : nat -> list (list X) -> X) body r c t n m :
  shape2 r c m -> t < c -> n <= r ->
  (forall s m', shape2 r c m' -> s < r -> body s m' = set2 m' s t (f s m')) ->
  (forall s m1 m2, agree_off d t m1 m2 -> f s m1 = f s m2) ->
  let m' := for_range 0 n body m in
  shape2 r c m' /\ agree_off d t m m' /\
  (forall s, s < n -> get2 d m' s t = f s m).
Proof.
  intros Hm Ht Hn Hbody Hf. simpl.
  apply (for_range_ind
    (fun k m' => k <= n -> shape2 r c m' /\ agree_off d t m m' /\
                 (forall s, s < k -> get2 d m' s t = f s m)));
    [lia | | | lia].
  - intros _. split; [done |]. split; [apply agree_off_refl |]. lia.
  - intros k m' Hk IH Hle. destruct IH as (Hsh & Hag & Hcells); [lia |].
    rewrite Hbody by (done || lia). split; [by apply shape2_set2 |].
    split; [eapply agree_off_trans; [exact Hag | apply agree_off_set2] |].
    intros s Hs. destruct (decide (s = k)) as [-> | Hne].
    + rewrite (get2_set2_eq d r c) by (done || lia). symmetry. by apply Hf.
    + rewrite get2_set2_ne by (left; done). apply Hcells. lia.
Qed.
End ColumnLoops.

Section ZipFacts.
Context {X Y Z : Type}.

Lemma zip_with_maps {W} (f : X -> Y -> Z) (g : W -> X) (h : W -> Y) (l : list W) :
  zip_with f (map g l) (map h l) = map (fun w => f (g w) (h w)) l.
Proof. induction l as [| w l IH]; [done |]. simpl. by rewrite IH. Qed.

Lemma nth_zip_with (f : X -> Y -> Z) u v i dx dy dz :
  i < length u -> i < length v ->
  nth i (zip_with f u v) dz = f (nth i u dx) (nth i v dy).
Proof.
  revert v i. induction u as [| x u IH]; intros [| y v] [| i] Hu Hv;
    simpl in *; try lia; [done |].
  apply IH; lia.
Qed.
End ZipFacts.

Section ForwardFacts.
Context {P L : Type} `{FL : Floats P L}.
Variables (log_pi : list L) (log_A log_B : list (list L)).
Variables (S T : nat) (seq : list nat).
Hypothesis Hpi : length log_pi = S.
Hypothesis HA : length log_A = S.
Hypothesis HB : length log_B = S.
Hypothesis Hseq : length seq = T.

Local Abbreviation alpha := (alpha_spec log_pi log_A log_B S seq).

Lemma vladd_cols (m n : list (list L)) j k :
  length m = S -> length n = S ->
  vladd (lcol m j) (lcol n k)
  = map (fun i => ladd (lget2 m i j) (lget2 n i k)) (List.seq 0 S).
Proof.
  intros Hm Hn. unfold vladd, lcol, lget2.
  rewrite !col_get2, Hm, Hn. apply zip_with_maps.
Qed.

Lemma forward_cell_set (m : list (list L)) t s :
  shape2 S T m -> s < S -> t < T ->
  forward_cell seq log_A log_B t s m
  = set2 m s t
      (ladd (_logsumexp (vladd (lcol m (t - 1)) (lcol log_A s)))
            (lget2 log_B s (get1 0 seq t))).
Proof.
  intros Hm Hs Ht. unfold forward_cell, lget2.
  by rewrite (get2_set2_eq uninit S T), set2_set2.
Qed.

Lemma forward_column (m : list (list L)) t :
  shape2 S T m -> 1 <= t < T ->
  let m' := for_range 0 S (forward_cell seq log_A log_B t) m in
  shape2 S T m' /\ agree_off uninit t m m' /\
  forall s, s < S ->
    lget2 m' s t
    = ladd (lse_states S (fun j => ladd (lget2 m j (t - 1)) (lget2 log_A j s)))
           (lget2 log_B s (get1 0 seq t)).
Proof.
  intros Hm Ht.
  pose (f := fun s (m' : list (list L)) =>
    ladd (_logsumexp (vladd (lcol m' (t - 1)) (lcol log_A s)))
         (lget2 log_B s (get1 0 seq t))).
  destruct (fill_column uninit f (forward_cell seq log_A log_B t) S T t S m)
    as (Hsh & Hag & Hcells); try done; try lia.
  - intros s m' Hm' Hs. apply forward_cell_set; [done | done | lia].
  - intros s m1 m2 Hag. unfold f, lcol.
    rewrite (agree_off_col uninit t m1 m2) by (done || lia). done.
  - simpl. split; [done |]. split; [done |].
    intros s Hs. unfold lget2 at 1. rewrite Hcells by done. unfold f.
    rewrite vladd_cols by (done || by destruct Hm). done.
Qed.

Lemma forward_init (buf : list (list L)) :
  shape2 S T buf -> 1 <= T ->
  let m := set_col buf 0 (vladd log_pi (lcol log_B (get1 0 seq 0))) in
  shape2 S T m /\ forall s, s < S -> lget2 m s 0 = alpha 0 s.
Proof.
  intros Hbuf HT. simpl.
  assert (length (vladd log_pi (lcol log_B (get1 0 seq 0))) = S) as Hlen.
  { unfold vladd, lcol. rewrite length_zip_with, length_col. lia. }
  split; [by apply shape2_set_col |].
  intros s Hs. unfold lget2.
  rewrite (get2_set_col_eq uninit S T) by (done || lia).
  unfold vladd. rewrite (nth_zip_with _ _ _ _ uninit uninit)
    by (unfold lcol; rewrite ?length_col; lia).
  simpl. unfold get1, lget2, get2, lcol, col. f_equal.
  rewrite (nth_indep _ uninit ((fun row => nth (nth 0 seq 0) row uninit) []))
    by (rewrite List.length_map; lia).
  by rewrite (map_nth (fun row => nth (nth 0 seq 0) row uninit)).
Qed.

(** The kernel fills the lattice with the recurrence and returns the
    log-sum-exp of the last column, whatever the buffer held before. *)
Lemma forward_lattice (buf : list (list L)) :
  shape2 S T buf -> 1 <= T ->
  shape2 S T (fst (_forward seq log_pi log_A log_B buf)) /\
  (forall t s, t < T -> s < S ->
     lget2 (fst (_forward seq log_pi log_A log_B buf)) s t = alpha t s) /\
  snd (_forward seq log_pi log_A log_B buf)
  = loglik_spec log_pi log_A log_B S seq.
Proof.
  intros Hbuf HT. unfold _forward. rewrite Hpi, Hseq.
  destruct (forward_init buf Hbuf HT) as [Hsh0 Hc0].
  set (m0 := set_col buf 0 _) in *.
  set (body := fun t => for_range 0 S (fun s => forward_cell seq log_A log_B t s)).
  assert (shape2 S T (for_range 1 T body m0) /\
          forall t s, t < T -> s < S ->
            lget2 (for_range 1 T body m0) s t = alpha t s) as [Hsh Hcells].
  { apply (for_range_ind (fun k m =>
      shape2 S T m /\ forall t s, t < k -> s < S -> lget2 m s t = alpha t s));
      [lia | |].
    - split; [done |]. intros t s Ht Hs. assert (t = 0) as -> by lia. by apply Hc0.
    - intros t m Ht [Hm Hdone].
      destruct (forward_column m t Hm ltac:(lia)) as (Hsh' & Hag & Hcol).
      split; [exact Hsh' |]. intros t' s Ht' Hs.
      destruct (decide (t' = t)) as [-> | Hne].
      + unfold body. rewrite Hcol by done.
        destruct t as [| t]; [lia |]. simpl.
        replace (t - 0) with t by lia. f_equal. unfold lse_states. f_equal.
        apply map_ext_in. intros j Hj. apply in_seq in Hj.
        rewrite Hdone by lia. done.
      + destruct Hag as [_ Hag]. unfold body, lget2. rewrite <- Hag by done.
        apply Hdone; lia. }
  simpl. split; [done |]. split; [done |].
  unfold loglik_spec, lse_states, col_last. rewrite Hseq. f_equal.
  rewrite col_get2. destruct Hsh as [Hrows Hc]. rewrite Hrows.
  apply map_ext_in. intros s Hs. apply in_seq in Hs.
  rewrite (ncols_shape2 S T) by (by split || lia).
  apply Hcells; lia.
Qed.
End ForwardFacts.

(** ** The log caches *)

Section CacheFacts.
Context {P L : Type} `{FL : Floats P L}.
Implicit Types h : HMM.self P L.

(** case analysis on the three flags of an object, using the coherence
    of its caches where a flag is [False] *)
Ltac flags h H1 H2 H3 :=
  destruct h as [ip tr em ni nh no fpi cpi fA cA fB cB sc];
  unfold coherent, cache_ok, log_of_pi, log_of_A, log_of_B in *;
  cbn [HMM._recompute_log_pi HMM._HMM__log_pi HMM._recompute_log_A
       HMM._HMM__log_A HMM._recompute_log_B HMM._HMM__log_B
       HMM.pi HMM.A HMM.B HMM.init_probas HMM.transitions HMM.emissions]
    in H1, H2, H3;
  destruct fpi as [[|]|]; [| rewrite (H1 eq_refl) |];
  (destruct fA as [[|]|]; [| rewrite (H2 eq_refl) |]);
  (destruct fB as [[|]|]; [| rewrite (H3 eq_refl) |]).

Lemma read_log_pi h :
  coherent h -> HMM._log_pi h = (inr (log_of_pi h), snd (HMM._log_pi h)).
Proof. intros (H1 & H2 & H3). flags h H1 H2 H3; reflexivity. Qed.

Lemma read_log_A h :
  coherent h -> HMM._log_A h = (inr (log_of_A h), snd (HMM._log_A h)).
Proof. intros (H1 & H2 & H3). flags h H1 H2 H3; reflexivity. Qed.

Lemma read_log_B h :
  coherent h -> HMM._log_B h = (inr (log_of_B h), snd (HMM._log_B h)).
Proof. intros (H1 & H2 & H3). flags h H1 H2 H3; reflexivity. Qed.

Lemma coherent_read_pi h : coherent h -> coherent (snd (HMM._log_pi h)).
Proof.
  intros (H1 & H2 & H3).
  flags h H1 H2 H3; repeat split; intros ?; try discriminate; reflexivity.
Qed.

Lemma coherent_read_A h : coherent h -> coherent (snd (HMM._log_A h)).
Proof.
  intros (H1 & H2 & H3).
  flags h H1 H2 H3; repeat split; intros ?; try discriminate; reflexivity.
Qed.

Lemma coherent_read_B h : coherent h -> coherent (snd (HMM._log_B h)).
Proof.
  intros (H1 & H2 & H3).
  flags h H1 H2 H3; repeat split; intros ?; try discriminate; reflexivity.
Qed.

Lemma coherent_warm h : coherent h -> coherent (warm h).
Proof.
  intros Hc. unfold warm.
  by apply coherent_read_B, coherent_read_A, coherent_read_pi.
Qed.

(** Reading the logs changes the caches only. *)
Lemma warm_tables h :
  HMM.pi (warm h) = HMM.pi h /\ HMM.A (warm h) = HMM.A h /\
  HMM.B (warm h) = HMM.B h /\
  HMM.n_hidden_states (warm h) = HMM.n_hidden_states h /\
  HMM.n_iter (warm h) = HMM.n_iter h /\
  HMM._enable_sanity_checks (warm h) = HMM._enable_sanity_checks h.
Proof.
  destruct h as [ip tr em ni nh no fpi cpi fA cA fB cB sc].
  destruct fpi as [[|]|], fA as [[|]|], fB as [[|]|]; repeat split.
Qed.

Lemma warm_logs h :
  log_of_pi (warm h) = log_of_pi h /\ log_of_A (warm h) = log_of_A h /\
  log_of_B (warm h) = log_of_B h.
Proof.
  destruct (warm_tables h) as (E1 & E2 & E3 & _).
  unfold log_of_pi, log_of_A, log_of_B. by rewrite E1, E2, E3.
Qed.

(** On a warm object the reads return the logs and change nothing. *)
Lemma warm_read_pi h :
  coherent h -> HMM._log_pi (warm h) = (inr (log_of_pi h), warm h).
Proof. intros (H1 & H2 & H3). flags h H1 H2 H3; reflexivity. Qed.

Lemma warm_read_A h :
  coherent h -> HMM._log_A (warm h) = (inr (log_of_A h), warm h).
Proof. intros (H1 & H2 & H3). flags h H1 H2 H3; reflexivity. Qed.

Lemma warm_read_B h :
  coherent h -> HMM._log_B (warm h) = (inr (log_of_B h), warm h).
Proof. intros (H1 & H2 & H3). flags h H1 H2 H3; reflexivity. Qed.

(** A warm object holds the three logs in its caches. *)
Lemma warm_record h :
  coherent h ->
  warm h
  = HMM.mk (HMM.init_probas h) (HMM.transitions h) (HMM.emissions h)
      (HMM.n_iter h) (HMM.n_hidden_states h) (HMM.n_observable_states h)
      (HMM._recompute_log_pi h) (Some (log_of_pi h))
      (HMM._recompute_log_A h) (Some (log_of_A h))
      (HMM._recompute_log_B h) (Some (log_of_B h))
      (HMM._enable_sanity_checks h).
Proof. intros (H1 & H2 & H3). flags h H1 H2 H3; reflexivity. Qed.

Lemma warm_warm h : coherent h -> warm (warm h) = warm h.
Proof.
  intros Hc. unfold warm at 1.
  rewrite warm_read_pi by done. cbn [snd].
  rewrite warm_read_A by done. cbn [snd].
  by rewrite warm_read_B.
Qed.

Lemma well_formed_warm S K h : well_formed S K h -> well_formed S K (warm h).
Proof.
  intros (H1 & H2 & H3 & H4 & H5).
  destruct (warm_tables h) as (E1 & E2 & E3 & E4 & _).
  unfold well_formed. rewrite E1, E2, E3, E4.
  refine (conj _ (conj _ (conj _ (conj _ _)))); try done.
  by apply coherent_warm.
Qed.

(** The methods that call the kernels. *)
Lemma method_forward h seq buf :
  coherent h ->
  HMM._forward seq buf h
  = (inr (_forward seq (log_of_pi h) (log_of_A h) (log_of_B h) buf), warm h).
Proof.
  intros Hc. unfold HMM._forward, bind, ret.
  rewrite (read_log_pi h Hc).
  pose proof (coherent_read_pi h Hc) as Hc1.
  rewrite (read_log_A _ Hc1).
  pose proof (coherent_read_A _ Hc1) as Hc2.
  rewrite (read_log_B _ Hc2).
  unfold warm. do 2 f_equal.
  destruct h as [ip tr em ni nh no fpi cpi fA cA fB cB sc].
  destruct fpi as [[|]|], fA as [[|]|], fB as [[|]|]; reflexivity.
Qed.
End CacheFacts.

Section LikelihoodFacts.
Context {P L : Type} `{FL : Floats P L}.
Implicit Types h : HMM.self P L.

Lemma rectangular_same_length {X} T (m : list (list X)) :
  Forall (fun r => length r = T) m -> rectangular m = true.
Proof.
  intros Hm. destruct m as [| r m]; [done |]. simpl.
  apply Forall_cons in Hm as [Hr Hm]. apply forallb_forall.
  intros r' Hin. rewrite Forall_forall in Hm.
  apply Nat.eqb_eq. rewrite Hr. apply Hm. by apply list_elem_of_In.
Qed.

Lemma corpus_lengths T K sequences :
  corpus_ok T K sequences -> Forall (fun seq => length seq = T) sequences.
Proof.
  intros (_ & _ & Hall). eapply Forall_impl; [exact Hall |]. by intros seq [? _].
Qed.

Lemma corpus_np_array T K sequences :
  corpus_ok T K sequences ->
  np_array (P := P) sequences = inr sequences /\
  shape1 (P := P) sequences = inr T.
Proof.
  intros Hc. pose proof (corpus_lengths T K sequences Hc) as Hlen.
  unfold np_array. rewrite (rectangular_same_length T) by done.
  split; [done |]. destruct Hc as (Hne & _ & _).
  destruct sequences as [| seq rest]; [done |].
  apply Forall_cons in Hlen as [Hs _]. simpl. by rewrite Hs.
Qed.

Lemma well_formed_logs S K h :
  well_formed S K h ->
  length (log_of_pi h) = S /\ shape2 S S (log_of_A h) /\ shape2 S K (log_of_B h).
Proof.
  intros (_ & Hpi & [HA1 HA2] & [HB1 HB2] & _).
  unfold log_of_pi, log_of_A, log_of_B, shape2.
  rewrite !List.length_map. repeat split; try done.
  - apply Forall_map. eapply Forall_impl; [exact HA2 |].
    intros row Hrow. simpl. by rewrite List.length_map.
  - apply Forall_map. eapply Forall_impl; [exact HB2 |].
    intros row Hrow. simpl. by rewrite List.length_map.
Qed.

(** The loop of [log_likelihood]: every pass adds the log-likelihood of
    its sequence and leaves a buffer of the same shape. *)
Lemma log_likelihood_loop S K T h sequences buf total :
  well_formed S K h -> 1 <= T ->
  Forall (fun seq => length seq = T) sequences -> shape2 S T buf ->
  exists buf',
    shape2 S T buf' /\
    forM sequences (fun seq '(log_alpha, total_log_likelihood) =>
        r <- HMM._forward seq log_alpha ;;
        ret (fst r, ladd total_log_likelihood (snd r))) (buf, total) h
    = (inr (buf',
            fold_left ladd
              (map (loglik_spec (log_of_pi h) (log_of_A h) (log_of_B h) S)
                   sequences) total),
       match sequences with [] => h | _ => warm h end).
Proof.
  intros Hwf HT Hlen. revert h buf total Hwf.
  induction Hlen as [| seq rest Hseq Hrest IH]; intros h buf total Hwf Hbuf.
  - exists buf. done.
  - destruct (well_formed_logs S K h Hwf) as (Hpi & [HA _] & [HB _]).
    pose proof Hwf as (_ & _ & _ & _ & Hc).
    destruct (forward_lattice (log_of_pi h) (log_of_A h) (log_of_B h)
                S T seq Hpi HA HB Hseq buf Hbuf HT) as (Hsh & _ & Hll).
    destruct (IH (warm h)
                (fst (_forward seq (log_of_pi h) (log_of_A h) (log_of_B h) buf))
                (ladd total (loglik_spec (log_of_pi h) (log_of_A h) (log_of_B h) S seq))
                (well_formed_warm S K h Hwf) Hsh) as (buf' & Hsh' & Hloop).
    exists buf'. split; [done |].
    simpl. unfold bind at 1. unfold bind at 1.
    rewrite (method_forward h seq buf Hc). unfold ret at 1.
    rewrite Hll.
    destruct (warm_logs h) as (E1 & E2 & E3).
    rewrite E1, E2, E3 in Hloop. rewrite Hloop. f_equal.
    destruct rest; [done |]. by apply warm_warm.
Qed.
End LikelihoodFacts.

Section MonadFacts.
Context {P St : Type}.

Lemma bind_ok {A B} (m : M P St A) (k : A -> M P St B) h a h' :
  m h = (inr a, h') -> bind m k h = k a h'.
Proof. intros Hm. unfold bind. by rewrite Hm. Qed.

Lemma bind_raise {A B} (m : M P St A) (k : A -> M P St B) h e h' :
  m h = (inl e, h') -> bind m k h = (inl e, h').
Proof. intros Hm. unfold bind. by rewrite Hm. Qed.

Lemma lift_ok {A} (r : res P A) a (h : St) : r = inr a -> lift r h = (inr a, h).
Proof. by intros ->. Qed.
End MonadFacts.

Section LogLikelihoodMethod.
Context {P L : Type} `{FL : Floats P L}.

(** [log_likelihood] adds the log-likelihoods of the sequences to 0 in
    corpus order. *)
Lemma log_likelihood_adds_sequences
    (S K T : nat) (h : HMM.self P L) (sequences : list (list nat)) :
  well_formed S K h -> corpus_ok T K sequences ->
  HMM.log_likelihood sequences h
  = (inr (fold_left ladd
            (map (loglik_spec (log_of_pi h) (log_of_A h) (log_of_B h) S)
                 sequences) l0),
     warm h).
Proof.
  intros Hwf Hc.
  pose proof (corpus_lengths T K sequences Hc) as Hlen.
  pose proof Hc as (Hne & HT & _).
  destruct (corpus_np_array (P := P) T K sequences Hc) as [Harr Hshape].
  unfold HMM.log_likelihood.
  rewrite (bind_ok _ _ h sequences h) by (by apply lift_ok).
  rewrite (bind_ok _ _ h T h) by (by apply lift_ok).
  rewrite (bind_ok _ _ h S h) by (unfold gets; by destruct Hwf as [-> _]).
  destruct (log_likelihood_loop S K T h sequences (full2 uninit S T) l0)
    as (buf' & _ & Hloop); [done | done | done | apply shape2_full2 |].
  rewrite (bind_ok _ _ _ _ _ Hloop). unfold ret. simpl.
  by destruct sequences.
Qed.
End LogLikelihoodMethod.

Section C1.
Context {P L : Type} `{FL : Floats P L}.

(** C1. On a model of consistent shapes and a non-empty rectangular
    corpus, [_forward] leaves in the S x T buffer, whatever it held, the
    lattice with [log_alpha[s,0] = log_pi[s] + log_B[s, seq[0]]] and
    [log_alpha[s,t] = logsumexp_j(log_alpha[j,t-1] + log_A[j,s]) +
    log_B[s, seq[t]]] for t = 1..T-1, and returns
    [logsumexp_s(log_alpha[s,T-1])]; [log_likelihood] returns the sum of
    these values over the corpus, added to 0 in corpus order. *)
Theorem forward_fills_lattice_and_log_likelihood_sums
    (S K T : nat) (h : HMM.self P L) (sequences : list (list nat)) :
  well_formed S K h -> corpus_ok T K sequences ->
  let log_pi := log_of_pi h in
  let log_A := log_of_A h in
  let log_B := log_of_B h in
  (forall seq buf, seq ∈ sequences -> shape2 S T buf ->
     let log_alpha := fst (_forward seq log_pi log_A log_B buf) in
     let returned := snd (_forward seq log_pi log_A log_B buf) in
     shape2 S T log_alpha /\
     (forall s, s < S ->
        lget2 log_alpha s 0
        = ladd (get1 uninit log_pi s) (lget2 log_B s (get1 0 seq 0))) /\
     (forall t s, 1 <= t < T -> s < S ->
        lget2 log_alpha s t
        = ladd (_logsumexp
                  (map (fun j => ladd (lget2 log_alpha j (t - 1))
                                      (lget2 log_A j s)) (List.seq 0 S)))
               (lget2 log_B s (get1 0 seq t))) /\
     returned
     = _logsumexp (map (fun s => lget2 log_alpha s (T - 1)) (List.seq 0 S)) /\
     returned = loglik_spec log_pi log_A log_B S seq) /\
  HMM.log_likelihood sequences h
  = (inr (fold_left ladd
            (map (loglik_spec log_pi log_A log_B S) sequences) l0),
     warm h).
Proof.
  intros Hwf Hc log_pi log_A log_B.
  destruct (well_formed_logs S K h Hwf) as (Hpi & [HA _] & [HB _]).
  pose proof (corpus_lengths T K sequences Hc) as Hlen.
  pose proof Hc as (Hne & HT & _).
  split.
  - intros seq buf Hin Hbuf log_alpha returned.
    rewrite Forall_forall in Hlen. pose proof (Hlen seq Hin) as Hseq.
    destruct (forward_lattice log_pi log_A log_B S T seq Hpi HA HB Hseq
                buf Hbuf HT) as (Hsh & Hcells & Hret).
    fold log_alpha in Hsh, Hcells. fold returned in Hret.
    split; [done |]. split; [| split; [| split; [| done]]].
    + intros s Hs. rewrite Hcells by lia. done.
    + intros t s Ht Hs. rewrite Hcells by lia.
      destruct t as [| t]; [lia |]. simpl. replace (t - 0) with t by lia.
      f_equal. unfold lse_states. f_equal. apply map_ext_in.
      intros j Hj. apply in_seq in Hj. rewrite Hcells by lia. done.
    + rewrite Hret. unfold loglik_spec, lse_states. rewrite Hseq. f_equal.
      apply map_ext_in. intros s Hs. apply in_seq in Hs.
      rewrite Hcells by lia. done.
  - by apply (log_likelihood_adds_sequences S K T).
Qed.
End C1.

(** ** The backward kernel *)

Section BackwardFacts.
Context {P L : Type} `{FL : Floats P L}.
Variables (log_pi : list L) (log_A log_B : list (list L)).
Variables (S T : nat) (seq : list nat).
Hypothesis Hpi : length log_pi = S.
Hypothesis HA : shape2 S S log_A.
Hypothesis HB : length log_B = S.
Hypothesis Hseq : length seq = T.

Local Abbreviation beta := (beta_spec log_A log_B S seq).

Lemma row_get2 (m : list (list L)) s :
  shape2 S S m -> s < S ->
  nth s m [] = map (fun j => lget2 m s j) (List.seq 0 S).
Proof.
  intros Hm Hs. unfold lget2, get2.
  pose proof (shape2_row S S m s Hm Hs) as Hlen.
  rewrite <- Hlen.
  rewrite <- (map_nth_seq (fun x => x) (nth s m []) uninit).
  by rewrite List.map_id.
Qed.

Lemma backward_column (m : list (list L)) t :
  shape2 S T m -> t + 1 < T ->
  let m' := for_range 0 S (backward_cell seq log_A log_B t) m in
  shape2 S T m' /\ agree_off uninit t m m' /\
  forall s, s < S ->
    lget2 m' s t
    = lse_states S (fun j =>
        ladd (ladd (lget2 log_A s j) (lget2 log_B j (get1 0 seq (t + 1))))
             (lget2 m j (t + 1))).
Proof.
  intros Hm Ht.
  pose (f := fun s (m' : list (list L)) =>
    _logsumexp
      (vladd (vladd (nth s log_A []) (lcol log_B (get1 0 seq (t + 1))))
             (lcol m' (t + 1)))).
  destruct (fill_column uninit f (backward_cell seq log_A log_B t) S T t S m)
    as (Hsh & Hag & Hcells); try done; try lia.
  - intros s m1 m2 Hag. unfold f, lcol.
    rewrite (agree_off_col uninit t m1 m2) by (done || lia). done.
  - simpl. split; [done |]. split; [done |].
    intros s Hs. unfold lget2 at 1. rewrite Hcells by done. unfold f.
    unfold lse_states. f_equal.
    rewrite (row_get2 log_A s HA Hs). unfold vladd, lcol.
    rewrite !col_get2, HB. destruct Hm as [-> _].
    rewrite zip_with_maps. by rewrite zip_with_maps.
Qed.

(** The kernel fills the lattice with the backward recurrence, whatever
    the buffer held before. *)
Lemma backward_lattice (buf : list (list L)) :
  shape2 S T buf -> 1 <= T -> 1 <= S ->
  shape2 S T (_backward seq log_pi log_A log_B buf) /\
  forall t s, t < T -> s < S ->
    lget2 (_backward seq log_pi log_A log_B buf) s t = beta t s.
Proof.
  intros Hbuf HT HS. unfold _backward. rewrite Hpi, Hseq.
  rewrite (ncols_shape2 S T) by (done || lia).
  set (m0 := fill_col buf (T - 1) (np_log p1)).
  set (body := fun t => for_range 0 S (fun s => backward_cell seq log_A log_B t s)).
  enough (shape2 S T (for_down (T - 1) body m0) /\
          forall t s, 0 <= t < T -> s < S ->
            lget2 (for_down (T - 1) body m0) s t = beta t s) as [H1 H2].
  { split; [done |]. intros t s Ht Hs. apply H2; lia. }
  apply (for_down_ind (fun k m =>
    shape2 S T m /\ forall t s, k <= t < T -> s < S -> lget2 m s t = beta t s)).
  - split; [by apply shape2_fill_col |].
    intros t s Ht Hs. assert (t = T - 1) as -> by lia.
    unfold m0, lget2. rewrite (get2_fill_col_eq uninit S T) by (done || lia).
    unfold beta_spec. rewrite Hseq. by replace (T - 1 - (T - 1)) with 0 by lia.
  - intros t m Ht [Hm Hdone].
    destruct (backward_column m t Hm ltac:(lia)) as (Hsh' & Hag & Hcol).
    split; [exact Hsh' |]. intros t' s Ht' Hs.
    destruct (decide (t' = t)) as [-> | Hne].
    + rewrite Hcol by done. unfold beta_spec. rewrite Hseq.
      replace (T - 1 - t) with (Datatypes.S (T - 1 - (t + 1))) by lia.
      simpl. rewrite Hseq. unfold lse_states. f_equal.
      apply map_ext_in. intros j Hj. apply in_seq in Hj.
      replace (T - 1 - (T - 1 - (t + 1))) with (t + 1) by lia.
      f_equal. rewrite Hdone by lia. unfold beta_spec. by rewrite Hseq.
    + destruct Hag as [_ Hag]. unfold lget2. rewrite <- Hag by done.
      apply Hdone; lia.
Qed.
End BackwardFacts.

Section BackwardMethod.
Context {P L : Type} `{FL : Floats P L}.

Lemma method_backward (h : HMM.self P L) seq buf :
  coherent h ->
  HMM._backward seq buf h
  = (inr (_backward seq (log_of_pi h) (log_of_A h) (log_of_B h) buf), warm h).
Proof.
  intros Hc. unfold HMM._backward.
  rewrite (bind_ok _ _ _ _ _ (read_log_pi h Hc)).
  pose proof (coherent_read_pi h Hc) as Hc1.
  rewrite (bind_ok _ _ _ _ _ (read_log_A _ Hc1)).
  pose proof (coherent_read_A _ Hc1) as Hc2.
  rewrite (bind_ok _ _ _ _ _ (read_log_B _ Hc2)).
  unfold ret, warm. do 2 f_equal.
  destruct h as [ip tr em ni nh no fpi cpi fA cA fB cB sc].
  destruct fpi as [[|]|], fA as [[|]|], fB as [[|]|]; reflexivity.
Qed.
End BackwardMethod.

(** ** Sums in log space *)

Section LogSums.
Context {P L : Type} `{FL : Floats P L} {LS : LogSemiring FL}.

Lemma lse2_medial (a b c e : L) :
  _logsumexp [_logsumexp [a; b]; _logsumexp [c; e]]
  = _logsumexp [_logsumexp [a; c]; _logsumexp [b; e]].
Proof.
  rewrite <- (lse2_assoc a b), (lse2_assoc b c e), (lse2_comm b c).
  rewrite <- (lse2_assoc c b e), (lse2_assoc a c). done.
Qed.

Lemma lse_map_ladd (c : L) {X} (f : X -> L) (l : list X) :
  _logsumexp (map (fun x => ladd c (f x)) l) = ladd c (_logsumexp (map f l)).
Proof.
  induction l as [| x l IH]; simpl.
  - by rewrite lse_nil, ladd_neg_inf.
  - rewrite (lse_cons (ladd c (f x))), IH, <- ladd_lse2.
    by rewrite <- (lse_cons (f x)).
Qed.

Lemma lse_map_lse2 {X} (f g : X -> L) (l : list X) :
  _logsumexp (map (fun x => _logsumexp [f x; g x]) l)
  = _logsumexp [_logsumexp (map f l); _logsumexp (map g l)].
Proof.
  induction l as [| x l IH]; simpl.
  - by rewrite !lse_nil, lse2_neg_inf.
  - rewrite (lse_cons (_logsumexp [f x; g x])), IH, lse2_medial.
    by rewrite <- (lse_cons (f x)), <- (lse_cons (g x)).
Qed.

Lemma lse_map_neg_inf {X} (l : list X) :
  _logsumexp (map (fun _ => neg_inf) l) = neg_inf.
Proof.
  induction l as [| x l IH]; simpl; [apply lse_nil |].
  by rewrite (lse_cons neg_inf), IH, lse2_neg_inf.
Qed.

(** The order of two nested sums may be exchanged. *)
Lemma lse_exchange {X Y} (f : X -> Y -> L) (l1 : list X) (l2 : list Y) :
  _logsumexp (map (fun i => _logsumexp (map (f i) l2)) l1)
  = _logsumexp (map (fun j => _logsumexp (map (fun i => f i j) l1)) l2).
Proof.
  induction l1 as [| i l1 IH]; simpl.
  - rewrite lse_nil. symmetry. apply lse_map_neg_inf.
  - rewrite (lse_cons (_logsumexp (map (f i) l2))), IH.
    rewrite <- lse_map_lse2. f_equal.
    apply map_ext. intros j. by rewrite <- (lse_cons (f i j)).
Qed.
End LogSums.

(** ** Forward times backward *)

Section ForwardBackward.
Context {P L : Type} `{FL : Floats P L} {LS : LogSemiring FL}.
Variables (log_pi : list L) (log_A log_B : list (list L)).
Variables (S : nat) (seq : list nat).

Local Abbreviation alpha := (alpha_spec log_pi log_A log_B S seq).
Local Abbreviation beta := (beta_spec log_A log_B S seq).

Lemma ladd_shuffle (a x y b : L) :
  ladd a (ladd (ladd x y) b) = ladd (ladd b y) (ladd a x).
Proof.
  rewrite <- (ladd_assoc x y b), (ladd_comm y b), (ladd_assoc a x).
  apply ladd_comm.
Qed.

Lemma ladd_shuffle' (b y z : L) : ladd (ladd b y) z = ladd (ladd z y) b.
Proof.
  rewrite (ladd_comm (ladd b y) z), (ladd_comm b y). apply ladd_assoc.
Qed.

Lemma alpha_beta_step t :
  t + 1 < length seq ->
  lse_states S (fun s => ladd (alpha t s) (beta t s))
  = lse_states S (fun s => ladd (alpha (t + 1) s) (beta (t + 1) s)).
Proof.
  intros Ht. unfold lse_states, beta_spec.
  replace (length seq - 1 - t) with (Datatypes.S (length seq - 1 - (t + 1))) by lia.
  set (k := length seq - 1 - (t + 1)).
  replace (t + 1) with (Datatypes.S t) by lia. simpl.
  replace (length seq - 1 - k) with (Datatypes.S t) by lia.
  unfold lse_states.
  transitivity (_logsumexp (map (fun s => _logsumexp (map (fun j =>
      ladd (ladd (beta_back log_A log_B S seq k j)
                 (lget2 log_B j (get1 0 seq (Datatypes.S t))))
           (ladd (alpha t s) (lget2 log_A s j))) (List.seq 0 S)))
    (List.seq 0 S))).
  - f_equal. apply map_ext. intros s.
    rewrite <- lse_map_ladd. f_equal. apply map_ext. intros j.
    apply ladd_shuffle.
  - rewrite lse_exchange. f_equal. apply map_ext. intros j.
    rewrite lse_map_ladd. apply ladd_shuffle'.
Qed.

(** For every [t], the log-sum-exp of [alpha + beta] over the states is
    the log-likelihood. *)
Lemma alpha_beta_loglik t :
  t < length seq ->
  lse_states S (fun s => ladd (alpha t s) (beta t s))
  = loglik_spec log_pi log_A log_B S seq.
Proof.
  intros Ht. remember (length seq - 1 - t) as k eqn:Hk.
  revert t Ht Hk. induction k as [| k IH]; intros t Ht Hk.
  - assert (t = length seq - 1) as -> by lia.
    unfold loglik_spec, lse_states, beta_spec. f_equal. apply map_ext.
    intros s. replace (length seq - 1 - (length seq - 1)) with 0 by lia.
    simpl. apply ladd_log1.
  - rewrite alpha_beta_step by lia. apply IH; lia.
Qed.
End ForwardBackward.

(** ** Exact arithmetic satisfies the laws *)

Section ExactFacts.
Local Open Scope Qc_scope.
Import Exact.

Lemma ltb_lt (x y : Qc) : ltb x y = true <-> x < y.
Proof. unfold ltb, Qclt, Qlt. apply Z.ltb_lt. Qed.

Lemma leb_le (x y : Qc) : leb x y = true <-> x <= y.
Proof.
  unfold leb. rewrite negb_true_iff, <- not_true_iff_false, ltb_lt.
  split; [apply Qcnot_lt_le | apply Qcle_not_lt].
Qed.

Lemma ltb_ge (x y : Qc) : ltb x y = false <-> y <= x.
Proof.
  rewrite <- leb_le. unfold leb. by rewrite negb_true_iff.
Qed.

Lemma W_eq (a b : W) : wval a = wval b -> a = b.
Proof.
  destruct a as [x Hx], b as [y Hy]. simpl. intros ->.
  f_equal. apply (proof_irrel Hx Hy).
Qed.

Lemma wval_nonneg (a : W) : 0 <= wval a.
Proof. apply leb_le, wpos. Qed.

Lemma wval_weight (q : Qc) : 0 <= q -> wval (weight q) = q.
Proof.
  intros Hq. unfold weight. destruct (Bool.bool_dec _ _) as [H | H]; [done |].
  by apply leb_le in Hq.
Qed.

Lemma weight_wval (a : W) : weight (wval a) = a.
Proof. apply W_eq, wval_weight, wval_nonneg. Qed.

Lemma mult_nonneg (x y : Qc) : 0 <= x -> 0 <= y -> 0 <= x * y.
Proof.
  intros Hx Hy. replace 0 with (0 * y) by ring.
  by apply Qcmult_le_compat_r.
Qed.

Lemma plus_nonneg (x y : Qc) : 0 <= x -> 0 <= y -> 0 <= x + y.
Proof.
  intros Hx Hy. replace 0 with (0 + 0) by ring.
  by apply Qcplus_le_compat.
Qed.

Lemma total_nonneg (l : list W) : 0 <= total (map wval l).
Proof.
  induction l as [| a l IH]; simpl; [apply Qcle_refl |].
  apply plus_nonneg; [apply wval_nonneg | exact IH].
Qed.

Ltac nonneg :=
  repeat first [ apply mult_nonneg | apply plus_nonneg | apply wval_nonneg
               | apply total_nonneg | apply Qcle_refl | done ].

Lemma exact_log_semiring : LogSemiring floats.
Proof.
  split; simpl; unfold wtotal; simpl; intros; apply W_eq;
    repeat rewrite wval_weight by nonneg; ring.
Qed.

Lemma exact_log_order : LogOrder floats.
Proof.
  split; unfold lle; simpl.
  - intros x y H. apply ltb_lt in H. apply ltb_ge. by apply Qclt_le_weak.
  - intros x y z H1 H2. apply ltb_ge in H1, H2. apply ltb_ge.
    by apply Qcle_trans with (wval y).
  - intros x y c H. apply ltb_ge in H. apply ltb_ge.
    rewrite !wval_weight by (apply mult_nonneg; apply wval_nonneg).
    apply Qcmult_le_compat_r; [done | apply wval_nonneg].
Qed.

Lemma exact_exp_laws : ExpLaws floats.
Proof.
  split; simpl.
  - reflexivity.
  - intros a b. apply wval_weight, mult_nonneg; apply wval_nonneg.
  - intros x. ring.
Qed.
End ExactFacts.

Section C2.
Context {P L : Type} `{FL : Floats P L}.

(** C2. In exact arithmetic, after [_forward] and [_backward] filled
    their lattices for a sequence, [logsumexp_s(log_alpha[s,t] +
    log_beta[s,t])] is, for every t in 0..T-1, the log-likelihood that
    [_forward] returned. *)
Theorem forward_backward_agree_at_every_t
    (S K T : nat) (h : HMM.self P L) (seq : list nat)
    (buf_alpha buf_beta : list (list L)) :
  LogSemiring FL ->
  well_formed S K h -> 1 <= S ->
  length seq = T -> 1 <= T -> Forall (fun o => o < K) seq ->
  shape2 S T buf_alpha -> shape2 S T buf_beta ->
  let log_alpha :=
    fst (_forward seq (log_of_pi h) (log_of_A h) (log_of_B h) buf_alpha) in
  let returned :=
    snd (_forward seq (log_of_pi h) (log_of_A h) (log_of_B h) buf_alpha) in
  let log_beta :=
    _backward seq (log_of_pi h) (log_of_A h) (log_of_B h) buf_beta in
  HMM._forward seq buf_alpha h = (inr (log_alpha, returned), warm h) /\
  HMM._backward seq buf_beta (warm h) = (inr log_beta, warm h) /\
  forall t, t < T ->
    _logsumexp (vladd (lcol log_alpha t) (lcol log_beta t)) = returned.
Proof.
  intros LS Hwf HS Hseq HT Hsym Ha Hb log_alpha returned log_beta.
  destruct (well_formed_logs S K h Hwf) as (Hpi & HA & [HB _]).
  pose proof Hwf as (_ & _ & _ & _ & Hc).
  destruct (forward_lattice (log_of_pi h) (log_of_A h) (log_of_B h)
              S T seq Hpi (proj1 HA) HB Hseq buf_alpha Ha HT)
    as (Hsha & Hcella & Hret).
  destruct (backward_lattice (log_of_pi h) (log_of_A h) (log_of_B h)
              S T seq Hpi HA HB Hseq buf_beta Hb HT HS)
    as (Hshb & Hcellb).
  fold log_alpha in Hsha, Hcella. fold returned in Hret.
  fold log_beta in Hshb, Hcellb.
  split; [| split].
  - rewrite (method_forward h seq buf_alpha Hc). unfold log_alpha, returned.
    by destruct (_forward _ _ _ _ _).
  - rewrite (method_backward (warm h) seq buf_beta (coherent_warm h Hc)).
    destruct (warm_logs h) as (-> & -> & ->). by rewrite (warm_warm h Hc).
  - intros t Ht. rewrite Hret.
    rewrite <- (alpha_beta_loglik (log_of_pi h) (log_of_A h) (log_of_B h)
                  S seq t) by lia.
    rewrite (vladd_cols S) by (by destruct Hsha, Hshb).
    unfold lse_states. f_equal. apply map_ext_in. intros s Hs.
    apply in_seq in Hs. rewrite Hcella, Hcellb by lia. done.
Qed.
End C2.

Lemma toy_model_well_formed n : well_formed 2 3 (Exact.toy_model n).
Proof.
  unfold well_formed, shape2, coherent, cache_ok. simpl.
  repeat split; try done; repeat constructor.
Qed.

Lemma forward_backward_agree_at_every_t_witness :
  _logsumexp
    (vladd
       (lcol (fst (_forward Exact.toy_seq (log_of_pi (Exact.toy_model 10))
                     (log_of_A (Exact.toy_model 10))
                     (log_of_B (Exact.toy_model 10)) (full2 uninit 2 8))) 3)
       (lcol (_backward Exact.toy_seq (log_of_pi (Exact.toy_model 10))
                (log_of_A (Exact.toy_model 10))
                (log_of_B (Exact.toy_model 10)) (full2 uninit 2 8)) 3))
  = snd (_forward Exact.toy_seq (log_of_pi (Exact.toy_model 10))
           (log_of_A (Exact.toy_model 10))
           (log_of_B (Exact.toy_model 10)) (full2 uninit 2 8)).
Proof.
  refine (proj2 (proj2 (forward_backward_agree_at_every_t 2 3 8
            (Exact.toy_model 10) Exact.toy_seq (full2 uninit 2 8)
            (full2 uninit 2 8) exact_log_semiring (toy_model_well_formed 10)
            _ _ _ _ _ _)) 3 _).
  - lia.
  - reflexivity.
  - lia.
  - repeat constructor.
  - apply shape2_full2.
  - apply shape2_full2.
  - lia.
Defined.

Lemma toy_corpus_ok : corpus_ok 8 3 [Exact.toy_seq].
Proof. split; [done |]. split; [lia |]. repeat constructor. Qed.

Lemma forward_fills_lattice_and_log_likelihood_sums_witness :
  HMM.log_likelihood [Exact.toy_seq] (Exact.toy_model 10)
  = (inr (fold_left ladd
            (map (loglik_spec (log_of_pi (Exact.toy_model 10))
                    (log_of_A (Exact.toy_model 10))
                    (log_of_B (Exact.toy_model 10)) 2) [Exact.toy_seq]) l0),
     warm (Exact.toy_model 10)).
Proof.
  exact (proj2 (forward_fills_lattice_and_log_likelihood_sums 2 3 8
                  (Exact.toy_model 10) [Exact.toy_seq]
                  (toy_model_well_formed 10) toy_corpus_ok)).
Defined.

(** ** [np.argmax] *)

Section ArgmaxFacts.
Context {P L : Type} `{FL : Floats P L} {LO : LogOrder FL}.

Lemma lle_refl (x : L) : lle x x.
Proof.
  unfold lle. destruct (lltb x x) eqn:E; [| done].
  by rewrite (lltb_asym x x E) in E.
Qed.

Lemma lltb_lle (x y : L) : lltb x y = true -> lle x y.
Proof. apply lltb_asym. Qed.

Lemma lle_lltb_trans (x y z : L) : lle x y -> lltb y z = true -> lltb x z = true.
Proof.
  intros Hxy Hyz. destruct (lltb x z) eqn:E; [done |].
  assert (lle z y) as Hzy by (by apply (lle_trans z x y)).
  unfold lle in Hzy. congruence.
Qed.

Lemma argmax_from_first_max (pre a : list L) best bv :
  best < length pre -> get1 uninit pre best = bv ->
  (forall j, j < length pre -> lle (get1 uninit pre j) bv) ->
  (forall j, j < best -> lltb (get1 uninit pre j) bv = true) ->
  first_max (pre ++ a) (argmax_from lltb best bv (length pre) a).
Proof.
  revert pre best bv. induction a as [| x a IH]; intros pre best bv Hb Hbv Hle Hlt.
  - simpl. rewrite app_nil_r. subst bv. by repeat split.
  - simpl. replace (pre ++ x :: a) with ((pre ++ [x]) ++ a)
      by (by rewrite <- app_assoc).
    replace (Datatypes.S (length pre)) with (length (pre ++ [x]))
      by (rewrite length_app; simpl; lia).
    destruct (lltb bv x) eqn:E.
    + apply IH.
      * rewrite length_app. simpl. lia.
      * unfold get1. rewrite app_nth2 by lia. by rewrite Nat.sub_diag.
      * intros j Hj. rewrite length_app in Hj. simpl in Hj.
        unfold get1. destruct (decide (j = length pre)) as [-> | Hne].
        -- rewrite app_nth2 by lia. rewrite Nat.sub_diag. apply lle_refl.
        -- rewrite app_nth1 by lia.
           apply (lle_trans _ bv); [apply Hle; lia | by apply lltb_lle].
      * intros j Hj. unfold get1. rewrite app_nth1 by lia.
        apply (lle_lltb_trans _ bv); [apply Hle; lia | done].
    + apply IH.
      * rewrite length_app. simpl. lia.
      * unfold get1. rewrite app_nth1 by lia. done.
      * intros j Hj. rewrite length_app in Hj. simpl in Hj.
        unfold get1. destruct (decide (j = length pre)) as [-> | Hne].
        -- rewrite app_nth2 by lia. rewrite Nat.sub_diag. exact E.
        -- rewrite app_nth1 by lia. apply Hle. lia.
      * intros j Hj. unfold get1. rewrite app_nth1 by lia. by apply Hlt.
Qed.

(** On a non-empty vector [np.argmax] is the first index of a maximum. *)
Lemma argmax_first_max (a : list L) : a <> [] -> first_max a (argmax lltb a).
Proof.
  destruct a as [| x a]; [done |]. intros _.
  apply (argmax_from_first_max [x] a 0 x); simpl; try lia; try done.
  - intros j Hj. assert (j = 0) as -> by lia. apply lle_refl.
Qed.
End ArgmaxFacts.

(** ** The Viterbi kernel *)

Section ViterbiFacts.
Context {P L : Type} `{FL : Floats P L}.
Variables (log_pi : list L) (log_A log_B : list (list L)).
Variables (S T : nat) (seq : list nat).
Hypothesis Hpi : length log_pi = S.
Hypothesis HA : length log_A = S.
Hypothesis HB : length log_B = S.
Hypothesis Hseq : length seq = T.

Local Abbreviation V := (V_spec log_pi log_A log_B S seq).
Local Abbreviation back := (back_spec log_pi log_A log_B S seq).

Lemma viterbi_column (log_V : list (list L)) (bp : list (list nat)) t :
  shape2 S T log_V -> shape2 S T bp -> 1 <= t < T ->
  let st := for_range 0 S (viterbi_cell seq log_A log_B t) (log_V, bp) in
  let work := fun s => work_spec log_A S (fun j => lget2 log_V j (t - 1)) s in
  shape2 S T (fst st) /\ shape2 S T (snd st) /\
  agree_off uninit t log_V (fst st) /\ agree_off 0 t bp (snd st) /\
  forall s, s < S ->
    lget2 (fst st) s t
    = ladd (get1 uninit (work s) (argmax lltb (work s)))
           (lget2 log_B s (get1 0 seq t)) /\
    get2 0 (snd st) s t = argmax lltb (work s).
Proof.
  intros HV Hbp Ht. simpl.
  enough (S <= S ->
    shape2 S T (fst (for_range 0 S (viterbi_cell seq log_A log_B t) (log_V, bp))) /\
    shape2 S T (snd (for_range 0 S (viterbi_cell seq log_A log_B t) (log_V, bp))) /\
    agree_off uninit t log_V
      (fst (for_range 0 S (viterbi_cell seq log_A log_B t) (log_V, bp))) /\
    agree_off 0 t bp
      (snd (for_range 0 S (viterbi_cell seq log_A log_B t) (log_V, bp))) /\
    forall s, s < S ->
      lget2 (fst (for_range 0 S (viterbi_cell seq log_A log_B t) (log_V, bp))) s t
      = ladd (get1 uninit (work_spec log_A S (fun j => lget2 log_V j (t - 1)) s)
                (argmax lltb (work_spec log_A S (fun j => lget2 log_V j (t - 1)) s)))
             (lget2 log_B s (get1 0 seq t)) /\
      get2 0 (snd (for_range 0 S (viterbi_cell seq log_A log_B t) (log_V, bp))) s t
      = argmax lltb (work_spec log_A S (fun j => lget2 log_V j (t - 1)) s))
    as Hgoal by (apply Hgoal; lia).
  apply (for_range_ind (fun k st => k <= S ->
    shape2 S T (fst st) /\ shape2 S T (snd st) /\
    agree_off uninit t log_V (fst st) /\ agree_off 0 t bp (snd st) /\
    forall s, s < k ->
      lget2 (fst st) s t
      = ladd (get1 uninit (work_spec log_A S (fun j => lget2 log_V j (t - 1)) s)
                (argmax lltb (work_spec log_A S (fun j => lget2 log_V j (t - 1)) s)))
             (lget2 log_B s (get1 0 seq t)) /\
      get2 0 (snd st) s t
      = argmax lltb (work_spec log_A S (fun j => lget2 log_V j (t - 1)) s)));
    [lia | |].
  - intros _. simpl. repeat split; try done; try (by destruct HV);
      try (by destruct Hbp); lia.
  - intros k [V' bp'] Hk IH Hle.
    destruct IH as (HV' & Hbp' & HagV & Hagb & Hcells); [lia |].
    simpl in HV', Hbp', HagV, Hagb, Hcells. simpl.
    assert (vladd (lcol V' (t - 1)) (lcol log_A k)
            = work_spec log_A S (fun j => lget2 log_V j (t - 1)) k) as Hwork.
    { unfold lcol. rewrite <- (agree_off_col uninit t log_V V') by (done || lia).
      apply vladd_cols; [by destruct HV | done]. }
    rewrite Hwork.
    split; [by apply shape2_set2 |]. split; [by apply shape2_set2 |].
    split; [eapply agree_off_trans; [exact HagV | apply agree_off_set2] |].
    split; [eapply agree_off_trans; [exact Hagb | apply agree_off_set2] |].
    intros s Hs. destruct (decide (s = k)) as [-> | Hne].
    + unfold lget2. rewrite (get2_set2_eq uninit S T) by (done || lia).
      rewrite (get2_set2_eq 0 S T) by (done || lia). done.
    + unfold lget2. rewrite !get2_set2_ne by (left; done).
      apply Hcells. lia.
Qed.

(** The kernel fills [log_V] with the max recurrence and [back_path],
    from column 1 on, with the first best predecessors. *)
Lemma viterbi_lattice (buf : list (list L)) (bp : list (list nat)) :
  shape2 S T buf -> shape2 S T bp -> 1 <= T ->
  let st := _viterbi seq log_pi log_A log_B buf bp in
  shape2 S T (fst st) /\ shape2 S T (snd st) /\
  (forall t s, t < T -> s < S -> lget2 (fst st) s t = V t s) /\
  (forall t s, 1 <= t < T -> s < S -> get2 0 (snd st) s t = back t s).
Proof.
  intros Hbuf Hbp HT. simpl. unfold _viterbi. rewrite Hpi, Hseq.
  destruct (forward_init log_pi log_A log_B S T seq Hpi HA HB Hseq buf Hbuf HT) as [Hsh0 Hc0].
  set (m0 := set_col buf 0 _) in *.
  set (body := fun t => for_range 0 S (fun s => viterbi_cell seq log_A log_B t s)).
  apply (for_range_ind (fun k st =>
    shape2 S T (fst st) /\ shape2 S T (snd st) /\
    (forall t s, t < k -> s < S -> lget2 (fst st) s t = V t s) /\
    (forall t s, 1 <= t < k -> s < S -> get2 0 (snd st) s t = back t s)));
    [lia | |].
  - simpl. split; [done |]. split; [done |]. split; [| lia].
    intros t s Ht Hs. assert (t = 0) as -> by lia. by apply Hc0.
  - intros t [V' bp'] Ht (HV' & Hbp' & HdoneV & Hdoneb).
    cbn [fst snd] in HV', Hbp', HdoneV, Hdoneb.
    destruct (viterbi_column V' bp' t HV' Hbp' ltac:(lia))
      as (HshV & Hshb & HagV & Hagb & Hcells).
    assert (forall s, work_spec log_A S (fun j => lget2 V' j (t - 1)) s
                      = work_spec log_A S (V (t - 1)) s) as Hwork.
    { intros s. unfold work_spec. apply map_ext_in. intros j Hj.
      apply in_seq in Hj. rewrite HdoneV by lia. done. }
    split; [exact HshV |]. split; [exact Hshb |]. split.
    + intros t' s Ht' Hs. destruct (decide (t' = t)) as [-> | Hne].
      * etransitivity; [exact (proj1 (Hcells s Hs)) |]. rewrite Hwork.
        destruct t as [| t]; [lia |]. simpl.
        by replace (t - 0) with t by lia.
      * destruct HagV as [_ HagV].
        etransitivity; [symmetry; apply (HagV s t' Hne) |].
        apply HdoneV; lia.
    + intros t' s Ht' Hs. destruct (decide (t' = t)) as [-> | Hne].
      * etransitivity; [exact (proj2 (Hcells s Hs)) |]. by rewrite Hwork.
      * destruct Hagb as [_ Hagb].
        etransitivity; [symmetry; apply (Hagb s t' Hne) |].
        apply Hdoneb; lia.
Qed.
End ViterbiFacts.

(** ** Walking the back links *)

Section ArgmaxRange.
Context {X : Type} (ltb : X -> X -> bool).

Lemma argmax_from_lt (a : list X) best bv i :
  best < i -> argmax_from ltb best bv i a < i + length a.
Proof.
  revert best bv i. induction a as [| x a IH]; intros best bv i Hb; simpl.
  - lia.
  - destruct (ltb bv x).
    + specialize (IH i x (Datatypes.S i)). lia.
    + specialize (IH best bv (Datatypes.S i)). lia.
Qed.

Lemma argmax_lt (a : list X) : a <> [] -> argmax ltb a < length a.
Proof.
  destruct a as [| x a]; [done |]. intros _. simpl.
  pose proof (argmax_from_lt a 0 x 1). lia.
Qed.
End ArgmaxRange.

Section SeqFacts.
Lemma nth_map_seq {Y} (f : nat -> Y) n i (y : Y) :
  i < n -> nth i (map f (List.seq 0 n)) y = f i.
Proof.
  intros Hi. rewrite (nth_indep _ y (f 0)) by (by rewrite List.length_map, length_seq).
  rewrite (map_nth f). by rewrite seq_nth.
Qed.

Lemma seq_nonempty n : 1 <= n -> List.seq 0 n <> [].
Proof. destruct n; [lia | done]. Qed.

End SeqFacts.

Section Backtrack.
Context {P L : Type} `{FL : Floats P L}.
Variables (log_pi : list L) (log_A log_B : list (list L)).
Variables (S T : nat) (seq : list nat).
Hypothesis Hseq : length seq = T.
Hypothesis HS : 1 <= S.
Hypothesis HT : 1 <= T.

Local Abbreviation V := (V_spec log_pi log_A log_B S seq).
Local Abbreviation back := (back_spec log_pi log_A log_B S seq).
Local Abbreviation walk := (walk_back log_pi log_A log_B S seq).
Local Abbreviation best := (viterbi_path log_pi log_A log_B S seq).

Lemma back_lt t s : back t s < S.
Proof.
  unfold back_spec, work_spec.
  pose proof (argmax_lt lltb
    (map (fun j => ladd (V (t - 1) j) (lget2 log_A j s)) (List.seq 0 S))) as H.
  rewrite List.length_map, length_seq in H. apply H.
  intros Hnil. apply map_eq_nil in Hnil. by apply (seq_nonempty S).
Qed.

Lemma walk_lt k : walk k < S.
Proof.
  destruct k as [| k]; simpl; [| apply back_lt].
  pose proof (argmax_lt lltb (map (V (length seq - 1)) (List.seq 0 S))) as H.
  rewrite List.length_map, length_seq in H. apply H.
  intros Hnil. apply map_eq_nil in Hnil. by apply (seq_nonempty S).
Qed.

Lemma length_best : length best = T.
Proof. unfold viterbi_path. by rewrite List.length_map, length_seq. Qed.

Lemma nth_best t : t < T -> get1 0 best t = walk (T - 1 - t).
Proof.
  intros Ht. unfold get1, viterbi_path. rewrite Hseq.
  exact (nth_map_seq (fun t0 => walk (T - 1 - t0)) T t 0 Ht).
Qed.

Lemma best_is_state_path : state_path S seq best.
Proof.
  split; [by rewrite length_best |]. unfold viterbi_path.
  apply Forall_map, Forall_forall. intros t _. apply walk_lt.
Qed.

(** The links of the decoded path. *)
Lemma best_link t : 1 <= t < T -> get1 0 best (t - 1) = back t (get1 0 best t).
Proof.
  intros Ht. rewrite !nth_best by lia.
  replace (T - 1 - (t - 1)) with (Datatypes.S (T - 1 - t)) by lia.
  simpl. rewrite Hseq. f_equal. lia.
Qed.

(** [_get_best_path] writes the walk from the best final state. *)
Lemma get_best_path_walk (log_V : list (list L)) (bp : list (list nat))
    (best_path : list nat) :
  shape2 S T log_V -> shape2 S T bp -> length best_path = T ->
  (forall s, s < S -> lget2 log_V s (T - 1) = V (T - 1) s) ->
  (forall t s, 1 <= t < T -> s < S -> get2 0 bp s t = back t s) ->
  _get_best_path log_V bp best_path = best.
Proof.
  intros HV Hbp Hlen HcV Hcb. unfold _get_best_path.
  rewrite (ncols_shape2 S T bp) by (done || lia).
  assert (argmax lltb (col_last uninit log_V) = walk 0) as ->.
  { simpl. f_equal. unfold col_last. rewrite col_get2.
    rewrite (ncols_shape2 S T) by (done || lia).
    destruct HV as [-> _]. rewrite Hseq. apply map_ext_in.
    intros s Hs. apply in_seq in Hs. apply HcV. lia. }
  set (st := for_down T _ _).
  assert (length (snd st) = T /\
          (1 <= 0 -> fst st = walk (T - 0)) /\
          forall t, 0 <= t < T -> get1 0 (snd st) t = walk (T - 1 - t))
    as (Hl & _ & Hc).
  { unfold st. apply (for_down_ind (fun k st =>
      length (snd st) = T /\
      (1 <= k -> fst st = walk (T - k)) /\
      forall t, k <= t < T -> get1 0 (snd st) t = walk (T - 1 - t))).
    - simpl. split; [done |]. split; [| lia].
      intros _. by rewrite Nat.sub_diag.
    - intros t [s p] Ht (Hl & Hs & Hc). cbn [fst snd] in *.
      specialize (Hs ltac:(lia)). subst s.
      split; [by rewrite length_insert |]. split.
      + intros Ht1.
        replace (T - Datatypes.S t) with (T - 1 - t) by lia.
        rewrite Hcb by (lia || apply walk_lt).
        replace (T - t) with (Datatypes.S (T - 1 - t)) by lia.
        simpl. rewrite Hseq. f_equal. lia.
      + intros t' Ht'. unfold get1. destruct (decide (t' = t)) as [-> | Hne].
        * rewrite nth_insert_eq by lia. f_equal. lia.
        * rewrite nth_insert_ne by done. apply Hc. lia. }
  apply nth_ext with (d := 0) (d' := 0).
  - by rewrite Hl, length_best.
  - intros t Ht. rewrite Hl in Ht. fold (get1 0 best t).
    rewrite nth_best by done. apply Hc. lia.
Qed.
End Backtrack.

(** ** The decoded path is the best one *)

Section Optimality.
Context {P L : Type} `{FL : Floats P L} {LO : LogOrder FL}.
Variables (log_pi : list L) (log_A log_B : list (list L)).
Variables (S T : nat) (seq : list nat).
Hypothesis Hseq : length seq = T.
Hypothesis HS : 1 <= S.
Hypothesis HT : 1 <= T.

Local Abbreviation V := (V_spec log_pi log_A log_B S seq).
Local Abbreviation back := (back_spec log_pi log_A log_B S seq).
Local Abbreviation best := (viterbi_path log_pi log_A log_B S seq).
Local Abbreviation score := (path_score log_pi log_A log_B seq).
Local Abbreviation work := (work_spec log_A S).

Lemma length_work prev s : length (work prev s) = S.
Proof. unfold work_spec. by rewrite List.length_map, length_seq. Qed.

Lemma nth_work prev s j :
  j < S -> get1 uninit (work prev s) j = ladd (prev j) (lget2 log_A j s).
Proof.
  intros Hj. unfold get1, work_spec.
  exact (nth_map_seq (fun j0 => ladd (prev j0) (lget2 log_A j0 s)) S j uninit Hj).
Qed.

Lemma work_first_max prev s : first_max (work prev s) (argmax lltb (work prev s)).
Proof.
  apply argmax_first_max. intros Hnil.
  apply (f_equal length) in Hnil. rewrite length_work in Hnil. simpl in Hnil. lia.
Qed.

(** No path scores more than the lattice cell of its last state. *)
Lemma score_le_V path t :
  Forall (fun s => s < S) path -> t < length path ->
  lle (score path t) (V t (get1 0 path t)).
Proof.
  intros Hpath. induction t as [| t IH]; intros Ht; simpl; [apply lle_refl |].
  apply ladd_mono.
  assert (get1 0 path t < S) as Hs.
  { rewrite Forall_forall in Hpath. apply Hpath.
    apply list_elem_of_In, nth_In. lia. }
  apply (lle_trans _ (ladd (V t (get1 0 path t))
                        (lget2 log_A (get1 0 path t) (get1 0 path (Datatypes.S t))))).
  - apply ladd_mono, IH. lia.
  - rewrite <- (nth_work (V t)) by done.
    destruct (work_first_max (V t) (get1 0 path (Datatypes.S t))) as (_ & Hmax & _).
    apply Hmax. by rewrite length_work.
Qed.

(** The decoded path scores exactly the lattice cell of its last state. *)
Lemma score_best t : t < T -> score best t = V t (get1 0 best t).
Proof.
  induction t as [| t IH]; intros Ht; simpl; [done |].
  rewrite IH by lia. f_equal.
  pose proof (best_link log_pi log_A log_B S T seq Hseq HS HT (Datatypes.S t)
                ltac:(lia)) as Hlink.
  replace (Datatypes.S t - 1) with t in Hlink by lia.
  rewrite Hlink at 1 2. unfold back_spec at 1 2.
  replace (Datatypes.S t - 1) with t by lia.
  rewrite nth_work; [done |].
  pose proof (back_lt log_pi log_A log_B S seq HS (Datatypes.S t)
                (get1 0 best (Datatypes.S t))) as Hlt.
  unfold back_spec in Hlt. by replace (Datatypes.S t - 1) with t in Hlt by lia.
Qed.

Lemma best_last_first_max :
  first_max (map (V (T - 1)) (List.seq 0 S)) (get1 0 best (T - 1)).
Proof.
  rewrite (nth_best log_pi log_A log_B S T seq Hseq) by lia.
  replace (T - 1 - (T - 1)) with 0 by lia. simpl. rewrite Hseq.
  apply argmax_first_max. intros Hnil. apply map_eq_nil in Hnil.
  by apply (seq_nonempty S).
Qed.

Lemma best_is_optimal path :
  state_path S seq path ->
  lle (joint_log_prob log_pi log_A log_B seq path)
      (joint_log_prob log_pi log_A log_B seq best).
Proof.
  intros [Hlen Hpath]. unfold joint_log_prob. rewrite Hseq.
  rewrite score_best by lia.
  apply (lle_trans _ (V (T - 1) (get1 0 path (T - 1)))).
  - apply score_le_V; [done | lia].
  - destruct best_last_first_max as (_ & Hmax & _).
    assert (get1 0 path (T - 1) < S) as Hs.
    { rewrite Forall_forall in Hpath. apply Hpath.
      apply list_elem_of_In, nth_In. lia. }
    specialize (Hmax (get1 0 path (T - 1))).
    rewrite List.length_map, length_seq in Hmax. specialize (Hmax Hs).
    unfold get1 in Hmax at 1 3. rewrite !nth_map_seq in Hmax; try done.
    pose proof (best_is_state_path log_pi log_A log_B S T seq Hseq HS)
      as [_ Hb].
    rewrite Forall_forall in Hb. apply Hb.
    apply list_elem_of_In, nth_In.
    rewrite (length_best log_pi log_A log_B S T seq Hseq). lia.
Qed.
End Optimality.

(** ** [decode] *)

Section Decode.
Context {P L : Type} `{FL : Floats P L}.
Implicit Types h : HMM.self P L.

Lemma method_viterbi h seq log_V back_path :
  coherent h ->
  HMM._viterbi seq log_V back_path h
  = (inr (_viterbi seq (log_of_pi h) (log_of_A h) (log_of_B h) log_V back_path),
     warm h).
Proof.
  intros Hc. unfold HMM._viterbi.
  rewrite (bind_ok _ _ _ _ _ (read_log_pi h Hc)).
  pose proof (coherent_read_pi h Hc) as Hc1.
  rewrite (bind_ok _ _ _ _ _ (read_log_A _ Hc1)).
  pose proof (coherent_read_A _ Hc1) as Hc2.
  rewrite (bind_ok _ _ _ _ _ (read_log_B _ Hc2)).
  unfold ret, warm. do 2 f_equal.
  destruct h as [ip tr em ni nh no fpi cpi fA cA fB cB sc].
  destruct fpi as [[|]|], fA as [[|]|], fB as [[|]|]; reflexivity.
Qed.

(** The loop of [decode]: every pass appends the decoded path of its
    sequence and leaves buffers of the same shape. *)
Lemma decode_loop S K T h sequences log_V back_path out :
  well_formed S K h -> 1 <= S -> 1 <= T ->
  Forall (fun seq => length seq = T) sequences ->
  shape2 S T log_V -> shape2 S T back_path ->
  exists log_V' back_path',
    forM sequences (fun seq '(log_V, back_path, out) =>
        r <- HMM._viterbi seq log_V back_path ;;
        let '(log_V, back_path) := r in
        let best_path := repeat uninit_int T in
        let best_path := _get_best_path log_V back_path best_path in
        ret (log_V, back_path, out ++ [best_path]))
      (log_V, back_path, out) h
    = (inr (log_V', back_path',
            out ++ map (viterbi_path (log_of_pi h) (log_of_A h) (log_of_B h) S)
                       sequences),
       match sequences with [] => h | _ => warm h end).
Proof.
  intros Hwf HS HT Hlen. revert h log_V back_path out Hwf.
  induction Hlen as [| seq rest Hseq Hrest IH];
    intros h log_V back_path out Hwf HV Hbp.
  - exists log_V, back_path. simpl. by rewrite app_nil_r.
  - destruct (well_formed_logs S K h Hwf) as (Hpi & [HA _] & [HB _]).
    pose proof Hwf as (_ & _ & _ & _ & Hc).
    destruct (viterbi_lattice (log_of_pi h) (log_of_A h) (log_of_B h)
                S T seq Hpi HA HB Hseq log_V back_path HV Hbp HT)
      as (HV' & Hbp' & HcV & Hcb).
    destruct (_viterbi seq (log_of_pi h) (log_of_A h) (log_of_B h)
                log_V back_path) as [V1 bp1] eqn:Hker.
    cbn [fst snd] in HV', Hbp', HcV, Hcb.
    destruct (IH (warm h) V1 bp1
                (out ++ [viterbi_path (log_of_pi h) (log_of_A h) (log_of_B h) S seq])
                (well_formed_warm S K h Hwf) HV' Hbp')
      as (V2 & bp2 & Hloop).
    exists V2, bp2.
    cbn [forM]. unfold bind at 1.
    unfold bind at 1. rewrite (method_viterbi h seq log_V back_path Hc), Hker.
    unfold ret at 1.
    assert (forall s, s < S ->
              lget2 V1 s (T - 1)
              = V_spec (log_of_pi h) (log_of_A h) (log_of_B h) S seq (T - 1) s)
      as Hlast by (intros s Hs; apply HcV; lia).
    rewrite (get_best_path_walk (log_of_pi h) (log_of_A h) (log_of_B h)
               S T seq Hseq HS HT V1 bp1 (repeat uninit_int T) HV' Hbp'
               (repeat_length _ _) Hlast Hcb).
    destruct (warm_logs h) as (E1 & E2 & E3).
    rewrite E1, E2, E3 in Hloop.
    etransitivity; [exact Hloop |].
    rewrite <- app_assoc. simpl. f_equal.
    destruct rest; [done |]. by apply warm_warm.
Qed.
End Decode.

Section C3.
Context {P L : Type} `{FL : Floats P L}.

(** C3. With a comparison that is a total preorder and a monotone [+],
    [decode] returns for every sequence a path of length T over the S
    states whose joint log probability with the observations is maximal
    among all such paths; its last state is the first index at which
    the last column of [log_V] is maximal, and each earlier state is the
    first index at which [log_V[:, t-1] + log_A[:, s]] is maximal for the
    state [s] that follows it. *)
Theorem decode_returns_most_probable_path
    (S K T : nat) (h : HMM.self P L) (sequences : list (list nat)) :
  LogOrder FL ->
  well_formed S K h -> 1 <= S -> corpus_ok T K sequences ->
  let log_pi := log_of_pi h in
  let log_A := log_of_A h in
  let log_B := log_of_B h in
  HMM.decode sequences h
  = (inr (map (viterbi_path log_pi log_A log_B S) sequences), warm h) /\
  forall seq, seq ∈ sequences ->
    let path := viterbi_path log_pi log_A log_B S seq in
    length path = T /\ Forall (fun s => s < S) path /\
    (forall other, state_path S seq other ->
       lle (joint_log_prob log_pi log_A log_B seq other)
           (joint_log_prob log_pi log_A log_B seq path)) /\
    first_max (map (V_spec log_pi log_A log_B S seq (T - 1)) (List.seq 0 S))
              (get1 0 path (T - 1)) /\
    forall t, 1 <= t < T ->
      first_max (work_spec log_A S (V_spec log_pi log_A log_B S seq (t - 1))
                   (get1 0 path t))
                (get1 0 path (t - 1)).
Proof.
  intros LO Hwf HS Hc log_pi log_A log_B.
  pose proof (corpus_lengths T K sequences Hc) as Hlen.
  pose proof Hc as (Hne & HT & _).
  split.
  - destruct (corpus_np_array (P := P) T K sequences Hc) as [_ Hshape].
    unfold HMM.decode.
    rewrite (bind_ok _ _ h T h) by (by apply lift_ok).
    rewrite (bind_ok _ _ h S h) by (unfold gets; by destruct Hwf as [-> _]).
    destruct (decode_loop S K T h sequences (full2 uninit S T)
                (full2 uninit_int S T) [] Hwf HS HT Hlen)
      as (V' & bp' & Hloop); [apply shape2_full2 | apply shape2_full2 |].
    rewrite (bind_ok _ _ _ _ _ Hloop). unfold ret. simpl.
    by destruct sequences.
  - intros seq Hin path. rewrite Forall_forall in Hlen.
    pose proof (Hlen seq Hin) as Hseq.
    pose proof (best_is_state_path log_pi log_A log_B S T seq Hseq HS)
      as [Hl Hstates].
    split; [unfold path; congruence |]. split; [exact Hstates |].
    split; [| split].
    + intros other Hother.
      by apply (best_is_optimal log_pi log_A log_B S T seq Hseq HS HT).
    + by apply (best_last_first_max log_pi log_A log_B S T seq Hseq HS HT).
    + intros t Ht. unfold path.
      rewrite (best_link log_pi log_A log_B S T seq Hseq HS HT t Ht).
      unfold back_spec.
      apply (work_first_max log_A S T seq Hseq HS HT).
Qed.
End C3.

Lemma decode_returns_most_probable_path_witness :
  HMM.decode [Exact.toy_seq] (Exact.toy_model 10)
  = (inr (map (viterbi_path (log_of_pi (Exact.toy_model 10))
                 (log_of_A (Exact.toy_model 10))
                 (log_of_B (Exact.toy_model 10)) 2) [Exact.toy_seq]),
     warm (Exact.toy_model 10)).
Proof.
  exact (proj1 (decode_returns_most_probable_path 2 3 8 (Exact.toy_model 10)
                  [Exact.toy_seq] exact_log_order (toy_model_well_formed 10)
                  ltac:(lia) toy_corpus_ok)).
Defined.

(** ** The parameter store *)

Section Store.
Context {P L : Type} `{FL : Floats P L}.
Implicit Types h : HMM.self P L.

Lemma coherent_set_pi h v : coherent h -> coherent (snd (HMM.set_pi v h)).
Proof.
  intros (H1 & H2 & H3). destruct h. repeat split; try done.
Qed.

Lemma coherent_set_A h v : coherent h -> coherent (snd (HMM.set_A v h)).
Proof.
  intros (H1 & H2 & H3). destruct h. repeat split; try done.
Qed.

Lemma coherent_set_B h v : coherent h -> coherent (snd (HMM.set_B v h)).
Proof.
  intros (H1 & H2 & H3). destruct h. repeat split; try done.
Qed.

Lemma coherent_store_step h o : coherent h -> coherent (store_step h o).
Proof.
  intros Hc. destruct o; simpl.
  - by apply coherent_set_pi.
  - by apply coherent_set_A.
  - by apply coherent_set_B.
  - by apply coherent_read_pi.
  - by apply coherent_read_A.
  - by apply coherent_read_B.
Qed.

Lemma coherent_store_run ops h : coherent h -> coherent (store_run ops h).
Proof.
  revert h. induction ops as [| o ops IH]; intros h Hc; [done |].
  simpl. apply IH. by apply coherent_store_step.
Qed.

(** A new object has no flag and no cache. *)
Lemma init_fresh init_probas transitions emissions n_iter h :
  HMM.__init__ init_probas transitions emissions n_iter = inr h ->
  h = HMM.mk init_probas transitions emissions n_iter (length transitions)
        (HMM.n_observable_states h) None None None None None None None.
Proof.
  unfold HMM.__init__, np_array, res_bind. intros H.
  destruct (rectangular transitions); [| done].
  destruct (rectangular emissions); [| done].
  destruct (shape1 emissions) as [e | K]; [done |].
  destruct (shape1 transitions) as [e | c]; [done |].
  destruct (negb _); [done |].
  destruct (HMM._check_matrices_conditioning _); [done |].
  by injection H as <-.
Qed.

Lemma init_coherent init_probas transitions emissions n_iter h :
  HMM.__init__ init_probas transitions emissions n_iter = inr h -> coherent h.
Proof.
  intros H. rewrite (init_fresh _ _ _ _ _ H). by repeat split.
Qed.

Lemma never_cleared_step h o : never_cleared h -> never_cleared (store_step h o).
Proof.
  intros (H1 & H2 & H3).
  destruct h as [ip tr em ni nh no fpi cpi fA cA fB cB sc].
  destruct o; unfold never_cleared, store_step, HMM._log_pi, HMM._log_A,
    HMM._log_B; simpl in *;
    try (repeat split; done);
    [destruct (default true fpi) | destruct (default true fA)
     | destruct (default true fB)]; repeat split; done.
Qed.

Lemma never_cleared_run ops h : never_cleared h -> never_cleared (store_run ops h).
Proof.
  revert h. induction ops as [| o ops IH]; intros h Hc; [done |].
  simpl. apply IH. by apply never_cleared_step.
Qed.
End Store.

Section C9.
Context {P L : Type} `{FL : Floats P L}.

(** The part of C9 that holds. After any sequence of assignments to [pi],
    [A], [B] and reads of their logs on a constructed object: an
    assignment replaces its table and sets the flag of that table only; a
    read recomputes the log when its flag is absent or [True] and returns
    the cached value otherwise; either way the value read is the
    elementwise [np.log] of the current table, and (with [np.log 0 = -inf])
    a zero entry reads as [-inf]. *)
Lemma log_reads_follow_table_assignments
    (init_probas : list P) (transitions emissions : list (list P))
    (n_iter : nat) (h0 : HMM.self P L) (ops : list (store_op P)) :
  np_log p0 = neg_inf ->
  HMM.__init__ init_probas transitions emissions n_iter = inr h0 ->
  let h := store_run ops h0 in
  (forall value,
     HMM.set_pi value h
     = (inr tt,
        HMM.mk value (HMM.transitions h) (HMM.emissions h) (HMM.n_iter h)
          (HMM.n_hidden_states h) (HMM.n_observable_states h)
          (Some true) (HMM._HMM__log_pi h)
          (HMM._recompute_log_A h) (HMM._HMM__log_A h)
          (HMM._recompute_log_B h) (HMM._HMM__log_B h)
          (HMM._enable_sanity_checks h))) /\
  (forall value,
     HMM.set_A value h
     = (inr tt,
        HMM.mk (HMM.init_probas h) value (HMM.emissions h) (HMM.n_iter h)
          (HMM.n_hidden_states h) (HMM.n_observable_states h)
          (HMM._recompute_log_pi h) (HMM._HMM__log_pi h)
          (Some true) (HMM._HMM__log_A h)
          (HMM._recompute_log_B h) (HMM._HMM__log_B h)
          (HMM._enable_sanity_checks h))) /\
  (forall value,
     HMM.set_B value h
     = (inr tt,
        HMM.mk (HMM.init_probas h) (HMM.transitions h) value (HMM.n_iter h)
          (HMM.n_hidden_states h) (HMM.n_observable_states h)
          (HMM._recompute_log_pi h) (HMM._HMM__log_pi h)
          (HMM._recompute_log_A h) (HMM._HMM__log_A h)
          (Some true) (HMM._HMM__log_B h)
          (HMM._enable_sanity_checks h))) /\
  HMM._log_pi h
  = (if stale (HMM._recompute_log_pi h)
     then (inr (map np_log (HMM.pi h)),
           HMM.store_log_pi (map np_log (HMM.pi h)) h)
     else (HMM.attr (HMM._HMM__log_pi h), h)) /\
  HMM._log_A h
  = (if stale (HMM._recompute_log_A h)
     then (inr (map (map np_log) (HMM.A h)),
           HMM.store_log_A (map (map np_log) (HMM.A h)) h)
     else (HMM.attr (HMM._HMM__log_A h), h)) /\
  HMM._log_B h
  = (if stale (HMM._recompute_log_B h)
     then (inr (map (map np_log) (HMM.B h)),
           HMM.store_log_B (map (map np_log) (HMM.B h)) h)
     else (HMM.attr (HMM._HMM__log_B h), h)) /\
  fst (HMM._log_pi h) = inr (map np_log (HMM.pi h)) /\
  fst (HMM._log_A h) = inr (map (map np_log) (HMM.A h)) /\
  fst (HMM._log_B h) = inr (map (map np_log) (HMM.B h)) /\
  (forall i, HMM.pi h !! i = Some p0 ->
     map np_log (HMM.pi h) !! i = Some neg_inf) /\
  (forall i j row, HMM.A h !! i = Some row -> row !! j = Some p0 ->
     exists log_row, map (map np_log) (HMM.A h) !! i = Some log_row /\
                     log_row !! j = Some neg_inf) /\
  (forall i j row, HMM.B h !! i = Some row -> row !! j = Some p0 ->
     exists log_row, map (map np_log) (HMM.B h) !! i = Some log_row /\
                     log_row !! j = Some neg_inf).
Proof.
  intros Hlog0 Hinit h.
  assert (coherent h) as Hc
    by (apply coherent_store_run; eapply init_coherent; exact Hinit).
  assert (forall (row : list P) j, row !! j = Some p0 ->
            map np_log row !! j = Some neg_inf) as Hrow.
  { intros row j Hj. change (map np_log row) with (np_log <$> row).
    by rewrite list_lookup_fmap, Hj, <- Hlog0. }
  split; [done |]. split; [done |]. split; [done |].
  split; [unfold HMM._log_pi, stale; by destruct (default true _) |].
  split; [unfold HMM._log_A, stale; by destruct (default true _) |].
  split; [unfold HMM._log_B, stale; by destruct (default true _) |].
  split; [by rewrite (read_log_pi h Hc) |].
  split; [by rewrite (read_log_A h Hc) |].
  split; [by rewrite (read_log_B h Hc) |].
  split; [by apply Hrow |]. split.
  - intros i j row Hi Hj. exists (map np_log row). split; [| by apply Hrow].
    change (map (map np_log) (HMM.A h)) with (map np_log <$> HMM.A h).
    by rewrite list_lookup_fmap, Hi.
  - intros i j row Hi Hj. exists (map np_log row). split; [| by apply Hrow].
    change (map (map np_log) (HMM.B h)) with (map np_log <$> HMM.B h).
    by rewrite list_lookup_fmap, Hi.
Qed.

(** The part of C9 that fails. On a constructed object the flags are
    absent or [True] whatever was assigned or read since: every read
    recomputes, also when nothing was assigned since the last one. *)
Lemma every_read_recomputes
    (init_probas : list P) (transitions emissions : list (list P))
    (n_iter : nat) (h0 : HMM.self P L) (ops : list (store_op P)) :
  HMM.__init__ init_probas transitions emissions n_iter = inr h0 ->
  never_cleared (store_run ops h0).
Proof.
  intros Hinit. apply never_cleared_run.
  rewrite (init_fresh _ _ _ _ _ Hinit). by repeat split.
Qed.
End C9.

Lemma toy_model_constructed n :
  HMM.__init__ Exact.toy_pi Exact.toy_A Exact.toy_B n = inr (Exact.toy_model n).
Proof. vm_compute. reflexivity. Qed.

(** C9, what the code does. The getter never sets its flag to [False]:
    on the toy model, right after a first read of [_log_pi] has stored the
    log, with no assignment in between, the flag still asks for a
    recomputation and the second read computes and stores [np.log(pi)]
    again; the branch that returns the cached value is not taken. *)
Theorem second_read_recomputes_the_log :
  let h := Exact.toy_model 10 in
  let h1 := snd (HMM._log_pi h) in
  HMM._HMM__log_pi h1 = Some (map np_log Exact.toy_pi) /\
  HMM.pi h1 = Exact.toy_pi /\
  stale (HMM._recompute_log_pi h1) = true /\
  HMM._log_pi h1
  = (inr (map np_log Exact.toy_pi),
     HMM.store_log_pi (map np_log Exact.toy_pi) h1).
Proof. repeat split. Qed.

(** ** Construction and validation *)

Section Construction.
Context {P L : Type} `{FL : Floats P L}.

Lemma idx1_nth {X} (a : list X) i (d : X) :
  i < length a -> idx1 (P := P) a i = inr (nth i a d).
Proof.
  intros Hi. unfold idx1. destruct (lookup_lt_is_Some_2 a i Hi) as [x Hx].
  rewrite Hx. f_equal. by rewrite nth_lookup, Hx.
Qed.

Lemma check_offends (row : list P) (name : string) :
  _check_array_sums_to_1 row name
  = if offends (name, row) then inl (NotSummingTo1 name (psum row)) else inr tt.
Proof.
  unfold _check_array_sums_to_1, offends. simpl. by destruct (sums_to_1 _).
Qed.

Lemma check_rows_loop (A B : list (list P)) (states : list nat) :
  Forall (fun s => s < length A /\ s < length B) states ->
  forR states (fun s =>
    row <~ idx1 A s ;;
    _ <~ _check_array_sums_to_1 row ("Row " ++ str_of_nat s ++ " of A") ;;
    row <~ idx1 B s ;;
    _check_array_sums_to_1 row ("Row " ++ str_of_nat s ++ " of B"))
  = match List.find offends (concat (map (rows_of_state A B) states)) with
    | Some r => inl (NotSummingTo1 (fst r) (psum (snd r)))
    | None => inr tt
    end.
Proof.
  induction 1 as [| s states [HsA HsB] Hrest IH]; [done |].
  cbn [forR map concat]. unfold rows_of_state at 1. cbn [app List.find].
  rewrite (idx1_nth A s []) by done. rewrite (idx1_nth B s []) by done.
  cbn [res_bind]. rewrite !check_offends.
  destruct (offends (_, nth s A [])); [done |].
  cbn [res_bind]. destruct (offends (_, nth s B [])); [done |].
  exact IH.
Qed.

(** The validator reports the first distribution that does not sum to 1. *)
Lemma check_matrices_first_offender (h : HMM.self P L) :
  HMM.n_hidden_states h = length (HMM.A h) ->
  length (HMM.B h) = length (HMM.A h) ->
  HMM._check_matrices_conditioning h
  = match first_offender (HMM.pi h) (HMM.A h) (HMM.B h) with
    | Some r => inl (NotSummingTo1 (fst r) (psum (snd r)))
    | None => inr tt
    end.
Proof.
  intros HS HB. unfold HMM._check_matrices_conditioning, first_offender,
    labelled_rows. cbn [List.find]. rewrite check_offends.
  destruct (offends (_, HMM.pi h)); [done |]. cbn [res_bind].
  rewrite HS. apply check_rows_loop.
  apply Forall_forall. intros s Hs. apply list_elem_of_In, in_seq in Hs. lia.
Qed.

Lemma find_none_all_pass (pi : list P) (A B : list (list P)) :
  length B = length A ->
  first_offender pi A B = None ->
  sums_to_1 (psum pi) = true /\
  Forall (fun row => sums_to_1 (psum row) = true) A /\
  Forall (fun row => sums_to_1 (psum row) = true) B.
Proof.
  intros HB Hnone. unfold first_offender in Hnone.
  pose proof (find_none _ _ Hnone) as Hall.
  assert (forall r, In r (labelled_rows pi A B) -> sums_to_1 (psum (snd r)) = true)
    as Hpass.
  { intros r Hr. specialize (Hall r Hr). unfold offends in Hall.
    by apply negb_false_iff in Hall. }
  split; [apply (Hpass ("init_probas"%string, pi)); by left |].
  assert (forall s, s < length A ->
            In (("Row " ++ str_of_nat s ++ " of A")%string, nth s A [])
               (labelled_rows pi A B) /\
            In (("Row " ++ str_of_nat s ++ " of B")%string, nth s B [])
               (labelled_rows pi A B)) as Hin.
  { intros s Hs. unfold labelled_rows.
    split; right; apply in_concat; exists (rows_of_state A B s);
      (split; [apply in_map, in_seq; lia |]).
    - by left.
    - right. by left. }
  split; apply Forall_forall; intros row Hrow;
    apply list_elem_of_In, (In_nth _ _ []) in Hrow as (s & Hs & <-).
  - apply (Hpass (("Row " ++ str_of_nat s ++ " of A")%string, nth s A [])).
    by apply Hin.
  - apply (Hpass (("Row " ++ str_of_nat s ++ " of B")%string, nth s B [])).
    apply Hin. lia.
Qed.

Lemma shape1_ncols {X} (m : list (list X)) :
  m <> [] -> shape1 (P := P) m = inr (ncols m).
Proof. by destruct m. Qed.

Lemma rectangular_shape2 {X} (m : list (list X)) :
  rectangular m = true -> shape2 (length m) (ncols m) m.
Proof.
  intros Hm. split; [done |]. destruct m as [| r m]; [done |].
  simpl in Hm. unfold ncols. simpl. apply Forall_cons. split; [done |].
  apply Forall_forall. intros r' Hr'. rewrite forallb_forall in Hm.
  apply Nat.eqb_eq, Hm. by apply list_elem_of_In.
Qed.
End Construction.

Section C8.
Context {P L : Type} `{FL : Floats P L}.

(** C8, as amended. [HMM(pi, A, B, n_iter)] raises, and leaves the caller
    without an object, when the four counts of hidden states are not all
    equal and when some distribution does not sum to 1 within the
    tolerance; in the second case the error names the first such
    distribution in checking order and carries the sum found. The check
    is made at every construction. Otherwise the object is returned with
    the tables as given, consistent shapes and every distribution summing
    to 1 within the tolerance. The sign of the entries is not checked. *)
Theorem construction_checks_shapes_and_sums
    (pi : list P) (A B : list (list P)) (n_iter : nat) :
  (~ consistent_shapes pi A B ->
     exists e, HMM.__init__ (L := L) pi A B n_iter = inl e) /\
  (consistent_shapes pi A B ->
     (forall r, In r (labelled_rows pi A B) -> offends r = true ->
        exists e, HMM.__init__ (L := L) pi A B n_iter = inl e) /\
     match first_offender pi A B with
     | Some r =>
         HMM.__init__ (L := L) pi A B n_iter
         = inl (NotSummingTo1 (fst r) (psum (snd r))) /\
         In r (labelled_rows pi A B) /\
         sums_to_1 (psum (snd r)) = false
     | None =>
         let h := HMM.mk pi A B n_iter (length A) (ncols B)
                    None None None None None None None in
         HMM.__init__ pi A B n_iter = inr h /\
         well_formed (L := L) (length A) (ncols B) h /\
         rows_sum_to_1 h
     end).
Proof.
  assert (consistent_shapes pi A B ->
          HMM.__init__ (L := L) pi A B n_iter
          = match first_offender pi A B with
            | Some r => inl (NotSummingTo1 (fst r) (psum (snd r)))
            | None => inr (HMM.mk pi A B n_iter (length A) (ncols B)
                             None None None None None None None)
            end) as Hinit.
  { intros (HrA & HrB & HA & HB & Hpi & Hcols & HlenB).
    unfold HMM.__init__, np_array. rewrite HrA, HrB. cbn [res_bind].
    rewrite (shape1_ncols B HB), (shape1_ncols A HA). cbn [res_bind].
    rewrite Hcols, Hpi, HlenB, !Nat.eqb_refl. cbn [andb negb].
    rewrite <- Hpi.
    rewrite check_matrices_first_offender by (cbn; lia).
    cbn [HMM.pi HMM.A HMM.B HMM.init_probas HMM.transitions HMM.emissions].
    by destruct (first_offender pi A B). }
  split.
  - intros Hbad. unfold HMM.__init__, np_array.
    destruct (rectangular A) eqn:HrA; [| by eexists].
    destruct (rectangular B) eqn:HrB; [| by eexists]. cbn [res_bind].
    destruct B as [| rb B'] eqn:EB; [by eexists |].
    destruct A as [| ra A'] eqn:EA; [by eexists |].
    cbn [shape1 res_bind].
    destruct (negb _) eqn:Hcond; [by eexists |]. exfalso. apply Hbad.
    apply negb_false_iff in Hcond.
    apply andb_prop in Hcond as [Hcond H3]. apply andb_prop in Hcond as [H1 H2].
    apply Nat.eqb_eq in H1, H2, H3. unfold consistent_shapes, ncols.
    cbn [nth]. repeat split; try done; lia.
  - intros Hok. rewrite (Hinit Hok). split.
    + intros r Hr Hoff. unfold first_offender.
      destruct (List.find offends (labelled_rows pi A B)) as [r' |] eqn:Hfind;
        [by eexists |].
      pose proof (find_none _ _ Hfind r Hr). congruence.
    + destruct (first_offender pi A B) as [r |] eqn:Hfind.
      * unfold first_offender in Hfind. apply find_some in Hfind as [Hin Hoff].
        split; [done |]. split; [done |]. unfold offends in Hoff.
        by apply negb_true_iff in Hoff.
      * destruct Hok as (HrA & HrB & HA & HB & Hpi & Hcols & HlenB).
        split; [done |]. split.
        -- unfold well_formed. cbn.
           split; [done |]. split; [done |]. split.
           ++ rewrite <- Hcols at 2. by apply rectangular_shape2.
           ++ split; [| by repeat split].
              rewrite <- HlenB. by apply rectangular_shape2.
        -- by apply find_none_all_pass.
Qed.
End C8.

(** C8 as stated fails: a vector with an entry below zero that sums to 1
    is accepted, and the object holds it. *)
Lemma construction_accepts_entries_below_zero :
  HMM.__init__ Exact.signed_pi Exact.toy_A Exact.toy_B 10
  = inr (HMM.mk Exact.signed_pi Exact.toy_A Exact.toy_B 10 2 3
           None None None None None None None) /\
  ~ non_negative (HMM.mk (L := Exact.W) Exact.signed_pi Exact.toy_A Exact.toy_B
                    10 2 3 None None None None None None None).
Proof.
  split; [vm_compute; reflexivity |].
  intros (Hpi & _). cbn in Hpi.
  apply Forall_cons in Hpi as [_ Hpi]. apply Forall_cons in Hpi as [Hneg _].
  vm_compute in Hneg. discriminate.
Qed.

(** ** [likelihood] *)

Section C10.
Context {P L : Type} `{FL : Floats P L}.

Lemma np_exp_fold_ladd {EL : ExpLaws FL} (l : list L) (a : L) :
  np_exp (fold_left ladd l a) = fold_left pmul (map np_exp l) (np_exp a).
Proof.
  revert a. induction l as [| x l IH]; intros a; [done |].
  simpl. by rewrite IH, np_exp_ladd.
Qed.

(** C10. [likelihood] is [np.exp] of what [log_likelihood] returns, an
    exception of the latter passing through.  On a model of consistent
    shapes and a non-empty rectangular corpus it returns one number, the
    exponential of the sum of the log-likelihoods of the sequences, added
    in corpus order; where [np.exp] turns [+] into the product, this
    number is the product of the likelihoods of the sequences. *)
Theorem likelihood_is_exp_of_log_likelihood
    (S K T : nat) (h : HMM.self P L) (sequences : list (list nat)) :
  well_formed S K h -> corpus_ok T K sequences ->
  let per_sequence :=
    map (loglik_spec (log_of_pi h) (log_of_A h) (log_of_B h) S) sequences in
  let total := fold_left ladd per_sequence l0 in
  (HMM.likelihood sequences h
   = (match fst (HMM.log_likelihood sequences h) with
      | inr ll => inr (np_exp ll)
      | inl e => inl e
      end, snd (HMM.log_likelihood sequences h))) /\
  (HMM.log_likelihood sequences h = (inr total, warm h)) /\
  (HMM.likelihood sequences h = (inr (np_exp total), warm h)) /\
  (ExpLaws FL ->
   np_exp total = fold_left pmul (map np_exp per_sequence) p1).
Proof.
  intros Hwf Hc per_sequence total.
  assert (HMM.likelihood sequences h
          = (match fst (HMM.log_likelihood sequences h) with
             | inr ll => inr (np_exp ll)
             | inl e => inl e
             end, snd (HMM.log_likelihood sequences h))) as Hexp.
  { unfold HMM.likelihood, bind, ret.
    by destruct (HMM.log_likelihood sequences h) as [[e | ll] h']. }
  pose proof (log_likelihood_adds_sequences S K T h sequences Hwf Hc) as Hll.
  split; [exact Hexp |]. split; [exact Hll |]. split.
  - rewrite Hexp, Hll. done.
  - intros EL. unfold total. by rewrite np_exp_fold_ladd, np_exp_l0.
Qed.
End C10.

Lemma toy_two_corpus_ok : corpus_ok 3 3 [[0; 1; 2]; [2; 2; 0]].
Proof. split; [done |]. split; [lia |]. repeat constructor. Qed.

Lemma likelihood_is_exp_of_log_likelihood_witness :
  (HMM.likelihood [[0; 1; 2]; [2; 2; 0]] (Exact.toy_model 10)
   = (inr (np_exp
             (fold_left ladd
                (map (loglik_spec (log_of_pi (Exact.toy_model 10))
                        (log_of_A (Exact.toy_model 10))
                        (log_of_B (Exact.toy_model 10)) 2)
                   [[0; 1; 2]; [2; 2; 0]]) l0)),
      warm (Exact.toy_model 10))) /\
  np_exp
    (fold_left ladd
       (map (loglik_spec (log_of_pi (Exact.toy_model 10))
               (log_of_A (Exact.toy_model 10))
               (log_of_B (Exact.toy_model 10)) 2)
          [[0; 1; 2]; [2; 2; 0]]) l0)
  = fold_left pmul
      (map np_exp
         (map (loglik_spec (log_of_pi (Exact.toy_model 10))
                 (log_of_A (Exact.toy_model 10))
                 (log_of_B (Exact.toy_model 10)) 2)
            [[0; 1; 2]; [2; 2; 0]])) p1.
Proof.
  destruct (likelihood_is_exp_of_log_likelihood 2 3 3 (Exact.toy_model 10)
              [[0; 1; 2]; [2; 2; 0]] (toy_model_well_formed 10)
              toy_two_corpus_ok) as (_ & _ & Hexp & Hprod).
  split; [exact Hexp | exact (Hprod exact_exp_laws)].
Defined.

(** ** [sample] *)

Section C7.
Context {P L : Type} `{FL : Floats P L} `{RN : Random P}.

Lemma length_sample_one (n_obs : nat) (pi : list P) (A B : list (list P))
    (seed : nat) :
  length (_sample_one n_obs pi A B seed) = n_obs.
Proof.
  unfold _sample_one. destruct (_choice pi (nb_seed seed)) as [s g].
  set (body := fun (_ : nat) '(g, s, observations) => _).
  assert (length (snd (for_range 0 n_obs body (g, s, []))) = n_obs) as Hlen.
  { apply (for_range_ind (fun k st => length (snd st) = k)); [lia | done |].
    intros k [[g' s'] obs] Hk Hobs. unfold body. cbn [snd] in Hobs.
    destruct (_choice (nth s' B []) g') as [o g1].
    destruct (_choice (nth s' A []) g1) as [s2 g2]. cbn [snd].
    rewrite length_app. simpl. lia. }
  by destruct (for_range 0 n_obs body (g, s, [])) as [[g' s'] obs].
Qed.

(** C7, what the code does. [sample] returns one array: [n_seq] rows of
    [n_obs] observations each. The hidden states drawn on the way are not
    part of the result. *)
Theorem sample_returns_the_observations_only
    (h : HMM.self P L) (n_seq n_obs seed : nat) :
  length (HMM.sample h n_seq n_obs seed) = n_seq /\
  Forall (fun row => length row = n_obs) (HMM.sample h n_seq n_obs seed).
Proof.
  unfold HMM.sample.
  set (body := fun (_ : nat) '(rng, sequences) => _).
  apply (for_range_ind (fun k st =>
    length (snd st) = k /\ Forall (fun row => length row = n_obs) (snd st)));
    [lia | by split |].
  intros k [rng seqs] Hk [Hlen Hrows]. unfold body. cbn [snd] in Hlen, Hrows.
  destruct (randint _ rng) as [sub_seed rng']. cbn [snd]. split.
  - rewrite length_app. simpl. lia.
  - apply Forall_app. split; [done |]. apply Forall_cons. split; [| done].
    apply length_sample_one.
Qed.
End C7.

(** ** The number of EM iterations *)

(** C5, what the code does. The loop of [EM] runs [self.n_iter] times, the
    count given to the constructor; the argument [n_iter] of the call is
    not read. On the toy model constructed with [n_iter = 2], the call
    [EM([[0, 1]], n_iter=1)] returns without a value and leaves the initial
    vector of two iterations, not [37/173, 136/173], which one iteration
    gives. *)
Theorem EM_runs_the_constructor_count_not_the_argument :
  (forall (P L : Type) (FL : Floats P L) (sequences : list (list nat))
          (n_iter n_iter' : nat) (h : HMM.self P L),
     HMM.EM sequences n_iter h = HMM.EM sequences n_iter' h) /\
  fst (HMM.EM [[0; 1]] 1 (Exact.toy_model 2)) = inr tt /\
  map this (HMM.pi (snd (HMM.EM [[0; 1]] 1 (Exact.toy_model 1))))
  = [37 # 173; 136 # 173]%Q /\
  map this (HMM.pi (snd (HMM.EM [[0; 1]] 1 (Exact.toy_model 2))))
  <> [37 # 173; 136 # 173]%Q /\
  HMM.pi (snd (HMM.EM [[0; 1]] 1 (Exact.toy_model 0))) = Exact.toy_pi.
Proof.
  split; [reflexivity |].
  split; [vm_compute; reflexivity |].
  split; [vm_compute; reflexivity |].
  split; [| vm_compute; reflexivity].
  intros H. vm_compute in H. discriminate.
Qed.

(** ** Arrays given by their cells *)

Section Tabulate.
Context {X : Type} (d : X).

Lemma list_tabulate (a : list X) n (f : nat -> X) :
  length a = n -> (forall i, i < n -> nth i a d = f i) ->
  a = map f (List.seq 0 n).
Proof.
  intros Hlen Hcells. apply nth_ext with (d := d) (d' := d).
  - by rewrite List.length_map, length_seq.
  - intros i Hi. rewrite nth_map_seq by lia. apply Hcells. lia.
Qed.

Lemma rows_tabulate {Y} (m : list (list Y)) n (f : nat -> list Y) :
  length m = n -> (forall i, i < n -> nth i m [] = f i) ->
  m = map f (List.seq 0 n).
Proof.
  intros Hlen Hcells. apply nth_ext with (d := []) (d' := []).
  - by rewrite List.length_map, length_seq.
  - intros i Hi. rewrite nth_map_seq by lia. apply Hcells. lia.
Qed.

Lemma matrix_tabulate (m : list (list X)) r c (f : nat -> nat -> X) :
  shape2 r c m ->
  (forall i j, i < r -> j < c -> get2 d m i j = f i j) ->
  m = tabulate2 r c f.
Proof.
  intros Hm Hcells. unfold tabulate2. apply rows_tabulate; [by destruct Hm |].
  intros i Hi. apply list_tabulate; [by apply (shape2_row r c) |].
  intros j Hj. by apply Hcells.
Qed.

Lemma shape2_tabulate2 r c (f : nat -> nat -> X) : shape2 r c (tabulate2 r c f).
Proof.
  unfold tabulate2. split; [by rewrite List.length_map, length_seq |].
  apply Forall_map, Forall_forall. intros i _. simpl.
  by rewrite List.length_map, length_seq.
Qed.

Lemma get2_tabulate2 r c (f : nat -> nat -> X) i j :
  i < r -> j < c -> get2 d (tabulate2 r c f) i j = f i j.
Proof.
  intros Hi Hj. unfold get2, tabulate2.
  rewrite (nth_map_seq (fun i0 => map (fun j0 => f i0 j0) (List.seq 0 c))) by done.
  by rewrite (nth_map_seq (fun j0 => f i j0)).
Qed.

Lemma shape3_slice a b c (e : list (list (list X))) i :
  shape3 a b c e -> i < a -> shape2 b c (nth i e []).
Proof.
  intros [Ha He] Hi. rewrite Forall_forall in He. apply He.
  apply list_elem_of_In, nth_In. lia.
Qed.

Lemma tensor_tabulate (e : list (list (list X))) a b c (f : nat -> nat -> nat -> X) :
  shape3 a b c e ->
  (forall i j t, i < a -> j < b -> t < c -> get3 d e i j t = f i j t) ->
  e = tabulate3 a b c f.
Proof.
  intros He Hcells. unfold tabulate3. apply rows_tabulate; [by destruct He |].
  intros i Hi. apply matrix_tabulate; [by apply (shape3_slice a) |].
  intros j t Hj Ht. by apply Hcells.
Qed.

Lemma shape3_set3 a b c (e : list (list (list X))) i j t x :
  shape3 a b c e -> shape3 a b c (set3 e i j t x).
Proof.
  intros [Ha He]. unfold set3. split; [by rewrite length_insert |].
  destruct (decide (i < length e)) as [Hi | Hi].
  - apply Forall_insert; [done |].
    change (shape2 b c (set2 (nth i e []) j t x)). apply shape2_set2.
    apply (shape3_slice a b c e i); [by split | lia].
  - rewrite list_insert_ge; [done | lia].
Qed.

Lemma get3_set3_eq a b c (e : list (list (list X))) i j t x :
  shape3 a b c e -> i < a -> j < b -> t < c ->
  get3 d (set3 e i j t x) i j t = x.
Proof.
  intros He Hi Hj Ht. unfold get3, set3.
  rewrite nth_rows_insert_eq by (destruct He; lia).
  change (get2 d (set2 (nth i e []) j t x) j t = x).
  apply (get2_set2_eq d b c); try done. by apply (shape3_slice a).
Qed.

Lemma get3_set3_ne (e : list (list (list X))) i j t i' j' t' x :
  i <> i' \/ j <> j' \/ t <> t' ->
  get3 d (set3 e i j t x) i' j' t' = get3 d e i' j' t'.
Proof.
  intros Hne. unfold get3, set3.
  destruct (decide (i = i')) as [<- | Hi].
  - destruct (decide (i < length e)) as [Hlt | Hge].
    + rewrite nth_rows_insert_eq by done.
      change (get2 d (set2 (nth i e []) j t x) j' t' = get2 d (nth i e []) j' t').
      apply get2_set2_ne. destruct Hne as [? | Hne]; [done | exact Hne].
    + rewrite list_insert_ge; [done | lia].
  - by rewrite nth_rows_insert_ne.
Qed.

Lemma shape3_repeat a b c (x : X) :
  shape3 a b c (repeat (repeat (repeat x c) b) a).
Proof.
  split; [apply repeat_length |]. apply Forall_forall. intros m Hm.
  apply list_elem_of_In, repeat_spec in Hm as ->. apply shape2_full2.
Qed.
End Tabulate.

(** ** Loops whose body neither raises nor changes the object *)

Section PureLoops.
Context {P St : Type}.

Lemma bind_gets {A B} (f : St -> A) (k : A -> M P St B) h :
  bind (gets f) k h = k (f h) h.
Proof. reflexivity. Qed.

Lemma bind_assoc {A B C} (m : M P St A) (k1 : A -> M P St B)
    (k2 : B -> M P St C) h :
  bind (bind m k1) k2 h = bind m (fun a => bind (k1 a) k2) h.
Proof. unfold bind. by destruct (m h) as [[e | a] h']. Qed.

Lemma bind_lift {A B} (r : res P A) (k : A -> M P St B) h :
  bind (lift r) k h
  = match r with inl e => (inl e, h) | inr a => k a h end.
Proof. by destruct r. Qed.

Lemma forM_pure {X S'} (Inv : S' -> Prop) (xs : list X)
    (body : X -> S' -> M P St S') (g : X -> S' -> S') (st : S') (h : St) :
  (forall x st', In x xs -> Inv st' ->
     body x st' h = (inr (g x st'), h) /\ Inv (g x st')) ->
  Inv st ->
  forM xs body st h = (inr (fold_left (fun st' x => g x st') xs st), h) /\
  Inv (fold_left (fun st' x => g x st') xs st).
Proof.
  revert st. induction xs as [| x xs IH]; intros st Hbody Hinv; [done |].
  destruct (Hbody x st (or_introl eq_refl) Hinv) as [Hx Hinv'].
  cbn [forM fold_left]. rewrite (bind_ok _ _ _ _ _ Hx).
  apply IH; [| done]. intros y st' Hy. apply Hbody. by right.
Qed.

Lemma fold_left_for_range {S'} (g : nat -> S' -> S') n (st : S') :
  fold_left (fun st' x => g x st') (List.seq 0 n) st = for_range 0 n g st.
Proof. unfold for_range. by rewrite Nat.sub_0_r. Qed.
End PureLoops.

(** ** Filling a tensor cell by cell *)

Section FillTensor.
Context {X : Type} (d : X).
Variables (a b c : nat) (f : nat -> nat -> nat -> X).

Local Abbreviation filled := (filled d a b c f).

Lemma filled_weaken (D D' : nat -> nat -> nat -> Prop) e :
  (forall i j t, D' i j t -> D i j t) -> filled D e -> filled D' e.
Proof. intros Hsub [He Hc]. split; [done |]. intros i j t ? ? ? HD. auto. Qed.

Lemma filled_set3 D e i j t :
  filled D e -> i < a -> j < b -> t < c ->
  filled (fun i' j' t' => D i' j' t' \/ (i' = i /\ j' = j /\ t' = t))
         (set3 e i j t (f i j t)).
Proof.
  intros [He Hc] Hi Hj Ht. split; [by apply shape3_set3 |].
  intros i' j' t' Hi' Hj' Ht' HD.
  destruct (decide (i = i' /\ j = j' /\ t = t')) as [(<- & <- & <-) | Hne].
  - by apply (get3_set3_eq d a b c).
  - rewrite get3_set3_ne.
    + apply Hc; try done. destruct HD as [HD | (-> & -> & ->)]; [done |].
      exfalso. by apply Hne.
    + destruct (decide (i = i')), (decide (j = j')), (decide (t = t'));
        tauto.
  Qed.

Lemma fill_row D e i t n :
  filled D e -> i < a -> t < c -> n <= b ->
  filled (fun i' j' t' => D i' j' t' \/ (i' = i /\ t' = t /\ j' < n))
         (for_range 0 n (fun j e' => set3 e' i j t (f i j t)) e).
Proof.
  intros He Hi Ht Hn.
  apply (for_range_ind (fun k e' => k <= b ->
    filled (fun i' j' t' => D i' j' t' \/ (i' = i /\ t' = t /\ j' < k)) e'));
    [lia | | | done].
  - intros _. eapply filled_weaken; [| exact He]. intros ? ? ? [? | ?]; [done | lia].
  - intros k e' Hk IH Hle. specialize (IH ltac:(lia)).
    eapply filled_weaken; [| apply (filled_set3 _ e' i k t IH); lia].
    intros i' j' t' [HD | (-> & -> & Hj)]; [by left; left |].
    destruct (decide (j' = k)) as [-> | ?]; [by right | left; right; lia].
Qed.

Lemma fill_plane D e t n :
  filled D e -> t < c -> n <= a ->
  filled (fun i' j' t' => D i' j' t' \/ (t' = t /\ i' < n))
         (for_range 0 n (fun i =>
            for_range 0 b (fun j e' => set3 e' i j t (f i j t))) e).
Proof.
  intros He Ht Hn.
  apply (for_range_ind (fun k e' => k <= a ->
    filled (fun i' j' t' => D i' j' t' \/ (t' = t /\ i' < k)) e'));
    [lia | | | done].
  - intros _. eapply filled_weaken; [| exact He]. intros ? ? ? [? | ?]; [done | lia].
  - intros k e' Hk IH Hle. specialize (IH ltac:(lia)).
    pose proof (fill_row _ e' k t b IH ltac:(lia) Ht ltac:(lia)) as Hrow.
    split; [apply Hrow |]. intros i' j' t' Hi' Hj' Ht' HD.
    apply Hrow; try done.
    destruct HD as [HD | (-> & Hi)]; [by left; left |].
    destruct (decide (i' = k)) as [-> | ?]; [right; lia | left; right; lia].
Qed.

(** The three nested loops write every cell. *)
Lemma fill_tensor e :
  shape3 a b c e ->
  for_range 0 c (fun t =>
    for_range 0 a (fun i =>
      for_range 0 b (fun j e' => set3 e' i j t (f i j t)))) e
  = tabulate3 a b c f.
Proof.
  intros He.
  assert (filled (fun _ _ t' => t' < c)
            (for_range 0 c (fun t =>
               for_range 0 a (fun i =>
                 for_range 0 b (fun j e' => set3 e' i j t (f i j t)))) e))
    as [Hsh Hcells].
  { apply (for_range_ind (fun k e' => k <= c -> filled (fun _ _ t' => t' < k) e'));
      [lia | | | done].
    - intros _. split; [done |]. lia.
    - intros k e' Hk IH Hle. specialize (IH ltac:(lia)).
      pose proof (fill_plane _ e' k a IH ltac:(lia) ltac:(lia)) as Hplane.
      split; [apply Hplane |]. intros i' j' t' Hi' Hj' Ht' HD.
      apply Hplane; try done.
      destruct (decide (t' = k)) as [-> | ?]; [right; lia | left; lia]. }
  apply (tensor_tabulate d); [done |]. intros i j t Hi Hj Ht. by apply Hcells.
Qed.
End FillTensor.

(** ** Checked indexing inside the shapes *)

Section CheckedIndexing.
Context {P L : Type} `{FL : Floats P L}.

Lemma idx2_get2 {X} (d : X) r c (m : list (list X)) i j :
  shape2 r c m -> i < r -> j < c -> idx2 (P := P) m i j = inr (get2 d m i j).
Proof.
  intros Hm Hi Hj. unfold idx2.
  rewrite (idx1_nth m i []) by (destruct Hm; lia). cbn [res_bind].
  apply idx1_nth. by rewrite (shape2_row r c).
Qed.

Lemma setidx3_set3 {X} a b c (e : list (list (list X))) i j t (x : X) :
  shape3 a b c e -> i < a -> j < b -> t < c ->
  setidx3 (P := P) e i j t x = inr (set3 e i j t x).
Proof.
  intros He Hi Hj Ht. unfold setidx3.
  pose proof (shape3_slice a b c e i He Hi) as Hplane.
  rewrite (idx1_nth e i []) by (destruct He; lia). cbn [res_bind].
  rewrite (idx1_nth (nth i e []) j []) by (destruct Hplane; lia). cbn [res_bind].
  destruct (nth j (nth i e []) []) as [| y row] eqn:Hrow.
  - pose proof (shape2_row b c _ j Hplane Hj) as Hlen.
    rewrite Hrow in Hlen. simpl in Hlen. lia.
  - rewrite (idx1_nth (y :: row) t y); [| rewrite <- Hrow, (shape2_row b c); done].
    cbn [res_bind]. unfold set3. by rewrite Hrow.
Qed.

Lemma idx_col_col {X} (d : X) r c (m : list (list X)) j :
  shape2 r c m -> 0 < r -> j < c -> idx_col (P := P) d m j = inr (col d m j).
Proof.
  intros Hm Hr Hj. unfold idx_col. rewrite (ncols_shape2 r c) by done.
  by rewrite (proj2 (Nat.ltb_lt j c) Hj).
Qed.

Lemma col_tabulate2 {X} (d : X) r c (f : nat -> nat -> X) j :
  j < c -> col d (tabulate2 r c f) j = map (fun i => f i j) (List.seq 0 r).
Proof.
  intros Hj. unfold col, tabulate2. rewrite List.map_map.
  apply map_ext. intros i. by rewrite (nth_map_seq (fun j0 => f i j0)).
Qed.
End CheckedIndexing.

(** ** The E-step of one sequence *)

Section EStep.
Context {P L : Type} `{FL : Floats P L}.
Variables (S K T : nat) (seq : list nat).
Variable (h : HMM.self P L).
Variables (log_A log_B : list (list L)).
Hypothesis HS : HMM.n_hidden_states h = S.
Hypothesis Hread_A : HMM._log_A h = (inr log_A, h).
Hypothesis Hread_B : HMM._log_B h = (inr log_B, h).
Hypothesis HA : shape2 S S log_A.
Hypothesis HB : shape2 S K log_B.
Hypothesis Hseq : length seq = T.
Hypothesis Hsym : Forall (fun o => o < K) seq.

Lemma symbol_lt t : t < T -> get1 0 seq t < K.
Proof.
  intros Ht. rewrite Forall_forall in Hsym. apply Hsym.
  apply list_elem_of_In, nth_In. lia.
Qed.

Lemma E_cell_set3 (log_alpha log_beta : list (list L)) (Lk : L) t i j
    (e : list (list (list L))) :
  shape2 S T log_alpha -> shape2 S T log_beta -> shape3 S S (T - 1) e ->
  t < T - 1 -> i < S -> j < S ->
  HMM.E_cell seq log_alpha log_beta Lk t i j e h
  = (inr (set3 e i j t
            (lsub (ladd (ladd (ladd (lget2 log_alpha i t) (lget2 log_A i j))
                              (lget2 log_B j (get1 0 seq (t + 1))))
                        (lget2 log_beta j (t + 1))) Lk)), h).
Proof.
  intros Ha Hb He Ht Hi Hj. unfold HMM.E_cell.
  rewrite (bind_ok _ _ h _ h (lift_ok _ _ h
             (idx2_get2 uninit S T log_alpha i t Ha Hi ltac:(lia)))).
  rewrite (bind_ok _ _ h _ h Hread_A).
  rewrite (bind_ok _ _ h _ h (lift_ok _ _ h
             (idx2_get2 uninit S S log_A i j HA Hi Hj))).
  rewrite (bind_ok _ _ h _ h Hread_B).
  rewrite (bind_ok _ _ h _ h (lift_ok _ _ h
             (idx1_nth seq (t + 1) 0 ltac:(lia)))).
  rewrite (bind_ok _ _ h _ h (lift_ok _ _ h
             (idx2_get2 uninit S K log_B j (nth (t + 1) seq 0) HB Hj
                (symbol_lt (t + 1) ltac:(lia))))).
  rewrite (bind_ok _ _ h _ h (lift_ok _ _ h
             (idx2_get2 uninit S T log_beta j (t + 1) Hb Hj ltac:(lia)))).
  apply lift_ok. by apply (setidx3_set3 S S (T - 1)).
Qed.

(** The three nested loops of [EM] fill [log_E]. *)
Lemma compute_E_tensor (log_alpha log_beta : list (list L)) (Lk : L)
    (e : list (list (list L))) :
  shape2 S T log_alpha -> shape2 S T log_beta -> shape3 S S (T - 1) e ->
  HMM.compute_E seq T log_alpha log_beta Lk e h
  = (inr (tabulate3 S S (T - 1) (fun i j t =>
            lsub (ladd (ladd (ladd (lget2 log_alpha i t) (lget2 log_A i j))
                             (lget2 log_B j (get1 0 seq (t + 1))))
                       (lget2 log_beta j (t + 1))) Lk)), h).
Proof.
  intros Ha Hb He. unfold HMM.compute_E.
  set (f := fun i j t =>
    lsub (ladd (ladd (ladd (lget2 log_alpha i t) (lget2 log_A i j))
                     (lget2 log_B j (get1 0 seq (t + 1))))
               (lget2 log_beta j (t + 1))) Lk).
  rewrite <- (fill_tensor uninit S S (T - 1) f e He).
  rewrite <- (fold_left_for_range (fun t =>
    for_range 0 S (fun i => for_range 0 S (fun j e' => set3 e' i j t (f i j t))))).
  apply (forM_pure (shape3 S S (T - 1))); [| done].
  intros t e1 Ht He1. apply in_seq in Ht. rewrite bind_gets, HS.
  rewrite <- (fold_left_for_range (fun i =>
    for_range 0 S (fun j e' => set3 e' i j t (f i j t)))).
  apply (forM_pure (shape3 S S (T - 1))); [| done].
  intros i e2 Hi He2. apply in_seq in Hi. rewrite bind_gets, HS.
  rewrite <- (fold_left_for_range (fun j e' => set3 e' i j t (f i j t))).
  apply (forM_pure (shape3 S S (T - 1))); [| done].
  intros j e3 Hj He3. apply in_seq in Hj.
  split; [apply E_cell_set3; (done || lia) | by apply shape3_set3].
Qed.
End EStep.

(** ** Posteriors and accumulators of one sequence *)

Section Tabulated.
Context {X : Type}.

Lemma tabulate2_ext r c (f g : nat -> nat -> X) :
  (forall i j, i < r -> j < c -> f i j = g i j) ->
  tabulate2 r c f = tabulate2 r c g.
Proof.
  intros Hfg. unfold tabulate2. apply map_ext_in. intros i Hi.
  apply in_seq in Hi. apply map_ext_in. intros j Hj. apply in_seq in Hj.
  apply Hfg; lia.
Qed.

Lemma tabulate3_ext a b c (f g : nat -> nat -> nat -> X) :
  (forall i j t, i < a -> j < b -> t < c -> f i j t = g i j t) ->
  tabulate3 a b c f = tabulate3 a b c g.
Proof.
  intros Hfg. unfold tabulate3. apply map_ext_in. intros i Hi.
  apply in_seq in Hi. apply tabulate2_ext. intros j t Hj Ht. apply Hfg; lia.
Qed.

Lemma zip_with_tabulate2 {Y Z} (op : X -> Y -> Z) r c
    (f : nat -> nat -> X) (g : nat -> nat -> Y) :
  zip_with (zip_with op) (tabulate2 r c f) (tabulate2 r c g)
  = tabulate2 r c (fun i j => op (f i j) (g i j)).
Proof.
  unfold tabulate2. rewrite zip_with_maps. apply map_ext. intros i.
  apply zip_with_maps.
Qed.
End Tabulated.

Section Accumulate.
Context {P L : Type} `{FL : Floats P L}.
Variables (S K T : nat) (seq : list nat).
Hypothesis HS : 1 <= S.
Hypothesis HT : 1 <= T.
Hypothesis Hseq : length seq = T.
Hypothesis Hsym : Forall (fun o => o < K) seq.
Variables (E : nat -> nat -> nat -> L) (G : nat -> nat -> L).

Lemma symbol_lt' t : t < T -> nth t seq 0 < K.
Proof.
  intros Ht. rewrite Forall_forall in Hsym. apply Hsym.
  apply list_elem_of_In, nth_In. lia.
Qed.

Local Abbreviation B_update := (fun (B_acc : list (list P)) t =>
  set_col B_acc (get1 0 seq t)
    (vpadd (col p0 B_acc (get1 0 seq t))
       (map (fun i => np_exp (G i t)) (List.seq 0 S)))).

Lemma shape2_B_update (B_acc : list (list P)) t :
  shape2 S K B_acc -> shape2 S K (B_update B_acc t).
Proof.
  intros HB. apply shape2_set_col; [done |]. unfold vpadd.
  rewrite length_zip_with, length_col, List.length_map, length_seq.
  destruct HB. lia.
Qed.

Lemma shape2_B_updates (B_acc : list (list P)) ts :
  shape2 S K B_acc -> shape2 S K (fold_left B_update ts B_acc).
Proof.
  revert B_acc. induction ts as [| t ts IH]; intros B_acc HB; [done |].
  simpl. apply IH. by apply shape2_B_update.
Qed.

Lemma B_loop (B_acc : list (list P)) ts :
  shape2 S K B_acc -> Forall (fun t => t < T) ts ->
  (fix loop (ts : list nat) (B_acc : list (list P)) :=
     match ts with
     | [] => inr B_acc
     | t :: ts' =>
         o <~ idx1 seq t ;;
         g <~ idx_col uninit (tabulate2 S T G) t ;;
         B_acc <~ HMM.add_to_col B_acc o (map np_exp g) ;;
         loop ts' B_acc
     end) ts B_acc
  = (inr (fold_left B_update ts B_acc) : res P (list (list P))).
Proof.
  intros HB Hts. revert B_acc HB.
  induction Hts as [| t ts Ht Hts IH]; intros B_acc HB; [done |].
  rewrite (idx1_nth seq t 0) by lia. cbn [res_bind].
  rewrite (idx_col_col uninit S T) by (apply shape2_tabulate2 || lia).
  cbn [res_bind]. unfold HMM.add_to_col.
  rewrite (idx_col_col p0 S K) by (done || lia || by apply symbol_lt').
  cbn [res_bind fold_left]. rewrite col_tabulate2 by done.
  rewrite List.map_map. apply (IH (B_update B_acc t)).
  by apply shape2_B_update.
Qed.

Lemma accumulate_step (acc : HMM.accumulators P) :
  shape2 S K (HMM.B_acc acc) ->
  HMM.accumulate seq T (tabulate3 S S (T - 1) E) (tabulate2 S T G) acc
  = inr (HMM.mk_acc
           (vpadd (HMM.pi_acc acc)
              (map (fun i => np_exp (G i 0)) (List.seq 0 S)))
           (mpadd (HMM.A_acc acc)
              (tabulate2 S S (fun i j =>
                 psum (map (fun t => np_exp (E i j t)) (List.seq 0 (T - 1))))))
           (fold_left B_update (List.seq 0 T) (HMM.B_acc acc))).
Proof.
  intros HB. unfold HMM.accumulate.
  rewrite (idx_col_col uninit S T) by (apply shape2_tabulate2 || lia).
  cbn [res_bind]. rewrite B_loop; [| done |].
  - cbn [res_bind]. f_equal. f_equal.
    + f_equal. rewrite col_tabulate2 by lia. by rewrite List.map_map.
    + f_equal. unfold tabulate3, tabulate2. rewrite List.map_map.
      apply map_ext. intros i. rewrite List.map_map. apply map_ext. intros j.
      by rewrite List.map_map.
  - apply Forall_forall. intros t Ht. by apply list_elem_of_In, in_seq in Ht as [_ ?].
Qed.
End Accumulate.

(** ** One sequence of the E-step, one iteration of EM *)

Section EStepMethod.
Context {P L : Type} `{FL : Floats P L}.
Implicit Types h : HMM.self P L.

Lemma scratch_after_ok log_pi log_A log_B S T seq :
  length seq = T ->
  scratch_ok S T (scratch_after log_pi log_A log_B S seq).
Proof.
  intros <-. unfold scratch_ok, scratch_after. cbn.
  split; [apply shape2_tabulate2 |]. split; [apply shape2_tabulate2 |].
  split; [unfold tabulate3; by rewrite List.length_map, length_seq |].
  apply Forall_map, Forall_forall. intros i _. apply shape2_tabulate2.
Qed.

(** The body of the loop over the corpus: the buffers end as the lattices
    and posteriors of the sequence, the accumulators one step further, and
    the object with nothing but its caches touched. *)
Lemma E_step_cases S K T h seq (sc : HMM.scratch L) (acc : HMM.accumulators P) :
  well_formed S K h -> 1 <= S ->
  length seq = T -> 1 <= T -> Forall (fun o => o < K) seq ->
  scratch_ok S T sc -> shape2 S K (HMM.B_acc acc) ->
  HMM.E_step T seq (sc, acc) h
  = (match (if HMM.sanity_checks_enabled h
            then HMM.E_step_checks T S
                   (tabulate3 S S (T - 1)
                      (log_E_spec (log_of_pi h) (log_of_A h) (log_of_B h) S seq))
                   (tabulate2 S T
                      (log_gamma_spec (log_of_pi h) (log_of_A h) (log_of_B h) S seq))
            else inr tt) with
     | inl e => inl e
     | inr _ =>
         inr (scratch_after (log_of_pi h) (log_of_A h) (log_of_B h) S seq,
              acc_step (log_of_pi h) (log_of_A h) (log_of_B h) S acc seq)
     end, warm h).
Proof.
  intros Hwf HS Hseq HT Hsym (Hsa & Hsb & Hse) HBacc.
  destruct (well_formed_logs S K h Hwf) as (Hpi & HA & HB).
  pose proof Hwf as (Hn & _ & _ & _ & Hc).
  destruct (warm_tables h) as (_ & _ & _ & Hn' & _ & Hsan').
  set (log_pi := log_of_pi h) in *. set (log_A := log_of_A h) in *.
  set (log_B := log_of_B h) in *.
  destruct (forward_lattice log_pi log_A log_B S T seq Hpi (proj1 HA) (proj1 HB)
              Hseq (HMM.log_alpha sc) Hsa HT) as (Hsha & Hcella & _).
  destruct (backward_lattice log_pi log_A log_B S T seq Hpi HA (proj1 HB)
              Hseq (HMM.log_beta sc) Hsb HT HS) as (Hshb & Hcellb).
  pose proof (matrix_tabulate uninit _ S T
                (fun s t => alpha_spec log_pi log_A log_B S seq t s) Hsha
                (fun s t Hs Ht => Hcella t s Ht Hs)) as Ealpha.
  pose proof (matrix_tabulate uninit _ S T
                (fun s t => beta_spec log_A log_B S seq t s) Hshb
                (fun s t Hs Ht => Hcellb t s Ht Hs)) as Ebeta.
  unfold HMM.E_step.
  rewrite (bind_ok _ _ _ _ _ (method_forward h seq (HMM.log_alpha sc) Hc)).
  fold log_pi log_A log_B. cbv zeta.
  pose proof (method_backward (warm h) seq (HMM.log_beta sc)
                (coherent_warm h Hc)) as Hback.
  destruct (warm_logs h) as (E1 & E2 & E3).
  rewrite E1, E2, E3, (warm_warm h Hc) in Hback. fold log_pi log_A log_B in Hback.
  rewrite (bind_ok _ _ _ _ _ Hback).
  rewrite Ealpha, Ebeta.
  assert (sp_logsumexp
            (col_last uninit
               (tabulate2 S T (fun s t => alpha_spec log_pi log_A log_B S seq t s)))
          = seq_loglik log_pi log_A log_B S seq) as ->.
  { unfold col_last, seq_loglik.
    rewrite (ncols_shape2 S T) by (apply shape2_tabulate2 || lia).
    rewrite col_tabulate2 by lia. by rewrite Hseq. }
  rewrite (bind_ok _ _ _ _ _
             (compute_E_tensor S K T seq (warm h) log_A log_B
                (eq_trans Hn' Hn) (warm_read_A h Hc) (warm_read_B h Hc)
                HA HB Hseq Hsym _ _ _ (HMM.log_E sc)
                (shape2_tabulate2 S T _) (shape2_tabulate2 S T _) Hse)).
  rewrite bind_gets.
  assert (HMM.sanity_checks_enabled (warm h) = HMM.sanity_checks_enabled h) as ->
    by (unfold HMM.sanity_checks_enabled; by rewrite Hsan').
  rewrite (tabulate3_ext S S (T - 1) _ (log_E_spec log_pi log_A log_B S seq)).
  2:{ intros i j t Hi Hj Ht. unfold log_E_spec, lget2.
      by rewrite !(get2_tabulate2 uninit S T) by lia. }
  unfold HMM.compute_gamma. rewrite zip_with_tabulate2.
  change (tabulate2 S T (fun i j =>
            lsub (ladd (alpha_spec log_pi log_A log_B S seq j i)
                       (beta_spec log_A log_B S seq j i))
                 (seq_loglik log_pi log_A log_B S seq)))
    with (tabulate2 S T (log_gamma_spec log_pi log_A log_B S seq)).
  assert (forall u : unit,
            bind (lift (HMM.accumulate seq T
                          (tabulate3 S S (T - 1) (log_E_spec log_pi log_A log_B S seq))
                          (tabulate2 S T (log_gamma_spec log_pi log_A log_B S seq))
                          acc))
              (fun acc' =>
                 ret (HMM.mk_scratch
                        (tabulate2 S T
                           (fun s t => alpha_spec log_pi log_A log_B S seq t s))
                        (tabulate2 S T
                           (fun s t => beta_spec log_A log_B S seq t s))
                        (tabulate3 S S (T - 1)
                           (log_E_spec log_pi log_A log_B S seq))
                        (tabulate2 S T
                           (log_gamma_spec log_pi log_A log_B S seq)), acc'))
              (warm h)
            = (inr (scratch_after log_pi log_A log_B S seq,
                    acc_step log_pi log_A log_B S acc seq), warm h)) as Hacc.
  { intros _.
    rewrite (bind_ok _ _ _ _ _ (lift_ok _ _ _
               (accumulate_step S K T seq HS HT Hseq Hsym _ _ acc HBacc))).
    unfold ret, scratch_after, acc_step. by rewrite Hseq. }
  destruct (HMM.sanity_checks_enabled h).
  - rewrite bind_assoc, bind_gets, (eq_trans Hn' Hn), bind_lift.
    destruct (HMM.E_step_checks T S _ _) as [e | u]; [done | exact (Hacc u)].
  - unfold ret at 1. unfold bind at 1. exact (Hacc tt).
Qed.

Lemma E_step_spec S K T h seq (sc : HMM.scratch L) (acc : HMM.accumulators P) :
  well_formed S K h -> 1 <= S -> HMM.sanity_checks_enabled h = false ->
  length seq = T -> 1 <= T -> Forall (fun o => o < K) seq ->
  scratch_ok S T sc -> shape2 S K (HMM.B_acc acc) ->
  HMM.E_step T seq (sc, acc) h
  = (inr (scratch_after (log_of_pi h) (log_of_A h) (log_of_B h) S seq,
          acc_step (log_of_pi h) (log_of_A h) (log_of_B h) S acc seq),
     warm h).
Proof.
  intros Hwf HS Hsan Hseq HT Hsym Hsc HBacc.
  rewrite (E_step_cases S K T h seq sc acc Hwf HS Hseq HT Hsym Hsc HBacc).
  by rewrite Hsan.
Qed.

(** With the checks on, a sequence either stops the loop with the error of
    a check or leaves what it leaves with the checks off. *)
Lemma E_step_completes S K T h seq (sc : HMM.scratch L) (acc : HMM.accumulators P) :
  well_formed S K h -> 1 <= S ->
  length seq = T -> 1 <= T -> Forall (fun o => o < K) seq ->
  scratch_ok S T sc -> shape2 S K (HMM.B_acc acc) ->
  HMM.E_step T seq (sc, acc) h
  = (inr (scratch_after (log_of_pi h) (log_of_A h) (log_of_B h) S seq,
          acc_step (log_of_pi h) (log_of_A h) (log_of_B h) S acc seq),
     warm h) \/
  exists e, HMM.E_step T seq (sc, acc) h = (inl e, warm h).
Proof.
  intros Hwf HS Hseq HT Hsym Hsc HBacc.
  rewrite (E_step_cases S K T h seq sc acc Hwf HS Hseq HT Hsym Hsc HBacc).
  destruct (if HMM.sanity_checks_enabled h then _ else _) as [e | u];
    [right; by exists e | by left].
Qed.
End EStepMethod.

Section C4.
Context {P L : Type} `{FL : Floats P L}.
Implicit Types h : HMM.self P L.

Lemma shape2_zeros_like2 r c (m : list (list P)) :
  shape2 r c m -> shape2 r c (zeros_like2 m).
Proof.
  intros [Hr Hc]. unfold zeros_like2, zeros_like1.
  split; [by rewrite List.length_map |].
  apply Forall_map. eapply Forall_impl; [exact Hc |].
  intros row Hrow. simpl. by rewrite List.length_map.
Qed.

Lemma shape2_acc_step log_pi log_A log_B S K T acc seq :
  1 <= S -> 1 <= T -> length seq = T ->
  shape2 S K (HMM.B_acc acc) ->
  shape2 S K (HMM.B_acc (acc_step log_pi log_A log_B S acc seq)).
Proof.
  intros HS HT Hseq HB. unfold acc_step. cbn [HMM.B_acc]. rewrite Hseq.
  by apply (shape2_B_updates S K T seq HS HT Hseq).
Qed.

(** The loop over the corpus. *)
Lemma E_steps_spec S K T h sequences sc acc :
  well_formed S K h -> 1 <= S -> HMM.sanity_checks_enabled h = false ->
  1 <= T ->
  Forall (fun seq => length seq = T /\ Forall (fun o => o < K) seq) sequences ->
  scratch_ok S T sc -> shape2 S K (HMM.B_acc acc) ->
  forM sequences (HMM.E_step T) (sc, acc) h
  = (inr (scratch_run (log_of_pi h) (log_of_A h) (log_of_B h) S sc sequences,
          fold_left (acc_step (log_of_pi h) (log_of_A h) (log_of_B h) S)
            sequences acc),
     match sequences with [] => h | _ => warm h end).
Proof.
  intros Hwf HS Hsan HT Hall. revert h sc acc Hwf Hsan.
  induction Hall as [| seq rest [Hseq Hsym] Hrest IH];
    intros h sc acc Hwf Hsan Hsc Hacc; [done |].
  pose proof Hwf as (_ & _ & _ & _ & Hc).
  cbn [forM].
  rewrite (bind_ok _ _ _ _ _
             (E_step_spec S K T h seq sc acc Hwf HS Hsan Hseq HT Hsym Hsc Hacc)).
  destruct (warm_tables h) as (_ & _ & _ & _ & _ & Hsan').
  destruct (warm_logs h) as (E1 & E2 & E3).
  rewrite (IH (warm h)); try done.
  - rewrite E1, E2, E3. unfold scratch_run. cbn [fold_left]. f_equal.
    destruct rest; [done |]. by apply warm_warm.
  - by apply well_formed_warm.
  - unfold HMM.sanity_checks_enabled in *. by rewrite Hsan'.
  - by apply scratch_after_ok.
  - by apply (shape2_acc_step _ _ _ S K T).
Qed.

(** The loop over the corpus with the checks on or off: it stops with an
    error, or ends as it ends with the checks off. *)
Lemma E_steps_complete S K T h sequences sc acc :
  well_formed S K h -> 1 <= S -> 1 <= T ->
  Forall (fun seq => length seq = T /\ Forall (fun o => o < K) seq) sequences ->
  scratch_ok S T sc -> shape2 S K (HMM.B_acc acc) ->
  forM sequences (HMM.E_step T) (sc, acc) h
  = (inr (scratch_run (log_of_pi h) (log_of_A h) (log_of_B h) S sc sequences,
          fold_left (acc_step (log_of_pi h) (log_of_A h) (log_of_B h) S)
            sequences acc),
     match sequences with [] => h | _ => warm h end) \/
  exists e hf, forM sequences (HMM.E_step T) (sc, acc) h = (inl e, hf).
Proof.
  intros Hwf HS HT Hall. revert h sc acc Hwf.
  induction Hall as [| seq rest [Hseq Hsym] Hrest IH];
    intros h sc acc Hwf Hsc Hacc; [by left |].
  pose proof Hwf as (_ & _ & _ & _ & Hc).
  cbn [forM].
  destruct (E_step_completes S K T h seq sc acc Hwf HS Hseq HT Hsym Hsc Hacc)
    as [Hstep | [e Hstep]].
  2:{ right. exists e, (warm h). by apply bind_raise. }
  rewrite (bind_ok _ _ _ _ _ Hstep).
  destruct (warm_logs h) as (E1 & E2 & E3).
  destruct (IH (warm h) _ _ (well_formed_warm S K h Hwf)
              (scratch_after_ok (log_of_pi h) (log_of_A h) (log_of_B h)
                 S T seq Hseq)
              (shape2_acc_step (log_of_pi h) (log_of_A h) (log_of_B h)
                 S K T acc seq HS HT Hseq Hacc))
    as [Hrun | Hstop]; [left | by right].
  rewrite Hrun, E1, E2, E3. unfold scratch_run. cbn [fold_left]. f_equal.
  destruct rest; [done |]. by apply warm_warm.
Qed.

End C4.

(** * Further properties of the code *)

(** ** The queries do not write the parameters *)

Section ReadOnly.
Context {P L : Type} `{FL : Floats P L}.
Implicit Types h : HMM.self P L.

Lemma same_parameters_refl h : same_parameters h h.
Proof. by repeat split. Qed.

Lemma same_parameters_trans h1 h2 h3 :
  same_parameters h1 h2 -> same_parameters h2 h3 -> same_parameters h1 h3.
Proof.
  intros (a1 & a2 & a3 & a4 & a5 & a6 & a7) (b1 & b2 & b3 & b4 & b5 & b6 & b7).
  unfold same_parameters. repeat split; congruence.
Qed.

Lemma read_only_ret {A} (a : A) : read_only (P := P) (L := L) (ret a).
Proof. intros h. apply same_parameters_refl. Qed.

Lemma read_only_lift {A} (r : res P A) : read_only (L := L) (lift r).
Proof. intros h. apply same_parameters_refl. Qed.

Lemma read_only_gets {A} (f : HMM.self P L -> A) :
  read_only (P := P) (gets f).
Proof. intros h. apply same_parameters_refl. Qed.

Lemma read_only_bind {A B} (m : M P (HMM.self P L) A)
    (k : A -> M P (HMM.self P L) B) :
  read_only m -> (forall a, read_only (k a)) -> read_only (bind m k).
Proof.
  intros Hm Hk h. specialize (Hm h). unfold bind.
  destruct (m h) as [[e | a] h1]; [exact Hm |].
  eapply same_parameters_trans; [exact Hm | apply Hk].
Qed.

Lemma read_only_forM {X S'} (xs : list X)
    (body : X -> S' -> M P (HMM.self P L) S') (st : S') :
  (forall x st', read_only (body x st')) -> read_only (forM xs body st).
Proof.
  intros Hbody. revert st. induction xs as [| x xs IH]; intros st.
  - apply read_only_ret.
  - cbn [forM]. apply read_only_bind; [apply Hbody | exact IH].
Qed.

Lemma read_only_log_pi : read_only HMM._log_pi.
Proof.
  intros [ip tr em ni nh no fpi cpi fA cA fB cB sc].
  unfold same_parameters, HMM._log_pi.
  destruct fpi as [[|] |]; cbn; by repeat split.
Qed.

Lemma read_only_log_A : read_only HMM._log_A.
Proof.
  intros [ip tr em ni nh no fpi cpi fA cA fB cB sc].
  unfold same_parameters, HMM._log_A.
  destruct fA as [[|] |]; cbn; by repeat split.
Qed.

Lemma read_only_log_B : read_only HMM._log_B.
Proof.
  intros [ip tr em ni nh no fpi cpi fA cA fB cB sc].
  unfold same_parameters, HMM._log_B.
  destruct fB as [[|] |]; cbn; by repeat split.
Qed.

(** the steps every method is made of *)
Ltac read_only_leaf :=
  first [ apply read_only_ret | apply read_only_lift | apply read_only_gets
        | apply read_only_log_pi | apply read_only_log_A
        | apply read_only_log_B ].
Ltac read_only_step :=
  first [ read_only_leaf | apply read_only_bind; [read_only_leaf | intros ?] ].

Lemma read_only_forward seq buf : read_only (HMM._forward seq buf).
Proof. unfold HMM._forward. repeat read_only_step. Qed.

Lemma read_only_backward seq buf : read_only (HMM._backward seq buf).
Proof. unfold HMM._backward. repeat read_only_step. Qed.

Lemma read_only_viterbi seq log_V back_path :
  read_only (HMM._viterbi seq log_V back_path).
Proof. unfold HMM._viterbi. repeat read_only_step. Qed.

Lemma read_only_log_likelihood sequences :
  read_only (HMM.log_likelihood sequences).
Proof.
  unfold HMM.log_likelihood. do 3 read_only_step.
  apply read_only_bind; [| intros ?; apply read_only_ret].
  apply read_only_forM. intros seq [buf total].
  apply read_only_bind; [apply read_only_forward | intros ?; apply read_only_ret].
Qed.

(** X1. [log_likelihood], [likelihood] and [decode], and the three methods
    that call the kernels, leave [pi], [A], [B], the iteration count, the
    two sizes and the switch of the consistency checks as they were, on
    every object and every argument, also when they raise: they write the
    flags and the cached logs only. *)
Theorem queries_write_caches_only (sequences : list (list nat))
    (seq : list nat) (buf : list (list L)) (back_path : list (list nat)) :
  read_only (HMM.log_likelihood sequences) /\
  read_only (HMM.likelihood sequences) /\
  read_only (HMM.decode sequences) /\
  read_only (HMM._forward seq buf) /\
  read_only (HMM._backward seq buf) /\
  read_only (HMM._viterbi seq buf back_path).
Proof.
  split; [apply read_only_log_likelihood |].
  split; [| split; [| split; [apply read_only_forward |
    split; [apply read_only_backward | apply read_only_viterbi]]]].
  - unfold HMM.likelihood.
    apply read_only_bind; [apply read_only_log_likelihood |].
    intros ?. apply read_only_ret.
  - unfold HMM.decode. do 2 read_only_step.
    apply read_only_bind; [| intros ?; apply read_only_ret].
    apply read_only_forM. intros s [[log_V bp] out].
    apply read_only_bind; [apply read_only_viterbi |].
    intros [V' bp']. apply read_only_ret.
Qed.
End ReadOnly.

(** ** Corpora that are not arrays of observations *)

Section Rejects.
Context {P L : Type} `{FL : Floats P L}.
Implicit Types h : HMM.self P L.

(** X2. [log_likelihood] and [likelihood] raise on the empty list (its
    array has one axis, so [shape[1]] is an IndexError) and on rows of
    unequal length, and the object is then exactly as it was: no log has
    been read yet. *)
Theorem log_likelihood_rejects_what_is_not_a_matrix h :
  HMM.log_likelihood [] h = (inl IndexError, h) /\
  HMM.likelihood [] h = (inl IndexError, h) /\
  forall sequences, rectangular sequences = false ->
    (exists e, HMM.log_likelihood sequences h = (inl e, h)) /\
    (exists e, HMM.likelihood sequences h = (inl e, h)).
Proof.
  split; [done |]. split; [done |].
  intros sequences Hrag.
  assert (HMM.log_likelihood sequences h = (inl RaggedArray, h)) as Hll.
  { unfold HMM.log_likelihood. apply bind_raise.
    unfold lift, np_array. by rewrite Hrag. }
  split; [by eexists |].
  exists RaggedArray. unfold HMM.likelihood. by apply bind_raise.
Qed.

(** X3. [EM] raises before its first iteration, and leaves the object
    exactly as it was, on the empty list, on rows of unequal length and
    on rows without observations: for the last, [log_E] would have the
    dimension [n_obs - 1 = -1]. *)
Theorem EM_rejects_a_corpus_without_observations h (n_iter : nat) :
  HMM.EM [] n_iter h = (inl IndexError, h) /\
  (forall sequences, rectangular sequences = false ->
     exists e, HMM.EM sequences n_iter h = (inl e, h)) /\
  (forall rest, rectangular ([] :: rest) = true ->
     HMM.EM ([] :: rest) n_iter h = (inl NegativeDimension, h)).
Proof.
  split; [done |]. split.
  - intros sequences Hrag. exists RaggedArray.
    unfold HMM.EM. apply bind_raise. unfold lift, np_array. by rewrite Hrag.
  - intros rest Hrect. unfold HMM.EM.
    rewrite (bind_ok _ _ h ([] :: rest) h)
      by (unfold lift, np_array; by rewrite Hrect).
    reflexivity.
Qed.
End Rejects.

Lemma log_likelihood_rejects_what_is_not_a_matrix_witness :
  (exists e, HMM.log_likelihood [[0; 1]; [0]] (Exact.toy_model 10)
             = (inl e, Exact.toy_model 10)) /\
  (exists e, HMM.likelihood [[0; 1]; [0]] (Exact.toy_model 10)
             = (inl e, Exact.toy_model 10)).
Proof.
  exact (proj2 (proj2 (log_likelihood_rejects_what_is_not_a_matrix
                         (Exact.toy_model 10))) [[0; 1]; [0]] eq_refl).
Defined.

Lemma EM_rejects_a_corpus_without_observations_witness :
  HMM.EM [[]; []] 100 (Exact.toy_model 10)
  = (inl NegativeDimension, Exact.toy_model 10).
Proof.
  exact (proj2 (proj2 (EM_rejects_a_corpus_without_observations
                         (Exact.toy_model 10) 100)) [[]] eq_refl).
Defined.

(** ** Samples of different sizes from one seed *)

Section SamplePrefix.
Context {P L : Type} `{FL : Floats P L} `{RN : Random P}.

(** the loop of [_sample_one] after [k] passes *)
Lemma sample_one_passes (pi : list P) (A B : list (list P)) (seed k : nat) :
  let '(s, g) := _choice pi (nb_seed seed) in
  exists body : nat -> nb_rng * nat * list nat -> nb_rng * nat * list nat,
    (forall n, _sample_one n pi A B seed
               = snd (for_range 0 n body (g, s, []))) /\
    length (snd (for_range 0 k body (g, s, []))) = k /\
    exists o, snd (for_range 0 (Datatypes.S k) body (g, s, []))
              = snd (for_range 0 k body (g, s, [])) ++ [o].
Proof.
  destruct (_choice pi (nb_seed seed)) as [s g] eqn:Hfirst.
  exists (fun (_ : nat) '(g, s, observations) =>
            let '(obs, g) := _choice (nth s B []) g in
            let observations := observations ++ [obs] in
            let '(s, g) := _choice (nth s A []) g in
            (g, s, observations)).
  set (body := fun (_ : nat) '(g, s, observations) => _).
  split; [| split].
  - intros n. unfold _sample_one. rewrite Hfirst. fold body.
    by destruct (for_range 0 n body (g, s, [])) as [[g' s'] obs].
  - apply (for_range_ind (fun k st => length (snd st) = k)); [lia | done |].
    intros j [[g' s'] obs] Hj Hobs. unfold body. cbn [snd] in Hobs.
    destruct (_choice (nth s' B []) g') as [o g1].
    destruct (_choice (nth s' A []) g1) as [s2 g2]. cbn [snd].
    rewrite length_app. simpl. lia.
  - rewrite for_range_snoc by lia.
    destruct (for_range 0 k body (g, s, [])) as [[g' s'] obs]. unfold body.
    destruct (_choice (nth s' B []) g') as [o g1].
    destruct (_choice (nth s' A []) g1) as [s2 g2]. cbn [snd]. by exists o.
Qed.

Lemma take_sample_one (pi : list P) (A B : list (list P)) (seed n m : nat) :
  take n (_sample_one (n + m) pi A B seed) = _sample_one n pi A B seed.
Proof.
  induction m as [| m IH].
  - rewrite Nat.add_0_r. apply take_ge. by rewrite length_sample_one.
  - pose proof (sample_one_passes pi A B seed (n + m)) as Hpass.
    destruct (_choice pi (nb_seed seed)) as [s g].
    destruct Hpass as (body & Hrun & Hlen & o & Hstep).
    replace (n + Datatypes.S m) with (Datatypes.S (n + m)) by lia.
    rewrite (Hrun (Datatypes.S (n + m))), Hstep, <- (Hrun (n + m)).
    rewrite take_app_le by (rewrite length_sample_one; lia).
    exact IH.
Qed.

(** X4. With one seed, the first [n] observations that [_sample_one]
    draws for a longer sequence are the sequence it draws for [n]
    observations, and a sequence of [n] observations has length [n]. *)
Theorem sample_one_extends_the_shorter_sample
    (pi : list P) (A B : list (list P)) (seed n m : nat) :
  take n (_sample_one (n + m) pi A B seed) = _sample_one n pi A B seed /\
  _sample_one (n + m) pi A B seed
  = _sample_one n pi A B seed ++ drop n (_sample_one (n + m) pi A B seed) /\
  length (drop n (_sample_one (n + m) pi A B seed)) = m.
Proof.
  split; [apply take_sample_one |]. split.
  - rewrite <- (take_sample_one pi A B seed n m). by rewrite take_drop.
  - rewrite length_drop, length_sample_one. lia.
Qed.

(** The rows of a sample: one call of [_sample_one] for each number
    drawn from the generator of the seed. *)
Lemma sample_rows (h : HMM.self P L) (n_seq n_obs seed : nat) :
  HMM.sample h n_seq n_obs seed
  = map (_sample_one n_obs (HMM.pi h) (HMM.A h) (HMM.B h))
        (sub_seeds n_seq (RandomState seed)).
Proof.
  unfold HMM.sample, for_range. rewrite Nat.sub_0_r.
  set (body := fun (st : np_rng * list (list nat)) (_ : nat) => _).
  enough (forall n lo rng acc,
            snd (fold_left body (List.seq lo n) (rng, acc))
            = acc ++ map (_sample_one n_obs (HMM.pi h) (HMM.A h) (HMM.B h))
                         (sub_seeds n rng)) as Hloop by apply Hloop.
  induction n as [| n IH]; intros lo rng acc.
  - simpl. by rewrite app_nil_r.
  - cbn [List.seq fold_left sub_seeds].
    assert (body (rng, acc) lo
            = (let '(x, rng') := randint 10000 rng in
               (rng', acc ++ [_sample_one n_obs (HMM.pi h) (HMM.A h)
                                (HMM.B h) x]))) as -> by reflexivity.
    destruct (randint 10000 rng) as [x rng'].
    rewrite IH. cbn [map]. by rewrite <- app_assoc.
Qed.

Lemma take_sub_seeds (k j : nat) (rng : np_rng) :
  take k (sub_seeds (k + j) rng) = sub_seeds k rng.
Proof.
  revert rng. induction k as [| k IH]; intros rng; [done |].
  cbn [Nat.add sub_seeds].
  destruct (randint 10000 rng) as [x rng']. cbn [take]. by rewrite IH.
Qed.

(** X5. With one seed, [sample] for more sequences begins with the
    sample for fewer, and [sample] for longer sequences gives rows that
    begin with the rows of the sample for shorter ones. *)
Theorem sample_extends_the_smaller_sample
    (h : HMM.self P L) (seed k j n m : nat) :
  take k (HMM.sample h (k + j) n seed) = HMM.sample h k n seed /\
  map (take n) (HMM.sample h k (n + m) seed) = HMM.sample h k n seed.
Proof.
  rewrite !sample_rows. split.
  - by rewrite firstn_map, take_sub_seeds.
  - rewrite List.map_map. apply map_ext. intros x.
    apply take_sample_one.
Qed.
End SamplePrefix.

(** ** What the kernels leave of the buffers they are given *)

Section Buffers.
Context {P L : Type} `{FL : Floats P L}.

(** X6. [_forward] and [_backward] overwrite every cell of their buffer:
    the lattice they leave and the value [_forward] returns are the same
    whatever the buffer held, be it the cells of [np.empty] or the lattice
    of the sequence before. [_backward] reads the length of [log_pi] only,
    and the last column it leaves is [log 1]. *)
Theorem forward_and_backward_overwrite_their_buffer
    (log_pi log_pi' : list L) (log_A log_B : list (list L)) (S T : nat)
    (seq : list nat) (buf buf' : list (list L)) :
  length log_pi = S -> length log_pi' = S ->
  shape2 S S log_A -> length log_B = S ->
  length seq = T -> 1 <= T -> 1 <= S ->
  shape2 S T buf -> shape2 S T buf' ->
  _forward seq log_pi log_A log_B buf = _forward seq log_pi log_A log_B buf' /\
  _backward seq log_pi log_A log_B buf = _backward seq log_pi' log_A log_B buf' /\
  forall s, s < S ->
    lget2 (_backward seq log_pi log_A log_B buf) s (T - 1) = np_log p1.
Proof.
  intros Hpi Hpi' HA HB Hseq HT HS Hbuf Hbuf'.
  split; [| split].
  - destruct (forward_lattice log_pi log_A log_B S T seq Hpi (proj1 HA) HB
                Hseq buf Hbuf HT) as (Hsh & Hcells & Hret).
    destruct (forward_lattice log_pi log_A log_B S T seq Hpi (proj1 HA) HB
                Hseq buf' Hbuf' HT) as (Hsh' & Hcells' & Hret').
    apply injective_projections; [| congruence].
    rewrite (matrix_tabulate uninit _ S T
               (fun s t => alpha_spec log_pi log_A log_B S seq t s) Hsh
               (fun s t Hs Ht => Hcells t s Ht Hs)).
    symmetry.
    exact (matrix_tabulate uninit _ S T
             (fun s t => alpha_spec log_pi log_A log_B S seq t s) Hsh'
             (fun s t Hs Ht => Hcells' t s Ht Hs)).
  - destruct (backward_lattice log_pi log_A log_B S T seq Hpi HA HB Hseq
                buf Hbuf HT HS) as (Hsh & Hcells).
    destruct (backward_lattice log_pi' log_A log_B S T seq Hpi' HA HB Hseq
                buf' Hbuf' HT HS) as (Hsh' & Hcells').
    rewrite (matrix_tabulate uninit _ S T
               (fun s t => beta_spec log_A log_B S seq t s) Hsh
               (fun s t Hs Ht => Hcells t s Ht Hs)).
    symmetry.
    exact (matrix_tabulate uninit _ S T
             (fun s t => beta_spec log_A log_B S seq t s) Hsh'
             (fun s t Hs Ht => Hcells' t s Ht Hs)).
  - intros s Hs.
    destruct (backward_lattice log_pi log_A log_B S T seq Hpi HA HB Hseq
                buf Hbuf HT HS) as (_ & Hcells).
    rewrite Hcells by lia. unfold beta_spec. rewrite Hseq.
    by rewrite Nat.sub_diag.
Qed.

(** [_viterbi] writes the columns of [back_path] from the second on. *)
Lemma viterbi_first_back_links
    (log_pi : list L) (log_A log_B : list (list L)) (S T : nat)
    (seq : list nat) (log_V : list (list L)) (bp : list (list nat)) :
  length log_pi = S -> length log_A = S -> length log_B = S ->
  length seq = T -> 1 <= T ->
  shape2 S T log_V -> shape2 S T bp ->
  forall s, get2 0 (snd (_viterbi seq log_pi log_A log_B log_V bp)) s 0
            = get2 0 bp s 0.
Proof.
  intros Hpi HA HB Hseq HT HV Hbp. unfold _viterbi. rewrite Hpi, Hseq.
  destruct (forward_init log_pi log_A log_B S T seq Hpi HA HB Hseq log_V HV HT)
    as [Hsh0 _].
  set (m0 := set_col log_V 0 _) in *.
  set (body := fun t => for_range 0 S (fun s => viterbi_cell seq log_A log_B t s)).
  enough (shape2 S T (fst (for_range 1 T body (m0, bp))) /\
          shape2 S T (snd (for_range 1 T body (m0, bp))) /\
          forall s, get2 0 (snd (for_range 1 T body (m0, bp))) s 0
                    = get2 0 bp s 0) as (_ & _ & H) by exact H.
  apply (for_range_ind (fun k st =>
    shape2 S T (fst st) /\ shape2 S T (snd st) /\
    forall s, get2 0 (snd st) s 0 = get2 0 bp s 0)); [lia | done |].
  intros t [V' bp'] Ht (HV' & Hbp' & Hkeep). cbn [fst snd] in HV', Hbp', Hkeep.
  destruct (viterbi_column log_pi log_A log_B S T seq Hpi HA HB Hseq
              V' bp' t HV' Hbp' ltac:(lia))
    as (HshV & Hshb & _ & [_ Hagb] & _).
  split; [exact HshV |]. split; [exact Hshb |].
  intros s. unfold body. rewrite <- Hagb by lia. apply Hkeep.
Qed.

(** X7. [_viterbi] overwrites [log_V] but never writes the first column of
    [back_path], which keeps what the buffer held; the path that
    [_get_best_path] then reads off does not depend on it, nor on anything
    else the three buffers held before. *)
Theorem viterbi_keeps_the_first_back_links_and_decoding_ignores_them
    (log_pi : list L) (log_A log_B : list (list L)) (S T : nat)
    (seq : list nat) (log_V log_V' : list (list L))
    (bp bp' : list (list nat)) (best best' : list nat) :
  length log_pi = S -> length log_A = S -> length log_B = S ->
  length seq = T -> 1 <= T -> 1 <= S ->
  shape2 S T log_V -> shape2 S T bp -> length best = T ->
  shape2 S T log_V' -> shape2 S T bp' -> length best' = T ->
  let st := _viterbi seq log_pi log_A log_B log_V bp in
  let st' := _viterbi seq log_pi log_A log_B log_V' bp' in
  (forall s, get2 0 (snd st) s 0 = get2 0 bp s 0) /\
  fst st = fst st' /\
  (forall t s, 1 <= t < T -> s < S -> get2 0 (snd st) s t = get2 0 (snd st') s t) /\
  _get_best_path (fst st) (snd st) best
  = _get_best_path (fst st') (snd st') best'.
Proof.
  intros Hpi HA HB Hseq HT HS HV Hbp Hbest HV' Hbp' Hbest'. cbv zeta.
  destruct (viterbi_lattice log_pi log_A log_B S T seq Hpi HA HB Hseq
              log_V bp HV Hbp HT) as (H1 & H2 & H3 & H4).
  destruct (viterbi_lattice log_pi log_A log_B S T seq Hpi HA HB Hseq
              log_V' bp' HV' Hbp' HT) as (H1' & H2' & H3' & H4').
  split; [by apply (viterbi_first_back_links log_pi log_A log_B S T) |].
  split.
  { rewrite (matrix_tabulate uninit _ S T
               (fun s t => V_spec log_pi log_A log_B S seq t s) H1
               (fun s t Hs Ht => H3 t s Ht Hs)).
    symmetry.
    exact (matrix_tabulate uninit _ S T
             (fun s t => V_spec log_pi log_A log_B S seq t s) H1'
             (fun s t Hs Ht => H3' t s Ht Hs)). }
  split; [intros t s Ht Hs; by rewrite H4, H4' |].
  rewrite (get_best_path_walk log_pi log_A log_B S T seq Hseq HS HT _ _ best
             H1 H2 Hbest (fun s Hs => H3 (T - 1) s ltac:(lia) Hs) H4).
  symmetry.
  exact (get_best_path_walk log_pi log_A log_B S T seq Hseq HS HT _ _ best'
           H1' H2' Hbest' (fun s Hs => H3' (T - 1) s ltac:(lia) Hs) H4').
Qed.
End Buffers.

Lemma forward_and_backward_overwrite_their_buffer_witness :
  _forward Exact.toy_seq (log_of_pi (Exact.toy_model 10))
    (log_of_A (Exact.toy_model 10)) (log_of_B (Exact.toy_model 10))
    (full2 uninit 2 8)
  = _forward Exact.toy_seq (log_of_pi (Exact.toy_model 10))
      (log_of_A (Exact.toy_model 10)) (log_of_B (Exact.toy_model 10))
      (full2 neg_inf 2 8) /\
  _backward Exact.toy_seq (log_of_pi (Exact.toy_model 10))
    (log_of_A (Exact.toy_model 10)) (log_of_B (Exact.toy_model 10))
    (full2 uninit 2 8)
  = _backward Exact.toy_seq [neg_inf; neg_inf]
      (log_of_A (Exact.toy_model 10)) (log_of_B (Exact.toy_model 10))
      (full2 neg_inf 2 8) /\
  forall s, s < 2 ->
    lget2 (_backward Exact.toy_seq (log_of_pi (Exact.toy_model 10))
             (log_of_A (Exact.toy_model 10)) (log_of_B (Exact.toy_model 10))
             (full2 uninit 2 8)) s (8 - 1)
    = np_log p1.
Proof.
  apply (forward_and_backward_overwrite_their_buffer
           (log_of_pi (Exact.toy_model 10)) [neg_inf; neg_inf]
           (log_of_A (Exact.toy_model 10)) (log_of_B (Exact.toy_model 10))
           2 8 Exact.toy_seq (full2 uninit 2 8) (full2 neg_inf 2 8));
    try reflexivity; try lia; try apply shape2_full2.
  apply (well_formed_logs 2 3 _ (toy_model_well_formed 10)).
Defined.

Lemma viterbi_keeps_the_first_back_links_and_decoding_ignores_them_witness :
  _get_best_path
    (fst (_viterbi Exact.toy_seq (log_of_pi (Exact.toy_model 10))
            (log_of_A (Exact.toy_model 10)) (log_of_B (Exact.toy_model 10))
            (full2 uninit 2 8) (full2 uninit_int 2 8)))
    (snd (_viterbi Exact.toy_seq (log_of_pi (Exact.toy_model 10))
            (log_of_A (Exact.toy_model 10)) (log_of_B (Exact.toy_model 10))
            (full2 uninit 2 8) (full2 uninit_int 2 8)))
    (repeat uninit_int 8)
  = _get_best_path
      (fst (_viterbi Exact.toy_seq (log_of_pi (Exact.toy_model 10))
              (log_of_A (Exact.toy_model 10)) (log_of_B (Exact.toy_model 10))
              (full2 neg_inf 2 8) (full2 1 2 8)))
      (snd (_viterbi Exact.toy_seq (log_of_pi (Exact.toy_model 10))
              (log_of_A (Exact.toy_model 10)) (log_of_B (Exact.toy_model 10))
              (full2 neg_inf 2 8) (full2 1 2 8)))
      (repeat 0 8).
Proof.
  apply (viterbi_keeps_the_first_back_links_and_decoding_ignores_them
           (log_of_pi (Exact.toy_model 10)) (log_of_A (Exact.toy_model 10))
           (log_of_B (Exact.toy_model 10)) 2 8 Exact.toy_seq
           (full2 uninit 2 8) (full2 neg_inf 2 8)
           (full2 uninit_int 2 8) (full2 1 2 8)
           (repeat uninit_int 8) (repeat 0 8));
    try reflexivity; try lia; apply shape2_full2.
Defined.

(** ** Runs of [EM] *)

Section EMRuns.
Context {P L : Type} `{FL : Floats P L}.
Implicit Types h : HMM.self P L.

Lemma scratch_run_ok log_pi log_A log_B S T sc sequences :
  scratch_ok S T sc -> Forall (fun seq => length seq = T) sequences ->
  scratch_ok S T (scratch_run log_pi log_A log_B S sc sequences).
Proof.
  intros Hsc Hall. revert sc Hsc. unfold scratch_run.
  induction Hall as [| seq rest Hseq _ IH]; intros sc Hsc; [done |].
  cbn [fold_left]. apply IH. by apply scratch_after_ok.
Qed.

Lemma shape2_mpadd r c (m n : list (list P)) :
  shape2 r c m -> shape2 r c n -> shape2 r c (mpadd m n).
Proof.
  intros [Hm1 Hm2] [Hn1 Hn2]. unfold mpadd, vpadd. split.
  - rewrite length_zip_with. lia.
  - rewrite Forall_forall in Hm2, Hn2. apply Forall_forall. intros row Hin.
    apply list_elem_of_lookup in Hin as [i Hi].
    apply lookup_zip_with_Some in Hi as (u & v & -> & Hu & Hv).
    rewrite length_zip_with.
    rewrite (Hm2 u) by (apply list_elem_of_lookup; eauto).
    rewrite (Hn2 v) by (apply list_elem_of_lookup; eauto). lia.
Qed.

(** The shapes of the accumulators of an iteration. *)
Lemma accumulated_shapes log_pi log_A log_B S K T
    (pi : list P) (A B : list (list P)) sequences :
  1 <= S -> 1 <= T -> Forall (fun seq => length seq = T) sequences ->
  length pi = S -> shape2 S S A -> shape2 S K B ->
  let acc := accumulated log_pi log_A log_B S pi A B sequences in
  length (HMM.pi_acc acc) = S /\ shape2 S S (HMM.A_acc acc) /\
  shape2 S K (HMM.B_acc acc).
Proof.
  intros HS HT Hall Hpi HA HB. cbv zeta. unfold accumulated.
  assert (length (HMM.pi_acc (HMM.mk_acc (zeros_like1 pi) (zeros_like2 A)
                                (zeros_like2 B))) = S /\
          shape2 S S (HMM.A_acc (HMM.mk_acc (zeros_like1 pi) (zeros_like2 A)
                                   (zeros_like2 B))) /\
          shape2 S K (HMM.B_acc (HMM.mk_acc (zeros_like1 pi) (zeros_like2 A)
                                   (zeros_like2 B)))) as H0.
  { cbn. split; [unfold zeros_like1; by rewrite List.length_map |].
    split; by apply shape2_zeros_like2. }
  revert H0. generalize (HMM.mk_acc (zeros_like1 pi) (zeros_like2 A)
                           (zeros_like2 B)).
  induction Hall as [| seq rest Hseq _ IH]; intros acc H0; [exact H0 |].
  cbn [fold_left]. apply IH. destruct H0 as (H1 & H2 & H3).
  split; [| split].
  - unfold acc_step. cbn [HMM.pi_acc]. unfold vpadd.
    rewrite length_zip_with, List.length_map, length_seq. lia.
  - unfold acc_step. cbn [HMM.A_acc].
    apply shape2_mpadd; [done | apply shape2_tabulate2].
  - by apply (shape2_acc_step _ _ _ S K T).
Qed.

Lemma shape2_normalize_axis1 r c (m : list (list P)) :
  shape2 r c m -> shape2 r c (_normalize_axis1 m).
Proof.
  intros [Hr Hc]. unfold _normalize_axis1, _normalize.
  split; [by rewrite List.length_map |].
  apply Forall_map. eapply Forall_impl; [exact Hc |].
  intros row Hrow. simpl. by rewrite List.length_map.
Qed.

(** One iteration keeps the shape invariant. *)
Lemma em_next_well_formed S K T h sequences :
  well_formed S K h -> 1 <= S -> 1 <= T ->
  Forall (fun seq => length seq = T) sequences ->
  well_formed S K (em_next S sequences h).
Proof.
  intros (Hn & Hpi & HA & HB & Hc) HS HT Hall.
  destruct (accumulated_shapes (log_of_pi h) (log_of_A h) (log_of_B h)
              S K T (HMM.pi h) (HMM.A h) (HMM.B h) sequences
              HS HT Hall Hpi HA HB) as (H1 & H2 & H3).
  unfold well_formed, em_next. cbn.
  split; [done |].
  split; [unfold _normalize; by rewrite List.length_map |].
  split; [by apply shape2_normalize_axis1 |].
  split; [by apply shape2_normalize_axis1 |].
  by repeat split.
Qed.

(** One iteration with the consistency checks off. *)
Lemma EM_iteration_unchecked S K T h sequences sc :
  well_formed S K h -> 1 <= S -> HMM.sanity_checks_enabled h = false ->
  corpus_ok T K sequences -> scratch_ok S T sc ->
  HMM.EM_iteration sequences T sc h
  = (inr (scratch_run (log_of_pi h) (log_of_A h) (log_of_B h) S sc sequences),
     em_next S sequences h).
Proof.
  intros Hwf HS Hsan (Hne & HT & Hall) Hsc.
  pose proof Hwf as (_ & _ & _ & HB & Hc).
  pose proof (E_steps_spec S K T h sequences sc
                (HMM.mk_acc (zeros_like1 (HMM.pi h)) (zeros_like2 (HMM.A h))
                   (zeros_like2 (HMM.B h)))
                Hwf HS Hsan HT Hall Hsc (shape2_zeros_like2 S K _ HB)) as Hloop.
  assert (match sequences with [] => h | _ => warm h end = warm h) as Hwarm
    by (by destruct sequences).
  rewrite Hwarm in Hloop.
  unfold HMM.EM_iteration. rewrite !bind_gets.
  rewrite (bind_ok _ _ _ _ _ Hloop).
  rewrite (warm_record h Hc).
  unfold HMM.set_pi, HMM.set_A, HMM.set_B, modify, bind, gets, ret.
  cbn. unfold HMM.sanity_checks_enabled in *. rewrite Hsan. done.
Qed.

(** The loop of [EM]. *)
Lemma EM_loop S K T sequences count :
  1 <= S -> corpus_ok T K sequences ->
  forall lo h sc,
    well_formed S K h -> HMM.sanity_checks_enabled h = false ->
    scratch_ok S T sc ->
    exists sc',
      forM (List.seq lo count) (fun _ => HMM.EM_iteration sequences T) sc h
      = (inr sc', Nat.iter count (em_next S sequences) h) /\
      well_formed S K (Nat.iter count (em_next S sequences) h).
Proof.
  intros HS Hcorpus. pose proof Hcorpus as (_ & HT & Hall).
  assert (Forall (fun seq => length seq = T) sequences) as Hlen
    by (by apply (corpus_lengths T K)).
  induction count as [| count IH]; intros lo h sc Hwf Hsan Hsc.
  - exists sc. by split.
  - cbn [List.seq forM].
    rewrite (bind_ok _ _ _ _ _
               (EM_iteration_unchecked S K T h sequences sc Hwf HS Hsan
                  Hcorpus Hsc)).
    destruct (IH (Datatypes.S lo) (em_next S sequences h)
                (scratch_run (log_of_pi h) (log_of_A h) (log_of_B h) S sc
                   sequences))
      as (sc' & Hrun & Hwf').
    + by apply (em_next_well_formed S K T).
    + exact Hsan.
    + by apply scratch_run_ok.
    + exists sc'. rewrite Nat.iter_succ_r. by split.
Qed.

(** [EM] on a model of consistent shapes, its checks off, and a corpus of
    observations: the call returns, and the object is the one that
    [n_iter h] iterations leave. *)
Lemma EM_run S K T h sequences (n : nat) :
  well_formed S K h -> 1 <= S -> HMM.sanity_checks_enabled h = false ->
  corpus_ok T K sequences ->
  HMM.EM sequences n h
  = (inr tt, Nat.iter (HMM.n_iter h) (em_next S sequences) h) /\
  well_formed S K (Nat.iter (HMM.n_iter h) (em_next S sequences) h).
Proof.
  intros Hwf HS Hsan Hcorpus. pose proof Hcorpus as (_ & HT & _).
  destruct (corpus_np_array (P := P) T K sequences Hcorpus) as [Harr Hshape].
  destruct (EM_loop S K T sequences (HMM.n_iter h) HS Hcorpus 0 h
              (HMM.mk_scratch (full2 uninit S T) (full2 uninit S T)
                 (empty3 S S (T - 1)) (full2 uninit S T)) Hwf Hsan)
    as (sc' & Hrun & Hwf').
  { split; [apply shape2_full2 |]. split; [apply shape2_full2 |].
    apply (shape3_repeat S S (T - 1)). }
  split; [| exact Hwf'].
  unfold HMM.EM.
  rewrite (bind_ok _ _ h sequences h) by (by apply lift_ok).
  rewrite (bind_ok _ _ h T h) by (by apply lift_ok).
  rewrite bind_gets. destruct Hwf as [-> _].
  destruct (T =? 0) eqn:HT0; [apply Nat.eqb_eq in HT0; lia |].
  unfold ret at 1. unfold bind at 1. rewrite bind_gets.
  by rewrite (bind_ok _ _ _ _ _ Hrun).
Qed.

(** What an iteration does not touch. *)
Lemma iter_em_next_attributes S sequences h k :
  let h' := Nat.iter k (em_next S sequences) h in
  HMM.n_iter h' = HMM.n_iter h /\
  HMM.n_hidden_states h' = HMM.n_hidden_states h /\
  HMM.n_observable_states h' = HMM.n_observable_states h /\
  HMM._enable_sanity_checks h' = HMM._enable_sanity_checks h.
Proof.
  cbv zeta. induction k as [| k IH]; [done |].
  rewrite Nat.iter_succ. exact IH.
Qed.

(** X8. [EM] on a model of consistent shapes, its consistency checks off,
    with any non-empty corpus of sequences of one positive length, raises
    nothing and returns [None]; it leaves the tables with the shapes they
    had, the iteration count, the two sizes and the switch of the checks
    as they were, and, if the count is zero, the whole object as it was.
    The logs read after the call are those of the tables it left, not
    those of the tables it replaced. *)
Theorem EM_returns_and_keeps_the_shapes
    (S K T : nat) (h : HMM.self P L) (sequences : list (list nat)) (n : nat) :
  well_formed S K h -> 1 <= S -> HMM.sanity_checks_enabled h = false ->
  corpus_ok T K sequences ->
  fst (HMM.EM sequences n h) = inr tt /\
  let h' := snd (HMM.EM sequences n h) in
  well_formed S K h' /\
  HMM.n_iter h' = HMM.n_iter h /\
  HMM.n_hidden_states h' = HMM.n_hidden_states h /\
  HMM.n_observable_states h' = HMM.n_observable_states h /\
  HMM._enable_sanity_checks h' = HMM._enable_sanity_checks h /\
  (HMM.n_iter h = 0 -> h' = h) /\
  fst (HMM._log_pi h') = inr (map np_log (HMM.pi h')) /\
  fst (HMM._log_A h') = inr (map (map np_log) (HMM.A h')) /\
  fst (HMM._log_B h') = inr (map (map np_log) (HMM.B h')).
Proof.
  intros Hwf HS Hsan Hcorpus.
  destruct (EM_run S K T h sequences n Hwf HS Hsan Hcorpus) as [Hrun Hwf'].
  rewrite Hrun. cbn [fst snd]. split; [done |]. split; [exact Hwf' |].
  destruct (iter_em_next_attributes S sequences h (HMM.n_iter h))
    as (H1 & H2 & H3 & H4).
  repeat (split; [done |]).
  split; [by intros -> |].
  destruct Hwf' as (_ & _ & _ & _ & Hc).
  rewrite (read_log_pi _ Hc), (read_log_A _ Hc), (read_log_B _ Hc).
  by repeat split.
Qed.

Lemma em_next_with_n_iter S sequences n h :
  em_next S sequences (with_n_iter n h)
  = with_n_iter n (em_next S sequences h).
Proof. reflexivity. Qed.

Lemma iter_em_next_with_n_iter S sequences n k h :
  Nat.iter k (em_next S sequences) (with_n_iter n h)
  = with_n_iter n (Nat.iter k (em_next S sequences) h).
Proof.
  induction k as [| k IH]; [done |].
  by rewrite !Nat.iter_succ, IH, em_next_with_n_iter.
Qed.

Lemma well_formed_with_n_iter S K n h :
  well_formed S K h -> well_formed S K (with_n_iter n h).
Proof. intros H. exact H. Qed.

(** X9. Iterations compose. On a model of consistent shapes, its checks
    off, and a corpus of observations, the object after [EM] is [n_iter]
    applications of one update of the object, which the buffers of the
    call do not enter; so a call with the count set to [a] followed by a
    call with the count set to [b] leaves the object that one call with
    the count [a + b] leaves. *)
Theorem EM_then_EM_adds_the_counts
    (S K T : nat) (h : HMM.self P L) (sequences : list (list nat))
    (a b n1 n2 n3 : nat) :
  well_formed S K h -> 1 <= S -> HMM.sanity_checks_enabled h = false ->
  corpus_ok T K sequences ->
  snd (HMM.EM sequences n1 h)
  = Nat.iter (HMM.n_iter h) (em_next S sequences) h /\
  snd (HMM.EM sequences n2
         (with_n_iter b (snd (HMM.EM sequences n1 (with_n_iter a h)))))
  = with_n_iter b (snd (HMM.EM sequences n3 (with_n_iter (a + b) h))).
Proof.
  intros Hwf HS Hsan Hcorpus.
  assert (forall k h0 n0,
            well_formed S K h0 -> HMM.sanity_checks_enabled h0 = false ->
            HMM.n_iter h0 = k ->
            snd (HMM.EM sequences n0 h0) = Nat.iter k (em_next S sequences) h0 /\
            well_formed S K (Nat.iter k (em_next S sequences) h0)) as Hrun.
  { intros k h0 n0 Hwf0 Hsan0 <-.
    destruct (EM_run S K T h0 sequences n0 Hwf0 HS Hsan0 Hcorpus) as [-> Hw].
    by split. }
  split; [exact (proj1 (Hrun _ h n1 Hwf Hsan eq_refl)) |].
  destruct (Hrun a (with_n_iter a h) n1 Hwf Hsan eq_refl) as [E1 W1].
  rewrite E1.
  assert (HMM.sanity_checks_enabled
            (with_n_iter b (Nat.iter a (em_next S sequences) (with_n_iter a h)))
          = false) as Hsan2.
  { rewrite iter_em_next_with_n_iter. unfold HMM.sanity_checks_enabled.
    cbn [with_n_iter HMM._enable_sanity_checks].
    destruct (iter_em_next_attributes S sequences h a) as (_ & _ & _ & ->).
    exact Hsan. }
  destruct (Hrun b (with_n_iter b
                      (Nat.iter a (em_next S sequences) (with_n_iter a h)))
              n2 W1 Hsan2 eq_refl) as [E2 _].
  rewrite E2.
  destruct (Hrun (a + b) (with_n_iter (a + b) h) n3 Hwf Hsan eq_refl)
    as [E3 _].
  rewrite E3. rewrite !iter_em_next_with_n_iter.
  rewrite <- Nat.iter_add, (Nat.add_comm b a). reflexivity.
Qed.
End EMRuns.

Lemma toy_pair_corpus_ok : corpus_ok 2 3 [[0; 1]].
Proof. split; [done |]. split; [lia |]. repeat constructor. Qed.

Lemma EM_returns_and_keeps_the_shapes_witness :
  fst (HMM.EM [[0; 1]] 100 (Exact.toy_model 2)) = inr tt /\
  let h' := snd (HMM.EM [[0; 1]] 100 (Exact.toy_model 2)) in
  well_formed 2 3 h' /\
  HMM.n_iter h' = HMM.n_iter (Exact.toy_model 2) /\
  HMM.n_hidden_states h' = HMM.n_hidden_states (Exact.toy_model 2) /\
  HMM.n_observable_states h' = HMM.n_observable_states (Exact.toy_model 2) /\
  HMM._enable_sanity_checks h' = HMM._enable_sanity_checks (Exact.toy_model 2) /\
  (HMM.n_iter (Exact.toy_model 2) = 0 -> h' = Exact.toy_model 2) /\
  fst (HMM._log_pi h') = inr (map np_log (HMM.pi h')) /\
  fst (HMM._log_A h') = inr (map (map np_log) (HMM.A h')) /\
  fst (HMM._log_B h') = inr (map (map np_log) (HMM.B h')).
Proof.
  apply (EM_returns_and_keeps_the_shapes 2 3 2 (Exact.toy_model 2) [[0; 1]] 100
           (toy_model_well_formed 2)); [lia | reflexivity |].
  exact toy_pair_corpus_ok.
Defined.

Lemma EM_then_EM_adds_the_counts_witness :
  snd (HMM.EM [[0; 1]] 100 (Exact.toy_model 2))
  = Nat.iter (HMM.n_iter (Exact.toy_model 2)) (em_next 2 [[0; 1]])
      (Exact.toy_model 2) /\
  snd (HMM.EM [[0; 1]] 100
         (with_n_iter 1 (snd (HMM.EM [[0; 1]] 100
                                (with_n_iter 1 (Exact.toy_model 2))))))
  = with_n_iter 1 (snd (HMM.EM [[0; 1]] 100
                          (with_n_iter (1 + 1) (Exact.toy_model 2)))).
Proof.
  apply (EM_then_EM_adds_the_counts 2 3 2 (Exact.toy_model 2) [[0; 1]]
           1 1 100 100 100 (toy_model_well_formed 2));
    [lia | reflexivity |].
  exact toy_pair_corpus_ok.
Defined.

(** ** [EM] on sequences of one observation *)

Section SingleObservation.
Context {P L : Type} `{FL : Floats P L}.
Implicit Types h : HMM.self P L.
Hypothesis padd_zero : padd p0 p0 = p0.

Lemma map_const_repeat {X Y} (y : Y) (l : list X) :
  map (fun _ => y) l = repeat y (length l).
Proof. induction l as [| x l IH]; [done |]. simpl. by rewrite IH. Qed.

Lemma zeros_like2_repeat r c (m : list (list P)) :
  shape2 r c m -> zeros_like2 m = repeat (repeat p0 c) r.
Proof.
  intros [<- Hc]. unfold zeros_like2, zeros_like1.
  induction Hc as [| row m Hrow _ IH]; [done |].
  simpl. by rewrite IH, map_const_repeat, Hrow.
Qed.

Lemma tabulate2_const {X} r c (x : X) :
  tabulate2 r c (fun _ _ => x) = repeat (repeat x c) r.
Proof.
  unfold tabulate2.
  by rewrite !map_const_repeat, !length_seq.
Qed.

Lemma vpadd_zeros n : vpadd (repeat p0 n) (repeat p0 n) = repeat p0 n.
Proof.
  unfold vpadd. induction n as [| n IH]; [done |].
  simpl. by rewrite IH, padd_zero.
Qed.

Lemma mpadd_zeros r c :
  mpadd (repeat (repeat p0 c) r) (repeat (repeat p0 c) r)
  = repeat (repeat p0 c) r.
Proof.
  unfold mpadd. induction r as [| r IH]; [done |].
  simpl. by rewrite IH, vpadd_zeros.
Qed.

(** Nothing is ever added to the accumulator of [A]: each sequence
    adds the sum over the empty range of [t]. *)
Lemma A_acc_single_observations log_pi log_A log_B S
    (sequences : list (list nat)) (acc : HMM.accumulators P) :
  Forall (fun seq => length seq = 1) sequences ->
  HMM.A_acc acc = repeat (repeat p0 S) S ->
  HMM.A_acc (fold_left (acc_step log_pi log_A log_B S) sequences acc)
  = repeat (repeat p0 S) S.
Proof.
  intros Hall. revert acc.
  induction Hall as [| seq rest Hseq _ IH]; intros acc Hacc; [done |].
  cbn [fold_left]. apply IH. unfold acc_step. cbn [HMM.A_acc].
  rewrite Hacc, Hseq. cbn [Nat.sub List.seq map].
  change (psum []) with p0.
  by rewrite (tabulate2_const S S p0), mpadd_zeros.
Qed.

Lemma em_next_single_observations S K h sequences :
  well_formed S K h -> Forall (fun seq => length seq = 1) sequences ->
  HMM.A (em_next S sequences h) = _normalize_axis1 (repeat (repeat p0 S) S).
Proof.
  intros (_ & _ & HA & _) Hall. unfold em_next.
  cbn [HMM.A HMM.transitions]. unfold accumulated.
  rewrite A_acc_single_observations; [done | done |].
  cbn [HMM.A_acc]. by apply zeros_like2_repeat.
Qed.

Lemma iter_em_next_well_formed S K T h sequences k :
  well_formed S K h -> 1 <= S -> 1 <= T ->
  Forall (fun seq => length seq = T) sequences ->
  well_formed S K (Nat.iter k (em_next S sequences) h).
Proof.
  intros Hwf HS HT Hall. induction k as [| k IH]; [done |].
  rewrite Nat.iter_succ. by apply (em_next_well_formed S K T).
Qed.

(** X10. When every sequence holds one observation, [log_E] has no column
    and each sequence adds the empty sum to the accumulator of [A]. So
    (with [0.0 + 0.0 = 0.0], and the checks off) [EM] with at least one
    iteration returns and leaves as [A] what [_normalize] makes of the
    matrix of zeros, whatever [A] and the observations were: the
    transition table is lost. *)
Theorem EM_on_single_observations_loses_A
    (S K : nat) (h : HMM.self P L) (sequences : list (list nat)) (n : nat) :
  well_formed S K h -> 1 <= S -> HMM.sanity_checks_enabled h = false ->
  corpus_ok 1 K sequences -> 1 <= HMM.n_iter h ->
  fst (HMM.EM sequences n h) = inr tt /\
  HMM.A (snd (HMM.EM sequences n h))
  = _normalize_axis1 (repeat (repeat p0 S) S).
Proof.
  intros Hwf HS Hsan Hcorpus Hiter.
  destruct (EM_run S K 1 h sequences n Hwf HS Hsan Hcorpus) as [-> _].
  split; [done |]. cbn [snd].
  pose proof (corpus_lengths 1 K sequences Hcorpus) as Hall.
  destruct (HMM.n_iter h) as [| k]; [lia |].
  rewrite Nat.iter_succ.
  apply (em_next_single_observations S K); [| done].
  by apply (iter_em_next_well_formed S K 1).
Qed.
End SingleObservation.

Lemma EM_on_single_observations_loses_A_witness :
  fst (HMM.EM [[0]; [2]] 100 (Exact.toy_model 3)) = inr tt /\
  HMM.A (snd (HMM.EM [[0]; [2]] 100 (Exact.toy_model 3)))
  = _normalize_axis1 (repeat (repeat p0 2) 2).
Proof.
  apply (EM_on_single_observations_loses_A (FL := Exact.floats)
           (Qcplus_0_l 0) 2 3
           (Exact.toy_model 3) [[0]; [2]] 100 (toy_model_well_formed 3));
    [lia | reflexivity | | simpl; lia].
  split; [done |]. split; [lia |]. repeat constructor.
Defined.

(** ** The log-likelihood of a corpus given in parts *)

Section CorpusParts.
Context {P L : Type} `{FL : Floats P L} {LS : LogSemiring FL}.
Hypothesis l0_log1 : l0 = np_log p1.

Lemma fold_ladd_shift (l : list L) (a c : L) :
  fold_left ladd l (ladd a c) = ladd a (fold_left ladd l c).
Proof.
  revert c. induction l as [| x l IH]; intros c; [done |].
  simpl. by rewrite <- ladd_assoc, IH.
Qed.

Lemma fold_ladd_app (l1 l2 : list L) :
  fold_left ladd (l1 ++ l2) l0
  = ladd (fold_left ladd l1 l0) (fold_left ladd l2 l0).
Proof.
  rewrite fold_left_app, <- fold_ladd_shift.
  by rewrite l0_log1, ladd_log1.
Qed.

Lemma fold_ladd_permutation (l l' : list L) :
  Permutation l l' -> forall a, fold_left ladd l a = fold_left ladd l' a.
Proof.
  induction 1 as [| x l l' _ IH | x y l | l l' l'' _ IH1 _ IH2]; intros a.
  - done.
  - simpl. apply IH.
  - simpl. f_equal.
    by rewrite <- !ladd_assoc, (ladd_comm y x).
  - by rewrite IH1, IH2.
Qed.

Lemma corpus_ok_app T K (X Y : list (list nat)) :
  corpus_ok T K X -> corpus_ok T K Y -> corpus_ok T K (X ++ Y).
Proof.
  intros (HX & HT & HallX) (_ & _ & HallY).
  split; [by destruct X |]. split; [done |]. by apply Forall_app.
Qed.

Lemma corpus_ok_permutation T K (X Z : list (list nat)) :
  corpus_ok T K X -> Permutation X Z -> corpus_ok T K Z.
Proof.
  intros (HX & HT & Hall) Hperm.
  split; [| split; [done | by rewrite <- Hperm]].
  intros ->. apply Permutation_nil_r in Hperm. done.
Qed.

(** X11. Where the log-space [+] is exact (a commutative monoid with unit
    [log 1 = 0]), [log_likelihood] of a corpus given as two parts is the
    sum of the log-likelihoods of the parts, the same for every order of
    the sequences, and, where [np.exp] turns [+] into the product,
    [likelihood] of the whole is the product of those of the parts. *)
Theorem log_likelihood_adds_over_the_parts_of_a_corpus
    (S K T : nat) (h : HMM.self P L) (X Y : list (list nat)) :
  well_formed S K h -> corpus_ok T K X -> corpus_ok T K Y ->
  exists a b,
    HMM.log_likelihood X h = (inr a, warm h) /\
    HMM.log_likelihood Y h = (inr b, warm h) /\
    HMM.log_likelihood (X ++ Y) h = (inr (ladd a b), warm h) /\
    (forall Z, Permutation (X ++ Y) Z ->
       HMM.log_likelihood Z h = (inr (ladd a b), warm h)) /\
    (ExpLaws FL ->
       HMM.likelihood (X ++ Y) h
       = (inr (pmul (np_exp a) (np_exp b)), warm h)).
Proof.
  intros Hwf HX HY.
  set (f := loglik_spec (log_of_pi h) (log_of_A h) (log_of_B h) S).
  exists (fold_left ladd (map f X) l0), (fold_left ladd (map f Y) l0).
  pose proof (corpus_ok_app T K X Y HX HY) as HXY.
  assert (HMM.log_likelihood (X ++ Y) h
          = (inr (ladd (fold_left ladd (map f X) l0)
                       (fold_left ladd (map f Y) l0)), warm h)) as Hall.
  { rewrite (log_likelihood_adds_sequences S K T h (X ++ Y) Hwf HXY).
    fold f. by rewrite List.map_app, fold_ladd_app. }
  split; [exact (log_likelihood_adds_sequences S K T h X Hwf HX) |].
  split; [exact (log_likelihood_adds_sequences S K T h Y Hwf HY) |].
  split; [exact Hall |]. split.
  - intros Z Hperm.
    rewrite (log_likelihood_adds_sequences S K T h Z Hwf
               (corpus_ok_permutation T K _ Z HXY Hperm)).
    fold f. rewrite <- (fold_ladd_permutation (map f (X ++ Y)) (map f Z))
      by (by apply Permutation_map).
    by rewrite List.map_app, fold_ladd_app.
  - intros EL. unfold HMM.likelihood.
    rewrite (bind_ok _ _ _ _ _ Hall). unfold ret. by rewrite np_exp_ladd.
Qed.
End CorpusParts.

Lemma log_likelihood_adds_over_the_parts_of_a_corpus_witness :
  exists a b,
    HMM.log_likelihood [Exact.toy_seq] (Exact.toy_model 10)
    = (inr a, warm (Exact.toy_model 10)) /\
    HMM.log_likelihood [Exact.toy_seq] (Exact.toy_model 10)
    = (inr b, warm (Exact.toy_model 10)) /\
    HMM.log_likelihood ([Exact.toy_seq] ++ [Exact.toy_seq]) (Exact.toy_model 10)
    = (inr (ladd a b), warm (Exact.toy_model 10)) /\
    (forall Z, Permutation ([Exact.toy_seq] ++ [Exact.toy_seq]) Z ->
       HMM.log_likelihood Z (Exact.toy_model 10)
       = (inr (ladd a b), warm (Exact.toy_model 10))) /\
    (ExpLaws Exact.floats ->
       HMM.likelihood ([Exact.toy_seq] ++ [Exact.toy_seq]) (Exact.toy_model 10)
       = (inr (pmul (np_exp a) (np_exp b)), warm (Exact.toy_model 10))).
Proof.
  exact (log_likelihood_adds_over_the_parts_of_a_corpus
           (LS := exact_log_semiring) eq_refl 2 3 8 (Exact.toy_model 10)
           [Exact.toy_seq] [Exact.toy_seq] (toy_model_well_formed 10)
           toy_corpus_ok toy_corpus_ok).
Defined.

(** ** The posteriors of the E-step *)

Section LogSumsOfLists.
Context {P L : Type} `{FL : Floats P L} {LS : LogSemiring FL}.

Lemma lse_app (l1 l2 : list L) :
  _logsumexp (l1 ++ l2) = _logsumexp [_logsumexp l1; _logsumexp l2].
Proof.
  induction l1 as [| x l1 IH]; simpl.
  - by rewrite lse_nil, lse2_comm, lse2_neg_inf.
  - rewrite (lse_cons x (l1 ++ l2)), IH, lse2_assoc.
    by rewrite <- (lse_cons x l1).
Qed.

Lemma lse_concat (ls : list (list L)) :
  _logsumexp (concat ls) = _logsumexp (map _logsumexp ls).
Proof.
  induction ls as [| l ls IH]; simpl; [done |].
  by rewrite lse_app, IH, <- (lse_cons (_logsumexp l)).
Qed.
End LogSumsOfLists.

Section Posteriors.
Context {P L : Type} `{FL : Floats P L}.
Context {LS : LogSemiring FL} {EL : ExpLaws FL} {QL : QuotientLaws FL}.
Variables (log_pi : list L) (log_A log_B : list (list L)).
Variables (S : nat) (seq : list nat).

Local Abbreviation alpha := (alpha_spec log_pi log_A log_B S seq).
Local Abbreviation beta := (beta_spec log_A log_B S seq).
Local Abbreviation log_E := (log_E_spec log_pi log_A log_B S seq).
Local Abbreviation log_gamma := (log_gamma_spec log_pi log_A log_B S seq).

Hypothesis Hpositive : loglik_spec log_pi log_A log_B S seq <> neg_inf.

Lemma seq_loglik_forward :
  seq_loglik log_pi log_A log_B S seq = loglik_spec log_pi log_A log_B S seq.
Proof. unfold seq_loglik. by rewrite sp_logsumexp_spec. Qed.

Lemma beta_step t i :
  t + 1 < length seq ->
  beta t i
  = lse_states S (fun j =>
      ladd (ladd (lget2 log_A i j) (lget2 log_B j (get1 0 seq (t + 1))))
           (beta (t + 1) j)).
Proof.
  intros Ht. unfold beta_spec.
  replace (length seq - 1 - t) with (Datatypes.S (length seq - 1 - (t + 1)))
    by lia.
  simpl. by replace (length seq - 1 - (length seq - 1 - (t + 1))) with (t + 1)
    by lia.
Qed.

(** [log_gamma[i, t]] is the log-sum-exp over [j] of [log_E[i, j, t]]. *)
Lemma log_gamma_marginal t i :
  t + 1 < length seq ->
  log_gamma i t = lse_states S (fun j => log_E i j t).
Proof.
  intros Ht. unfold log_gamma_spec, log_E_spec.
  rewrite (beta_step t i Ht). unfold lse_states.
  rewrite <- lse_map_ladd, lsub_lse, List.map_map. f_equal.
  apply map_ext. intros j. f_equal.
  by rewrite !ladd_assoc.
Qed.

(** Over the states, [log_gamma[:, t]] sums to [log 1]. *)
Lemma log_gamma_total t :
  t < length seq -> lse_states S (fun i => log_gamma i t) = l0.
Proof.
  intros Ht. unfold lse_states, log_gamma_spec.
  rewrite <- (List.map_map (fun i => ladd (alpha t i) (beta t i))
                (fun x => lsub x (seq_loglik log_pi log_A log_B S seq))).
  rewrite <- lsub_lse.
  pose proof (alpha_beta_loglik log_pi log_A log_B S seq t Ht) as Hab.
  unfold lse_states in Hab. rewrite Hab, seq_loglik_forward.
  by apply lsub_diag.
Qed.

(** Over the pairs of states, [log_E[:, :, t]] sums to [log 1]. *)
Lemma log_E_total t :
  t + 1 < length seq ->
  _logsumexp (concat (map (fun i => map (fun j => log_E i j t) (List.seq 0 S))
                        (List.seq 0 S)))
  = l0.
Proof.
  intros Ht. rewrite lse_concat, List.map_map.
  rewrite <- (log_gamma_total t) by lia. unfold lse_states. f_equal.
  apply map_ext. intros i. symmetry. by apply log_gamma_marginal.
Qed.

Lemma psum_exp (l : list L) : psum (map np_exp l) = np_exp (_logsumexp l).
Proof. symmetry. apply np_exp_lse. Qed.

Lemma gamma_marginal t i :
  t + 1 < length seq ->
  np_exp (log_gamma i t)
  = psum (map (fun j => np_exp (log_E i j t)) (List.seq 0 S)).
Proof.
  intros Ht. rewrite (log_gamma_marginal t i Ht). unfold lse_states.
  by rewrite np_exp_lse, List.map_map.
Qed.

Lemma gamma_total t :
  t < length seq ->
  psum (map (fun i => np_exp (log_gamma i t)) (List.seq 0 S)) = p1.
Proof.
  intros Ht.
  rewrite <- (List.map_map (fun i => log_gamma i t) np_exp), psum_exp.
  fold (lse_states S (fun i => log_gamma i t)).
  by rewrite log_gamma_total, np_exp_l0.
Qed.

Lemma E_total t :
  t + 1 < length seq ->
  psum (concat (map (fun i => map (fun j => np_exp (log_E i j t)) (List.seq 0 S))
                  (List.seq 0 S)))
  = p1.
Proof.
  intros Ht.
  assert (concat (map (fun i => map (fun j => np_exp (log_E i j t))
                                  (List.seq 0 S)) (List.seq 0 S))
          = map np_exp
              (concat (map (fun i => map (fun j => log_E i j t) (List.seq 0 S))
                         (List.seq 0 S)))) as ->.
  { rewrite concat_map, List.map_map. f_equal. apply map_ext.
    intros i. by rewrite List.map_map. }
  by rewrite psum_exp, log_E_total, np_exp_l0.
Qed.
End Posteriors.

(** ** The checks of the E-step *)

Section Checks.
Context {P L : Type} `{FL : Floats P L}.

Lemma forR_all {X} (xs : list X) (body : X -> res P unit) :
  (forall x, In x xs -> body x = inr tt) -> forR xs body = inr tt.
Proof.
  induction xs as [| x xs IH]; intros Hall; [done |].
  cbn [forR]. rewrite (Hall x) by (by left). cbn [res_bind].
  apply IH. intros y Hy. apply Hall. by right.
Qed.

Lemma tabulate2_map {X Y} (f : X -> Y) r c (g : nat -> nat -> X) :
  map (map f) (tabulate2 r c g) = tabulate2 r c (fun i j => f (g i j)).
Proof.
  unfold tabulate2. rewrite List.map_map. apply map_ext.
  intros i. by rewrite List.map_map.
Qed.

Lemma tabulate3_map {X Y} (f : X -> Y) a b c (g : nat -> nat -> nat -> X) :
  map (map (map f)) (tabulate3 a b c g)
  = tabulate3 a b c (fun i j t => f (g i j t)).
Proof.
  unfold tabulate3. rewrite List.map_map. apply map_ext.
  intros i. apply tabulate2_map.
Qed.

Lemma slice_tabulate3 {X} (d : X) a b c (g : nat -> nat -> nat -> X) t :
  t < c ->
  slice_t d (tabulate3 a b c g) t
  = map (fun i => map (fun j => g i j t) (List.seq 0 b)) (List.seq 0 a).
Proof.
  intros Ht. unfold slice_t, tabulate3. rewrite List.map_map.
  apply map_ext. intros i. by apply col_tabulate2.
Qed.

Lemma ncols_tabulate2 {X} r c (g : nat -> nat -> X) :
  1 <= r -> ncols (tabulate2 r c g) = c.
Proof.
  intros Hr. apply (ncols_shape2 r c); [apply shape2_tabulate2 | lia].
Qed.

Context {LS : LogSemiring FL} {EL : ExpLaws FL} {QL : QuotientLaws FL}.

(** The three checks pass on the posteriors of a sequence that the
    model does not exclude. *)
Lemma E_step_checks_pass (log_pi : list L) (log_A log_B : list (list L))
    (S T : nat) (seq : list nat) :
  1 <= S -> length seq = T ->
  loglik_spec log_pi log_A log_B S seq <> neg_inf ->
  HMM.E_step_checks T S
    (tabulate3 S S (T - 1) (log_E_spec log_pi log_A log_B S seq))
    (tabulate2 S T (log_gamma_spec log_pi log_A log_B S seq))
  = inr tt.
Proof.
  intros HS Hseq Hpos. unfold HMM.E_step_checks.
  rewrite tabulate3_map, tabulate2_map.
  rewrite (ncols_tabulate2 S T) by done.
  rewrite forR_all; cbn [res_bind].
  2:{ intros t Ht. apply in_seq in Ht.
      unfold _check_array_sums_to_1.
      rewrite slice_tabulate3 by lia.
      rewrite (E_total log_pi log_A log_B S seq Hpos t) by lia.
      by rewrite sums_to_1_p1. }
  rewrite forR_all; cbn [res_bind].
  2:{ intros t Ht. apply in_seq in Ht.
      unfold _check_array_sums_to_1.
      rewrite col_tabulate2 by lia.
      rewrite (gamma_total log_pi log_A log_B S seq Hpos t) by lia.
      by rewrite sums_to_1_p1. }
  apply forR_all. intros t Ht. apply in_seq in Ht.
  apply forR_all. intros i Hi. apply in_seq in Hi.
  rewrite (idx2_get2 p0 S T) by (apply shape2_tabulate2 || lia).
  cbn [res_bind]. rewrite (get2_tabulate2 p0 S T) by lia.
  rewrite (idx1_nth _ i [])
    by (unfold tabulate3; rewrite List.length_map, length_seq; lia).
  cbn [res_bind]. unfold tabulate3.
  rewrite (nth_map_seq (fun i0 => tabulate2 S (T - 1) _) S i []) by lia.
  rewrite col_tabulate2 by lia.
  rewrite <- (gamma_marginal log_pi log_A log_B S seq t i) by lia.
  by rewrite allclose_refl.
Qed.

(** The E-step of such a sequence, with the checks on or off. *)
Lemma E_step_with_passing_checks
    (S K T : nat) (h : HMM.self P L) (seq : list nat)
    (sc : HMM.scratch L) (acc : HMM.accumulators P) :
  well_formed S K h -> 1 <= S ->
  length seq = T -> 1 <= T -> Forall (fun o => o < K) seq ->
  scratch_ok S T sc -> shape2 S K (HMM.B_acc acc) ->
  loglik_spec (log_of_pi h) (log_of_A h) (log_of_B h) S seq <> neg_inf ->
  HMM.E_step T seq (sc, acc) h
  = (inr (scratch_after (log_of_pi h) (log_of_A h) (log_of_B h) S seq,
          acc_step (log_of_pi h) (log_of_A h) (log_of_B h) S acc seq),
     warm h).
Proof.
  intros Hwf HS Hseq HT Hsym Hsc Hacc Hpos.
  rewrite (E_step_cases S K T h seq sc acc Hwf HS Hseq HT Hsym Hsc Hacc).
  rewrite (E_step_checks_pass (log_of_pi h) (log_of_A h) (log_of_B h)
             S T seq HS Hseq Hpos).
  by destruct (HMM.sanity_checks_enabled h).
Qed.

(** X12. Where nothing rounds, the checks that [EM] makes under
    [_enable_sanity_checks] hold for every sequence to which the model
    gives a likelihood other than zero: for [t < T - 1] the sum over [j]
    of [exp(log_E[i, j, t])] is [exp(log_gamma[i, t])] and the sum of
    [exp(log_E[:, :, t])] is 1, and for [t < T] the sum of
    [exp(log_gamma[:, t])] is 1.  So the checks of the E-step pass, and
    the E-step of such a sequence does with the checks on what it does
    with the checks off. *)
Theorem E_step_checks_hold_in_exact_arithmetic
    (S K T : nat) (h : HMM.self P L) (seq : list nat)
    (sc : HMM.scratch L) (acc : HMM.accumulators P) :
  well_formed S K h -> 1 <= S ->
  length seq = T -> 1 <= T -> Forall (fun o => o < K) seq ->
  scratch_ok S T sc -> shape2 S K (HMM.B_acc acc) ->
  loglik_spec (log_of_pi h) (log_of_A h) (log_of_B h) S seq <> neg_inf ->
  let log_E := log_E_spec (log_of_pi h) (log_of_A h) (log_of_B h) S seq in
  let log_gamma :=
    log_gamma_spec (log_of_pi h) (log_of_A h) (log_of_B h) S seq in
  (forall t i, t + 1 < T -> i < S ->
     psum (map (fun j => np_exp (log_E i j t)) (List.seq 0 S))
     = np_exp (log_gamma i t)) /\
  (forall t, t + 1 < T ->
     psum (concat (map (fun i => map (fun j => np_exp (log_E i j t))
                                   (List.seq 0 S)) (List.seq 0 S))) = p1) /\
  (forall t, t < T ->
     psum (map (fun i => np_exp (log_gamma i t)) (List.seq 0 S)) = p1) /\
  HMM.E_step_checks T S (tabulate3 S S (T - 1) log_E) (tabulate2 S T log_gamma)
  = inr tt /\
  HMM.E_step T seq (sc, acc) h
  = (inr (scratch_after (log_of_pi h) (log_of_A h) (log_of_B h) S seq,
          acc_step (log_of_pi h) (log_of_A h) (log_of_B h) S acc seq),
     warm h).
Proof.
  intros Hwf HS Hseq HT Hsym Hsc Hacc Hpos. cbv zeta.
  pose proof (E_step_checks_pass (log_of_pi h) (log_of_A h) (log_of_B h)
                S T seq HS Hseq Hpos) as Hpass.
  split; [| split; [| split; [| split; [exact Hpass |]]]].
  - intros t i Ht Hi. symmetry.
    apply (gamma_marginal _ _ _ S seq). lia.
  - intros t Ht. apply (E_total _ _ _ S seq Hpos). lia.
  - intros t Ht. apply (gamma_total _ _ _ S seq Hpos). lia.
  - by apply (E_step_with_passing_checks S K T).
Qed.
End Checks.

(** ** Exact arithmetic satisfies the further laws *)

Section ExactQuotient.
Local Open Scope Qc_scope.
Import Exact.

Lemma inv_nonneg (c : Qc) : 0 <= c -> 0 <= / c.
Proof.
  intros Hc. unfold Qcle in *. simpl in *.
  rewrite !Qred_correct in *. by apply Qinv_le_0_compat.
Qed.

Lemma div_nonneg (x c : Qc) : 0 <= x -> 0 <= c -> 0 <= x / c.
Proof.
  intros Hx Hc. unfold Qcdiv. apply mult_nonneg; [done | by apply inv_nonneg].
Qed.

Lemma total_div (l : list Qc) (c : Qc) :
  total l / c = total (map (fun x => x / c) l).
Proof.
  induction l as [| x l IH]; simpl.
  - unfold Qcdiv. ring.
  - rewrite <- IH. unfold Qcdiv. ring.
Qed.

Lemma fold_plus_total (l : list Qc) (a : Qc) :
  fold_left Qcplus l a = a + total l.
Proof.
  revert a. induction l as [| x l IH]; intros a; simpl.
  - ring.
  - rewrite IH. ring.
Qed.

Lemma abs_nonneg (x : Qc) : 0 <= abs x.
Proof.
  unfold abs. destruct (ltb x 0) eqn:E.
  - apply ltb_lt in E. apply Qclt_le_weak in E.
    apply (Qcopp_le_compat x 0) in E. exact E.
  - by apply ltb_ge in E.
Qed.

Lemma exact_quotient_laws : QuotientLaws floats.
Proof.
  split.
  - reflexivity.
  - intros l c. simpl. unfold wtotal. apply W_eq.
    rewrite wval_weight
      by (apply div_nonneg; [rewrite wval_weight by apply total_nonneg;
                             apply total_nonneg | apply wval_nonneg]).
    rewrite wval_weight by apply total_nonneg.
    rewrite wval_weight by apply total_nonneg.
    rewrite total_div, !List.map_map. f_equal. apply map_ext.
    intros x. symmetry. apply wval_weight.
    apply div_nonneg; apply wval_nonneg.
  - intros x Hx. simpl. f_equal. apply Qcmult_inv_r.
    intros H0. apply Hx. apply W_eq. simpl. by rewrite H0.
  - intros l. simpl. unfold wtotal, psum. simpl.
    rewrite wval_weight by apply total_nonneg.
    rewrite fold_plus_total. ring.
  - reflexivity.
  - intros x. simpl. apply leb_le.
    replace (x - x) with 0 by ring.
    apply plus_nonneg; [by apply leb_le |].
    apply mult_nonneg; [by apply leb_le | apply abs_nonneg].
Qed.
End ExactQuotient.

Lemma E_step_checks_hold_in_exact_arithmetic_witness :
  HMM.E_step_checks 2 2
    (tabulate3 2 2 (2 - 1)
       (log_E_spec (log_of_pi (Exact.toy_model 10))
          (log_of_A (Exact.toy_model 10)) (log_of_B (Exact.toy_model 10))
          2 [0; 1]))
    (tabulate2 2 2
       (log_gamma_spec (log_of_pi (Exact.toy_model 10))
          (log_of_A (Exact.toy_model 10)) (log_of_B (Exact.toy_model 10))
          2 [0; 1]))
  = inr tt.
Proof.
  refine (proj1 (proj2 (proj2 (proj2
    (E_step_checks_hold_in_exact_arithmetic
       (LS := exact_log_semiring) (EL := exact_exp_laws)
       (QL := exact_quotient_laws) 2 3 2 (Exact.toy_model 10) [0; 1]
       (HMM.mk_scratch (full2 uninit 2 2) (full2 uninit 2 2) (empty3 2 2 1)
          (full2 uninit 2 2))
       (HMM.mk_acc (zeros_like1 Exact.toy_pi) (zeros_like2 Exact.toy_A)
          (zeros_like2 Exact.toy_B))
       (toy_model_well_formed 10) _ eq_refl _ _ _ _ _))))).
  - lia.
  - lia.
  - repeat constructor.
  - split; [apply shape2_full2 |]. split; [apply shape2_full2 |].
    apply (shape3_repeat 2 2 1).
  - apply (shape2_zeros_like2 2 3). apply (toy_model_well_formed 10).
  - intros H. apply (f_equal (fun w => Qnum (this (Exact.wval w)))) in H.
    vm_compute in H. discriminate.
Defined.

(** ** The accumulators, cell by cell *)

Section AccumulatorCells.
Context {P L : Type} `{FL : Floats P L}.
Variables (S K T : nat) (seq : list nat).
Hypothesis HS : 1 <= S.
Hypothesis HT : 1 <= T.
Hypothesis Hseq : length seq = T.
Hypothesis Hsym : Forall (fun o => o < K) seq.
Variables (E : nat -> nat -> nat -> L) (G : nat -> nat -> L).

(** the times at which the symbol [k] was observed *)
Local Abbreviation times_of k ts :=
  (List.filter (fun t => get1 0 seq t =? k) ts).

Lemma filter_none {X} (f : X -> bool) (l : list X) :
  (forall x, In x l -> f x = false) -> List.filter f l = [].
Proof.
  induction l as [| x l IH]; intros Hall; [done |].
  cbn [List.filter]. rewrite (Hall x) by (by left).
  apply IH. intros y Hy. apply Hall. by right.
Qed.

Lemma B_update_cell (B_acc : list (list P)) t i k :
  shape2 S K B_acc -> t < T -> i < S -> k < K ->
  get2 p0
    (set_col B_acc (get1 0 seq t)
       (vpadd (col p0 B_acc (get1 0 seq t))
          (map (fun i => np_exp (G i t)) (List.seq 0 S)))) i k
  = if get1 0 seq t =? k then padd (get2 p0 B_acc i k) (np_exp (G i t))
    else get2 p0 B_acc i k.
Proof.
  intros HB Ht Hi Hk.
  assert (length (vpadd (col p0 B_acc (get1 0 seq t))
                    (map (fun i => np_exp (G i t)) (List.seq 0 S))) = S) as Hlen.
  { unfold vpadd. rewrite length_zip_with, length_col, List.length_map,
      length_seq. destruct HB. lia. }
  destruct (get1 0 seq t =? k) eqn:Eo.
  - apply Nat.eqb_eq in Eo. rewrite Eo.
    rewrite (get2_set_col_eq p0 S K) by (done || congruence).
    unfold vpadd.
    rewrite (nth_zip_with _ _ _ _ p0 p0)
      by (rewrite ?length_col, ?List.length_map, ?length_seq; destruct HB; lia).
    f_equal.
    + rewrite col_get2. destruct HB as [-> _].
      exact (nth_map_seq (fun i0 => get2 p0 B_acc i0 k) S i p0 Hi).
    + exact (nth_map_seq (fun i0 => np_exp (G i0 t)) S i p0 Hi).
  - apply Nat.eqb_neq in Eo.
    apply (get2_set_col_ne p0 S); [by destruct HB | done | done].
Qed.

Lemma B_updates_cell (ts : list nat) (B_acc : list (list P)) i k :
  shape2 S K B_acc -> Forall (fun t => t < T) ts -> i < S -> k < K ->
  get2 p0
    (fold_left (fun (B_acc : list (list P)) t =>
       set_col B_acc (get1 0 seq t)
         (vpadd (col p0 B_acc (get1 0 seq t))
            (map (fun i => np_exp (G i t)) (List.seq 0 S)))) ts B_acc) i k
  = fold_left padd (map (fun t => np_exp (G i t)) (times_of k ts))
      (get2 p0 B_acc i k).
Proof.
  intros HB Hts Hi Hk. revert B_acc HB.
  induction Hts as [| t ts Ht _ IH]; intros B_acc HB; [done |].
  cbn [fold_left].
  rewrite IH by exact (shape2_B_update S K T seq HS HT Hseq G B_acc t HB).
  rewrite (B_update_cell B_acc t i k HB Ht Hi Hk). cbn [List.filter].
  destruct (get1 0 seq t =? k); done.
Qed.

(** X13. The three updates of the accumulators for one sequence, cell
    by cell: [pi_acc[i]] grows by [exp(log_gamma[i, 0])], [A_acc[i, j]] by
    the sum over [t < T - 1] of [exp(log_E[i, j, t])], and [B_acc[i, k]]
    by [exp(log_gamma[i, t])] for the times [t] at which the symbol [k]
    was observed, in the order of time; the column of a symbol that was
    not observed is left as it was. No index is out of range. *)
Theorem accumulate_adds_to_the_column_of_each_observed_symbol
    (acc : HMM.accumulators P) :
  length (HMM.pi_acc acc) = S -> shape2 S S (HMM.A_acc acc) ->
  shape2 S K (HMM.B_acc acc) ->
  exists acc',
    HMM.accumulate seq T (tabulate3 S S (T - 1) E) (tabulate2 S T G) acc
    = inr acc' /\
    (forall i, i < S ->
       get1 p0 (HMM.pi_acc acc') i
       = padd (get1 p0 (HMM.pi_acc acc) i) (np_exp (G i 0))) /\
    (forall i j, i < S -> j < S ->
       get2 p0 (HMM.A_acc acc') i j
       = padd (get2 p0 (HMM.A_acc acc) i j)
              (psum (map (fun t => np_exp (E i j t)) (List.seq 0 (T - 1))))) /\
    (forall i k, i < S -> k < K ->
       get2 p0 (HMM.B_acc acc') i k
       = fold_left padd
           (map (fun t => np_exp (G i t)) (times_of k (List.seq 0 T)))
           (get2 p0 (HMM.B_acc acc) i k)) /\
    (forall i k, i < S -> k < K -> ~ In k seq ->
       get2 p0 (HMM.B_acc acc') i k = get2 p0 (HMM.B_acc acc) i k).
Proof.
  intros Hpi HA HB.
  eexists. split; [exact (accumulate_step S K T seq HS HT Hseq Hsym E G acc HB) |].
  cbn [HMM.pi_acc HMM.A_acc HMM.B_acc].
  assert (forall i k, i < S -> k < K ->
            get2 p0
              (fold_left (fun (B_acc : list (list P)) t =>
                 set_col B_acc (get1 0 seq t)
                   (vpadd (col p0 B_acc (get1 0 seq t))
                      (map (fun i => np_exp (G i t)) (List.seq 0 S))))
                 (List.seq 0 T) (HMM.B_acc acc)) i k
            = fold_left padd
                (map (fun t => np_exp (G i t)) (times_of k (List.seq 0 T)))
                (get2 p0 (HMM.B_acc acc) i k)) as HBcells.
  { intros i k Hi Hk. apply B_updates_cell; try done.
    apply Forall_forall. intros t Ht.
    apply list_elem_of_In, in_seq in Ht. lia. }
  split; [| split; [| split; [exact HBcells |]]].
  - intros i Hi. unfold get1, vpadd.
    rewrite (nth_zip_with _ _ _ _ p0 p0)
      by (rewrite ?List.length_map, ?length_seq; lia).
    f_equal. exact (nth_map_seq (fun i0 => np_exp (G i0 0)) S i p0 Hi).
  - intros i j Hi Hj. unfold get2, mpadd, vpadd.
    rewrite (nth_zip_with _ _ _ _ [] []);
      [| destruct HA; lia
       | unfold tabulate2; rewrite List.length_map, length_seq; lia].
    rewrite (nth_zip_with _ _ _ _ p0 p0).
    + f_equal.
      exact (get2_tabulate2 p0 S S
               (fun i0 j0 => psum (map (fun t => np_exp (E i0 j0 t))
                                     (List.seq 0 (T - 1)))) i j Hi Hj).
    + by rewrite (shape2_row S S _ i HA Hi).
    + rewrite (shape2_row S S _ i (shape2_tabulate2 S S _) Hi). lia.
  - intros i k Hi Hk Hnot. rewrite HBcells by done.
    assert (times_of k (List.seq 0 T) = []) as ->; [| done].
    apply filter_none. intros t Ht. apply in_seq in Ht.
    apply Nat.eqb_neq. intros Heq. apply Hnot.
    rewrite <- Heq. apply nth_In. lia.
Qed.
End AccumulatorCells.

Lemma accumulate_adds_to_the_column_of_each_observed_symbol_witness :
  exists acc',
    HMM.accumulate [0; 1] 2
      (tabulate3 2 2 (2 - 1) (fun _ _ _ => l0)) (tabulate2 2 2 (fun _ _ => l0))
      (HMM.mk_acc (zeros_like1 Exact.toy_pi) (zeros_like2 Exact.toy_A)
         (zeros_like2 Exact.toy_B))
    = inr acc' /\
    forall i k, i < 2 -> k < 3 -> ~ In k [0; 1] ->
      get2 p0 (HMM.B_acc acc') i k
      = get2 p0 (HMM.B_acc (HMM.mk_acc (zeros_like1 Exact.toy_pi)
                              (zeros_like2 Exact.toy_A)
                              (zeros_like2 Exact.toy_B))) i k.
Proof.
  destruct (accumulate_adds_to_the_column_of_each_observed_symbol
              (FL := Exact.floats) 2 3 2 [0; 1]
              ltac:(lia) ltac:(lia) eq_refl ltac:(repeat constructor)
              (fun _ _ _ => l0) (fun _ _ => l0)
              (HMM.mk_acc (zeros_like1 Exact.toy_pi) (zeros_like2 Exact.toy_A)
                 (zeros_like2 Exact.toy_B))
              eq_refl
              (shape2_zeros_like2 2 2 _
                 (proj1 (proj2 (proj2 (toy_model_well_formed 10)))))
              (shape2_zeros_like2 2 3 _
                 (proj1 (proj2 (proj2 (proj2 (toy_model_well_formed 10)))))))
    as (acc' & Hacc & _ & _ & _ & Hkeep).
  exists acc'. by split.
Defined.

(** ** The best path against the whole sequence *)

Section PathBound.
Context {P L : Type} `{FL : Floats P L}.
Context {LS : LogSemiring FL} {LO : LogOrder FL} {SO : LogSumOrder FL}.
Variables (log_pi : list L) (log_A log_B : list (list L)).
Variables (S T : nat) (seq : list nat).
Hypothesis Hseq : length seq = T.
Hypothesis HS : 1 <= S.
Hypothesis HT : 1 <= T.

Local Abbreviation V := (V_spec log_pi log_A log_B S seq).
Local Abbreviation alpha := (alpha_spec log_pi log_A log_B S seq).
Local Abbreviation best := (viterbi_path log_pi log_A log_B S seq).

(** a term of a log-sum-exp is at most the log-sum-exp *)
Lemma lse_upper (f : nat -> L) (l : list nat) (j : nat) :
  In j l -> lle (f j) (_logsumexp (map f l)).
Proof.
  induction l as [| x l IH]; intros Hin; [done |].
  cbn [map]. rewrite (lse_cons (f x) (map f l)).
  destruct Hin as [-> | Hin]; [apply lse2_upper |].
  apply (lle_trans _ (_logsumexp (map f l))); [by apply IH |].
  rewrite lse2_comm. apply lse2_upper.
Qed.

(** The best score of the paths that end in a state is at most the
    forward probability of that state. *)
Lemma V_le_alpha t s : lle (V t s) (alpha t s).
Proof.
  revert s. induction t as [| t IH]; intros s; [apply lle_refl |].
  cbn [V_spec alpha_spec]. apply ladd_mono.
  set (work := work_spec log_A S (V t) s).
  assert (length work = S) as Hlw
    by (unfold work, work_spec; by rewrite List.length_map, length_seq).
  assert (argmax lltb work < S) as Hj.
  { rewrite <- Hlw. apply argmax_lt. intros Hnil.
    rewrite Hnil in Hlw. simpl in Hlw. lia. }
  assert (get1 uninit work (argmax lltb work)
          = ladd (V t (argmax lltb work)) (lget2 log_A (argmax lltb work) s))
    as -> by exact (nth_map_seq (fun j => ladd (V t j) (lget2 log_A j s)) S
                      (argmax lltb work) uninit Hj).
  apply (lle_trans _ (ladd (alpha t (argmax lltb work))
                        (lget2 log_A (argmax lltb work) s))).
  - apply ladd_mono, IH.
  - unfold lse_states.
    apply (lse_upper (fun j => ladd (alpha t j) (lget2 log_A j s))).
    apply in_seq. lia.
Qed.

Lemma path_below_loglik path :
  state_path S seq path ->
  lle (joint_log_prob log_pi log_A log_B seq path)
      (loglik_spec log_pi log_A log_B S seq).
Proof.
  intros Hpath.
  apply (lle_trans _ (joint_log_prob log_pi log_A log_B seq best));
    [by apply (best_is_optimal log_pi log_A log_B S T seq Hseq HS HT) |].
  unfold joint_log_prob. rewrite Hseq.
  rewrite (score_best log_pi log_A log_B S T seq Hseq HS HT) by lia.
  apply (lle_trans _ (alpha (T - 1) (get1 0 best (T - 1))));
    [apply V_le_alpha |].
  unfold loglik_spec, lse_states. rewrite Hseq.
  apply (lse_upper (alpha (T - 1))). apply in_seq.
  pose proof (best_is_state_path log_pi log_A log_B S T seq Hseq HS)
    as [Hlen Hb].
  rewrite Forall_forall in Hb.
  assert (get1 0 best (T - 1) < S); [| lia].
  apply Hb. apply list_elem_of_In, nth_In. lia.
Qed.
End PathBound.

Section DecodeBound.
Context {P L : Type} `{FL : Floats P L}.
Context {LS : LogSemiring FL} {LO : LogOrder FL} {SO : LogSumOrder FL}.

(** X14. Where nothing rounds, the joint log probability of the
    observations with the path that [decode] returns, and so that of the
    observations with any path, is at most the log-likelihood that
    [_forward] returns for the sequence: a maximum is at most the sum. *)
Theorem no_path_is_more_likely_than_the_sequence
    (S K T : nat) (h : HMM.self P L) (seq : list nat) (buf : list (list L)) :
  well_formed S K h -> 1 <= S -> corpus_ok T K [seq] -> shape2 S T buf ->
  exists path lattice ll,
    HMM.decode [seq] h = (inr [path], warm h) /\
    HMM._forward seq buf h = (inr (lattice, ll), warm h) /\
    state_path S seq path /\
    lle (joint_log_prob (log_of_pi h) (log_of_A h) (log_of_B h) seq path) ll /\
    forall other, state_path S seq other ->
      lle (joint_log_prob (log_of_pi h) (log_of_A h) (log_of_B h) seq other) ll.
Proof.
  intros Hwf HS Hc Hbuf.
  pose proof (corpus_lengths T K [seq] Hc) as Hlen.
  pose proof Hc as (_ & HT & _).
  assert (length seq = T) as Hseq by (by apply Forall_cons in Hlen as [? _]).
  destruct (well_formed_logs S K h Hwf) as (Hpi & [HA _] & [HB _]).
  pose proof Hwf as (_ & _ & _ & _ & Hcoh).
  exists (viterbi_path (log_of_pi h) (log_of_A h) (log_of_B h) S seq),
    (fst (_forward seq (log_of_pi h) (log_of_A h) (log_of_B h) buf)),
    (snd (_forward seq (log_of_pi h) (log_of_A h) (log_of_B h) buf)).
  split; [| split; [| split; [| split]]].
  - destruct (corpus_np_array (P := P) T K [seq] Hc) as [_ Hshape].
    unfold HMM.decode.
    rewrite (bind_ok _ _ h T h) by (by apply lift_ok).
    rewrite (bind_ok _ _ h S h) by (unfold gets; by destruct Hwf as [-> _]).
    destruct (decode_loop S K T h [seq] (full2 uninit S T)
                (full2 uninit_int S T) [] Hwf HS HT Hlen)
      as (V' & bp' & Hloop); [apply shape2_full2 | apply shape2_full2 |].
    by rewrite (bind_ok _ _ _ _ _ Hloop).
  - rewrite (method_forward h seq buf Hcoh).
    by destruct (_forward seq (log_of_pi h) (log_of_A h) (log_of_B h) buf).
  - by apply (best_is_state_path _ _ _ S T).
  - destruct (forward_lattice (log_of_pi h) (log_of_A h) (log_of_B h)
                S T seq Hpi HA HB Hseq buf Hbuf HT) as (_ & _ & ->).
    apply (path_below_loglik _ _ _ S T seq Hseq HS HT).
    by apply (best_is_state_path _ _ _ S T).
  - intros other Hother.
    destruct (forward_lattice (log_of_pi h) (log_of_A h) (log_of_B h)
                S T seq Hpi HA HB Hseq buf Hbuf HT) as (_ & _ & ->).
    by apply (path_below_loglik _ _ _ S T seq Hseq HS HT).
Qed.
End DecodeBound.

Lemma exact_log_sum_order : LogSumOrder Exact.floats.
Proof.
  split. intros x y. unfold lle. simpl. apply ltb_ge.
  unfold Exact.wtotal. simpl.
  rewrite wval_weight
    by (repeat apply plus_nonneg; try apply wval_nonneg; apply Qcle_refl).
  rewrite <- (Qcplus_0_r (Exact.wval x)) at 1.
  apply Qcplus_le_compat; [apply Qcle_refl |].
  apply plus_nonneg; [apply wval_nonneg | apply Qcle_refl].
Qed.

Lemma no_path_is_more_likely_than_the_sequence_witness :
  exists path lattice ll,
    HMM.decode [Exact.toy_seq] (Exact.toy_model 10)
    = (inr [path], warm (Exact.toy_model 10)) /\
    HMM._forward Exact.toy_seq (full2 uninit 2 8) (Exact.toy_model 10)
    = (inr (lattice, ll), warm (Exact.toy_model 10)) /\
    state_path 2 Exact.toy_seq path /\
    lle (joint_log_prob (log_of_pi (Exact.toy_model 10))
           (log_of_A (Exact.toy_model 10)) (log_of_B (Exact.toy_model 10))
           Exact.toy_seq path) ll /\
    forall other, state_path 2 Exact.toy_seq other ->
      lle (joint_log_prob (log_of_pi (Exact.toy_model 10))
             (log_of_A (Exact.toy_model 10)) (log_of_B (Exact.toy_model 10))
             Exact.toy_seq other) ll.
Proof.
  apply (no_path_is_more_likely_than_the_sequence
           (LS := exact_log_semiring) (LO := exact_log_order)
           (SO := exact_log_sum_order) 2 3 8 (Exact.toy_model 10)
           Exact.toy_seq (full2 uninit 2 8) (toy_model_well_formed 10));
    [lia | exact toy_corpus_ok | apply shape2_full2].
Defined.

(** ** An iteration of [EM] with the checks on *)

Section CheckedIteration.
Context {P L : Type} `{FL : Floats P L}.
Context {LS : LogSemiring FL} {EL : ExpLaws FL} {QL : QuotientLaws FL}.
Implicit Types h : HMM.self P L.

(** The loop over a corpus of sequences that the model does not
    exclude, with the checks on or off. *)
Lemma E_steps_with_passing_checks S K T h sequences sc acc :
  well_formed S K h -> 1 <= S -> 1 <= T ->
  Forall (fun seq => length seq = T /\ Forall (fun o => o < K) seq) sequences ->
  Forall (fun seq =>
            loglik_spec (log_of_pi h) (log_of_A h) (log_of_B h) S seq
            <> neg_inf) sequences ->
  scratch_ok S T sc -> shape2 S K (HMM.B_acc acc) ->
  forM sequences (HMM.E_step T) (sc, acc) h
  = (inr (scratch_run (log_of_pi h) (log_of_A h) (log_of_B h) S sc sequences,
          fold_left (acc_step (log_of_pi h) (log_of_A h) (log_of_B h) S)
            sequences acc),
     match sequences with [] => h | _ => warm h end).
Proof.
  intros Hwf HS HT Hall. revert h sc acc Hwf.
  induction Hall as [| seq rest [Hseq Hsym] Hrest IH];
    intros h sc acc Hwf Hpos Hsc Hacc; [done |].
  apply Forall_cons in Hpos as [Hpos1 Hpos].
  pose proof Hwf as (_ & _ & _ & _ & Hc).
  cbn [forM].
  rewrite (bind_ok _ _ _ _ _
             (E_step_with_passing_checks S K T h seq sc acc Hwf HS Hseq HT
                Hsym Hsc Hacc Hpos1)).
  destruct (warm_logs h) as (E1 & E2 & E3).
  rewrite (IH (warm h)); try done.
  - rewrite E1, E2, E3. unfold scratch_run. cbn [fold_left]. f_equal.
    destruct rest; [done |]. by apply warm_warm.
  - by apply well_formed_warm.
  - by rewrite E1, E2, E3.
  - by apply scratch_after_ok.
  - by apply (shape2_acc_step _ _ _ S K T).
Qed.

(** X15. Where nothing rounds, on a corpus of sequences to which the
    model gives a likelihood other than zero, an iteration of [EM] with
    the checks on replaces [pi], [A] and [B] by the normalized
    accumulators and only then checks the new tables: when that check
    raises, the error leaves the object with the new tables in place, not
    with those it had before the iteration. *)
Theorem EM_iteration_checks_the_tables_after_replacing_them
    (S K T : nat) (h : HMM.self P L) (sequences : list (list nat))
    (sc : HMM.scratch L) :
  well_formed S K h -> 1 <= S -> corpus_ok T K sequences ->
  scratch_ok S T sc ->
  Forall (fun seq =>
            loglik_spec (log_of_pi h) (log_of_A h) (log_of_B h) S seq
            <> neg_inf) sequences ->
  HMM.sanity_checks_enabled h = true ->
  let h' := em_next S sequences h in
  HMM.EM_iteration sequences T sc h
  = match HMM._check_matrices_conditioning h' with
    | inl e => (inl e, h')
    | inr _ =>
        (inr (scratch_run (log_of_pi h) (log_of_A h) (log_of_B h) S sc
                sequences), h')
    end /\
  HMM.pi h' = _normalize (HMM.pi_acc
                (accumulated (log_of_pi h) (log_of_A h) (log_of_B h) S
                   (HMM.pi h) (HMM.A h) (HMM.B h) sequences)) /\
  HMM.A h' = _normalize_axis1 (HMM.A_acc
                (accumulated (log_of_pi h) (log_of_A h) (log_of_B h) S
                   (HMM.pi h) (HMM.A h) (HMM.B h) sequences)) /\
  HMM.B h' = _normalize_axis1 (HMM.B_acc
                (accumulated (log_of_pi h) (log_of_A h) (log_of_B h) S
                   (HMM.pi h) (HMM.A h) (HMM.B h) sequences)).
Proof.
  intros Hwf HS (Hne & HT & Hall) Hsc Hpos Hsan h'.
  split; [| by repeat split].
  pose proof Hwf as (_ & _ & _ & HB & Hc).
  pose proof (E_steps_with_passing_checks S K T h sequences sc
                (HMM.mk_acc (zeros_like1 (HMM.pi h)) (zeros_like2 (HMM.A h))
                   (zeros_like2 (HMM.B h)))
                Hwf HS HT Hall Hpos Hsc (shape2_zeros_like2 S K _ HB)) as Hloop.
  assert (match sequences with [] => h | _ => warm h end = warm h) as Hwarm
    by (by destruct sequences).
  rewrite Hwarm in Hloop.
  unfold HMM.EM_iteration. rewrite !bind_gets.
  rewrite (bind_ok _ _ _ _ _ Hloop).
  rewrite (warm_record h Hc).
  unfold HMM.set_pi, HMM.set_A, HMM.set_B, modify, bind, gets, ret, lift.
  cbn -[HMM._check_matrices_conditioning].
  unfold HMM.sanity_checks_enabled in Hsan. rewrite Hsan.
  change (HMM.mk _ _ _ _ _ _ _ _ _ _ _ _ _) with h'.
  by destruct (HMM._check_matrices_conditioning h') as [e | []].
Qed.
End CheckedIteration.

Lemma EM_iteration_checks_the_tables_after_replacing_them_witness :
  HMM.EM_iteration [[0; 1]] 2
    (HMM.mk_scratch (full2 uninit 2 2) (full2 uninit 2 2) (empty3 2 2 1)
       (full2 uninit 2 2)) (checked_toy_model 10)
  = match HMM._check_matrices_conditioning
            (em_next 2 [[0; 1]] (checked_toy_model 10)) with
    | inl e => (inl e, em_next 2 [[0; 1]] (checked_toy_model 10))
    | inr _ =>
        (inr (scratch_run (log_of_pi (checked_toy_model 10))
                (log_of_A (checked_toy_model 10))
                (log_of_B (checked_toy_model 10)) 2
                (HMM.mk_scratch (full2 uninit 2 2) (full2 uninit 2 2)
                   (empty3 2 2 1) (full2 uninit 2 2)) [[0; 1]]),
         em_next 2 [[0; 1]] (checked_toy_model 10))
    end.
Proof.
  refine (proj1 (EM_iteration_checks_the_tables_after_replacing_them
                   (LS := exact_log_semiring) (EL := exact_exp_laws)
                   (QL := exact_quotient_laws) 2 3 2 (checked_toy_model 10)
                   [[0; 1]] _ (toy_model_well_formed 10) _
                   toy_pair_corpus_ok _ _ eq_refl)).
  - lia.
  - split; [apply shape2_full2 |]. split; [apply shape2_full2 |].
    apply (shape3_repeat 2 2 1).
  - constructor; [| constructor].
    intros H. apply (f_equal (fun w => Qnum (this (Exact.wval w)))) in H.
    vm_compute in H. discriminate.
Defined.

(** ** The forward lattice sums over the hidden paths *)

Section AllPaths.
Variable S : nat.

Lemma all_paths_sound n p :
  In p (all_paths S n) -> length p = n /\ Forall (fun s => s < S) p.
Proof.
  revert p. induction n as [| n IH]; intros p Hin.
  - destruct Hin as [<- | []]. by split.
  - cbn [all_paths] in Hin. apply in_concat in Hin as (l & Hl & Hp).
    apply in_map_iff in Hl as (q & <- & Hq).
    apply in_map_iff in Hp as (s & <- & Hs).
    destruct (IH q Hq) as [Hlen Hall]. apply in_seq in Hs. split.
    + rewrite length_app. simpl. lia.
    + apply Forall_app. split; [done |]. apply Forall_cons. split; [lia | done].
Qed.

Lemma all_paths_complete n p :
  length p = n -> Forall (fun s => s < S) p -> In p (all_paths S n).
Proof.
  revert p. induction n as [| n IH]; intros p Hlen Hall.
  - destruct p; [by left | done].
  - destruct (exists_last (l := p)) as (q & s & ->).
    { intros ->. done. }
    rewrite length_app in Hlen. simpl in Hlen.
    apply Forall_app in Hall as [Hq Hs]. apply Forall_cons in Hs as [Hs _].
    cbn [all_paths]. apply in_concat.
    exists (map (fun s => q ++ [s]) (List.seq 0 S)). split.
    + apply in_map_iff. exists q. split; [done |]. apply IH; [lia | done].
    + apply in_map_iff. exists s. split; [done |]. apply in_seq. lia.
Qed.

Lemma NoDup_concat_map {X Y} (f : X -> list Y) (l : list X) :
  NoDup l -> (forall x, In x l -> NoDup (f x)) ->
  (forall x y z, In x l -> In y l -> In z (f x) -> In z (f y) -> x = y) ->
  NoDup (concat (map f l)).
Proof.
  induction 1 as [| x l Hx Hl IH]; intros Hf Hdisj; [constructor |].
  cbn [map concat]. apply NoDup_app. split; [| split].
  - apply Hf. by left.
  - intros z Hz Hin. apply list_elem_of_In in Hz, Hin.
    apply in_concat in Hin as (k & Hk & Hzk).
    apply in_map_iff in Hk as (y & <- & Hy).
    assert (x = y) as ->
      by (apply (Hdisj x y z); [by left | by right | done | done]).
    apply Hx. by apply list_elem_of_In.
  - apply IH.
    + intros y Hy. apply Hf. by right.
    + intros y1 y2 z H1 H2. apply Hdisj; by right.
Qed.

Lemma all_paths_NoDup n : NoDup (all_paths S n).
Proof.
  induction n as [| n IH]; [apply NoDup_singleton |].
  cbn [all_paths]. apply NoDup_concat_map; [done | |].
  - intros p _. apply NoDup_fmap_2; [| apply NoDup_seq].
    intros s s' Heq. by apply app_inj_tail in Heq as [_ ?].
  - intros p q z _ _ Hp Hq.
    apply in_map_iff in Hp as (s & <- & _).
    apply in_map_iff in Hq as (s' & Heq & _).
    by apply app_inj_tail in Heq as [? _].
Qed.
End AllPaths.

Section SumOverPaths.
Context {P L : Type} `{FL : Floats P L} {LS : LogSemiring FL}.
Variables (log_pi : list L) (log_A log_B : list (list L)).
Variables (S : nat) (seq : list nat).

Local Abbreviation alpha := (alpha_spec log_pi log_A log_B S seq).
Local Abbreviation score := (path_score log_pi log_A log_B seq).

Lemma lse_single (x : L) : _logsumexp [x] = x.
Proof. by rewrite (lse_cons x []), lse_nil, lse2_neg_inf. Qed.

(** the score up to time [t] reads the first [t + 1] states only *)
Lemma score_prefix (p r : list nat) t :
  t < length p -> score (p ++ r) t = score p t.
Proof.
  induction t as [| t IH]; intros Ht; cbn [path_score]; unfold get1.
  - by rewrite app_nth1 by lia.
  - rewrite IH by lia. unfold get1.
    by rewrite !(app_nth1 p r) by lia.
Qed.

Lemma score_extend (p : list nat) j s t :
  length p = t ->
  score ((p ++ [j]) ++ [s]) (Datatypes.S t)
  = ladd (ladd (score (p ++ [j]) t) (lget2 log_A j s))
         (lget2 log_B s (get1 0 seq (Datatypes.S t))).
Proof.
  intros Hp. cbn [path_score].
  rewrite score_prefix by (rewrite length_app; simpl; lia).
  unfold get1.
  assert (nth (Datatypes.S t) ((p ++ [j]) ++ [s]) 0 = s) as ->.
  { rewrite app_nth2 by (rewrite length_app; simpl; lia).
    rewrite length_app, Hp. simpl.
    by replace (Datatypes.S t - (t + 1)) with 0 by lia. }
  assert (nth t ((p ++ [j]) ++ [s]) 0 = j) as ->; [| done].
  rewrite app_nth1 by (rewrite length_app; simpl; lia).
  rewrite app_nth2 by lia. by rewrite Hp, Nat.sub_diag.
Qed.

(** [log_alpha[s, t]] is the log-sum-exp, over the paths of the [t]
    states before, of the score of the path that ends in [s]. *)
Lemma alpha_sums_paths t s :
  alpha t s = _logsumexp (map (fun p => score (p ++ [s]) t) (all_paths S t)).
Proof.
  revert s. induction t as [| t IH]; intros s.
  - cbn [all_paths map app]. by rewrite lse_single.
  - cbn [all_paths alpha_spec].
    rewrite concat_map, List.map_map, lse_concat, List.map_map.
    transitivity
      (_logsumexp (map (fun p => _logsumexp (map (fun j =>
           ladd (ladd (lget2 log_A j s)
                      (lget2 log_B s (get1 0 seq (Datatypes.S t))))
                (score (p ++ [j]) t)) (List.seq 0 S))) (all_paths S t))).
    2:{ f_equal. apply map_ext_in. intros p Hp.
        apply all_paths_sound in Hp as [Hlen _].
        f_equal. rewrite List.map_map. apply map_ext. intros j.
        rewrite (score_extend p j s t Hlen).
        rewrite <- (ladd_assoc (score (p ++ [j]) t)). apply ladd_comm. }
    rewrite lse_exchange.
    transitivity
      (_logsumexp (map (fun j =>
           ladd (lget2 log_B s (get1 0 seq (Datatypes.S t)))
                (ladd (alpha t j) (lget2 log_A j s))) (List.seq 0 S))).
    + rewrite lse_map_ladd. apply ladd_comm.
    + f_equal. apply map_ext. intros j.
      rewrite lse_map_ladd, <- IH.
      rewrite (ladd_comm (lget2 log_A j s)
                 (lget2 log_B s (get1 0 seq (Datatypes.S t)))).
      rewrite <- ladd_assoc.
      by rewrite (ladd_comm (lget2 log_A j s) (alpha t j)).
Qed.

(** The log-likelihood is the log-sum-exp of the joint log
    probabilities of the observations with every path. *)
Lemma loglik_sums_paths :
  1 <= length seq ->
  loglik_spec log_pi log_A log_B S seq
  = _logsumexp (map (joint_log_prob log_pi log_A log_B seq)
                  (all_paths S (length seq))).
Proof.
  intros HT. unfold loglik_spec, lse_states, joint_log_prob.
  destruct (length seq) as [| t]; [lia |].
  replace (Datatypes.S t - 1) with t by lia.
  cbn [all_paths].
  rewrite concat_map, List.map_map, lse_concat, List.map_map.
  transitivity
    (_logsumexp (map (fun s => _logsumexp (map (fun p => score (p ++ [s]) t)
                                             (all_paths S t)))
                   (List.seq 0 S))).
  - f_equal. apply map_ext. intros s. apply alpha_sums_paths.
  - rewrite <- (lse_exchange (fun p s => score (p ++ [s]) t)
                  (all_paths S t) (List.seq 0 S)).
    f_equal. apply map_ext. intros p. by rewrite List.map_map.
Qed.
End SumOverPaths.

Section ForwardMeaning.
Context {P L : Type} `{FL : Floats P L} {LS : LogSemiring FL}.

(** X16. Where the log-space operations are exact, the value that
    [_forward] returns is the log-sum-exp, over all sequences of [T]
    hidden states, each counted once, of the joint log probability of the
    observations with that sequence of states: the log of the
    probability of the observations. *)
Theorem forward_sums_over_all_hidden_paths
    (S K T : nat) (h : HMM.self P L) (seq : list nat) (buf : list (list L)) :
  well_formed S K h -> length seq = T -> 1 <= T -> shape2 S T buf ->
  exists lattice ll,
    HMM._forward seq buf h = (inr (lattice, ll), warm h) /\
    ll = _logsumexp
           (map (joint_log_prob (log_of_pi h) (log_of_A h) (log_of_B h) seq)
                (all_paths S T)) /\
    (forall path, In path (all_paths S T) <-> state_path S seq path) /\
    NoDup (all_paths S T).
Proof.
  intros Hwf Hseq HT Hbuf.
  destruct (well_formed_logs S K h Hwf) as (Hpi & [HA _] & [HB _]).
  pose proof Hwf as (_ & _ & _ & _ & Hcoh).
  exists (fst (_forward seq (log_of_pi h) (log_of_A h) (log_of_B h) buf)),
    (snd (_forward seq (log_of_pi h) (log_of_A h) (log_of_B h) buf)).
  split; [| split; [| split]].
  - rewrite (method_forward h seq buf Hcoh).
    by destruct (_forward seq (log_of_pi h) (log_of_A h) (log_of_B h) buf).
  - destruct (forward_lattice (log_of_pi h) (log_of_A h) (log_of_B h)
                S T seq Hpi HA HB Hseq buf Hbuf HT) as (_ & _ & ->).
    rewrite <- Hseq. apply loglik_sums_paths. lia.
  - intros path. unfold state_path. rewrite Hseq. split.
    + apply all_paths_sound.
    + intros [Hlen Hall]. by apply all_paths_complete.
  - apply all_paths_NoDup.
Qed.
End ForwardMeaning.

Lemma forward_sums_over_all_hidden_paths_witness :
  exists lattice ll,
    HMM._forward Exact.toy_seq (full2 uninit 2 8) (Exact.toy_model 10)
    = (inr (lattice, ll), warm (Exact.toy_model 10)) /\
    ll = _logsumexp
           (map (joint_log_prob (log_of_pi (Exact.toy_model 10))
                   (log_of_A (Exact.toy_model 10))
                   (log_of_B (Exact.toy_model 10)) Exact.toy_seq)
                (all_paths 2 8)) /\
    (forall path, In path (all_paths 2 8) <-> state_path 2 Exact.toy_seq path) /\
    NoDup (all_paths 2 8).
Proof.
  apply (forward_sums_over_all_hidden_paths (LS := exact_log_semiring)
           2 3 8 (Exact.toy_model 10) Exact.toy_seq (full2 uninit 2 8)
           (toy_model_well_formed 10));
    [reflexivity | lia | apply shape2_full2].
Defined.

(** ** The corpus in the format of hmmlearn *)

Section WeirdFormat.
Context {P : Type}.

Lemma concat_singletons {X} (l : list X) : concat (map (fun x => [x]) l) = l.
Proof. induction l as [| x l IH]; [done |]. simpl. by rewrite IH. Qed.

Lemma cut_concat {X} T (m : list (list X)) :
  Forall (fun row => length row = T) m ->
  cut_by_lengths (repeat T (length m)) (concat m) = m.
Proof.
  induction 1 as [| row m Hrow _ IH]; [done |].
  cbn [length repeat concat cut_by_lengths].
  assert (take T (row ++ concat m) = row) as ->
    by (rewrite <- Hrow; apply take_app_length).
  assert (drop T (row ++ concat m) = concat m) as ->
    by (rewrite <- Hrow; apply drop_app_length).
  by rewrite IH.
Qed.

Lemma length_concat_rows {X} T (m : list (list X)) :
  Forall (fun row => length row = T) m -> length (concat m) = length m * T.
Proof.
  induction 1 as [| row m Hrow _ IH]; [done |].
  cbn [concat length]. rewrite length_app, IH, Hrow. lia.
Qed.

(** X17. [to_weird_format] loses nothing: for a non-empty array of
    sequences of one length [T], ["lengths"] holds [T] once for every
    sequence, ["X"] is one column with as many rows as there are
    observations, and cutting that column by the lengths gives back the
    sequences, in their order. *)
Theorem to_weird_format_keeps_the_sequences
    (T : nat) (sequences : list (list nat)) :
  sequences <> [] -> Forall (fun seq => length seq = T) sequences ->
  exists X lengths,
    to_weird_format (P := P) sequences = inr (X, lengths) /\
    lengths = repeat T (length sequences) /\
    Forall (fun row => length row = 1) X /\
    length X = length sequences * T /\
    cut_by_lengths lengths (concat X) = sequences.
Proof.
  intros Hne Hall.
  exists (map (fun x => [x]) (concat sequences)), (repeat T (length sequences)).
  split; [| split; [done | split; [| split]]].
  - unfold to_weird_format, np_array.
    rewrite (rectangular_same_length T) by done. cbn [res_bind].
    destruct sequences as [| seq rest]; [done |].
    apply Forall_cons in Hall as [Hseq _]. cbn [shape1 res_bind].
    by rewrite Hseq.
  - apply Forall_map, Forall_forall. by intros x _.
  - rewrite List.length_map. by apply length_concat_rows.
  - rewrite concat_singletons. by apply cut_concat.
Qed.
End WeirdFormat.

Lemma to_weird_format_keeps_the_sequences_witness :
  exists X lengths,
    to_weird_format (P := Qc) [[0; 1]; [2; 2]] = inr (X, lengths) /\
    lengths = repeat 2 (length [[0; 1]; [2; 2]]) /\
    Forall (fun row => length row = 1) X /\
    length X = length [[0; 1]; [2; 2]] * 2 /\
    cut_by_lengths lengths (concat X) = [[0; 1]; [2; 2]].
Proof.
  apply (to_weird_format_keeps_the_sequences 2 [[0; 1]; [2; 2]]);
    [done | repeat constructor].
Defined.

(** ** One iteration of EM, cell by cell *)

Section IterationCells.
Context {P L : Type} `{FL : Floats P L}.
Implicit Types h : HMM.self P L.

Lemma add_in_order_fold (xs : list P) (a : P) :
  add_in_order a xs = fold_left padd xs a.
Proof. revert a. induction xs as [| x xs IH]; intros a; [done | apply IH]. Qed.

Lemma add_in_order_app (xs ys : list P) (a : P) :
  add_in_order a (xs ++ ys) = add_in_order (add_in_order a xs) ys.
Proof. revert a. induction xs as [| x xs IH]; intros a; [done | apply IH]. Qed.

Lemma normalize_divided_by_sum (v : list P) : _normalize v = divided_by_sum v.
Proof.
  unfold _normalize, divided_by_sum, psum. by rewrite add_in_order_fold.
Qed.

Lemma normalize_axis1_divided_by_sum (m : list (list P)) :
  _normalize_axis1 m = map divided_by_sum m.
Proof.
  unfold _normalize_axis1. apply map_ext. apply normalize_divided_by_sum.
Qed.

Lemma zeros_like1_repeat n (v : list P) :
  length v = n -> zeros_like1 v = repeat p0 n.
Proof.
  intros <-. unfold zeros_like1. induction v as [| x v IH]; [done |].
  cbn. by rewrite IH.
Qed.

Lemma get1_repeat n i : get1 p0 (repeat p0 n) i = p0.
Proof.
  unfold get1. revert i. induction n as [| n IH]; intros [| i]; cbn; by auto.
Qed.

Lemma get2_repeat r c i j : get2 p0 (repeat (repeat p0 c) r) i j = p0.
Proof.
  unfold get2.
  assert (nth i (repeat (repeat p0 c) r) [] = repeat p0 c \/
          nth i (repeat (repeat p0 c) r) [] = []) as [-> | ->].
  { revert i. induction r as [| r IH]; intros [| i]; cbn; by auto. }
  - apply get1_repeat.
  - by destruct j.
Qed.

Section Cells.
Variables (log_pi : list L) (log_A log_B : list (list L)).
Variables (S K T : nat).
Hypothesis HS : 1 <= S.
Hypothesis HT : 1 <= T.

Local Abbreviation step := (acc_step log_pi log_A log_B S).
Local Abbreviation G := (log_gamma_spec log_pi log_A log_B S).
Local Abbreviation E := (log_E_spec log_pi log_A log_B S).

Lemma acc_step_shapes acc seq :
  length seq = T ->
  length (HMM.pi_acc acc) = S -> shape2 S S (HMM.A_acc acc) ->
  shape2 S K (HMM.B_acc acc) ->
  length (HMM.pi_acc (step acc seq)) = S /\
  shape2 S S (HMM.A_acc (step acc seq)) /\
  shape2 S K (HMM.B_acc (step acc seq)).
Proof.
  intros Hseq Hpi HA HB. split; [| split].
  - unfold acc_step. cbn [HMM.pi_acc]. unfold vpadd.
    rewrite length_zip_with, List.length_map, length_seq. lia.
  - unfold acc_step. cbn [HMM.A_acc].
    apply shape2_mpadd; [done | apply shape2_tabulate2].
  - by apply (shape2_acc_step _ _ _ S K T).
Qed.

Lemma acc_step_pi_cell acc seq i :
  length (HMM.pi_acc acc) = S -> i < S ->
  get1 p0 (HMM.pi_acc (step acc seq)) i
  = padd (get1 p0 (HMM.pi_acc acc) i) (np_exp (G seq i 0)).
Proof.
  intros Hpi Hi. unfold acc_step. cbn [HMM.pi_acc]. unfold get1, vpadd.
  rewrite (nth_zip_with _ _ _ _ p0 p0)
    by (rewrite ?List.length_map, ?length_seq; lia).
  f_equal. exact (nth_map_seq (fun i0 => np_exp (G seq i0 0)) S i p0 Hi).
Qed.

Lemma acc_step_A_cell acc seq i j :
  shape2 S S (HMM.A_acc acc) -> i < S -> j < S ->
  get2 p0 (HMM.A_acc (step acc seq)) i j
  = padd (get2 p0 (HMM.A_acc acc) i j)
         (add_in_order p0
            (map (fun t => np_exp (E seq i j t)) (List.seq 0 (length seq - 1)))).
Proof.
  intros HA Hi Hj. unfold acc_step. cbn [HMM.A_acc].
  unfold get2, mpadd, vpadd.
  rewrite (nth_zip_with _ _ _ _ [] []);
    [| destruct HA; lia
     | unfold tabulate2; rewrite List.length_map, length_seq; lia].
  rewrite (nth_zip_with _ _ _ _ p0 p0).
  - f_equal. rewrite add_in_order_fold.
    exact (get2_tabulate2 p0 S S
             (fun i0 j0 => psum (map (fun t => np_exp (E seq i0 j0 t))
                                   (List.seq 0 (length seq - 1)))) i j Hi Hj).
  - by rewrite (shape2_row S S _ i HA Hi).
  - rewrite (shape2_row S S _ i (shape2_tabulate2 S S _) Hi). lia.
Qed.

Lemma acc_step_B_cell acc seq i k :
  length seq = T ->
  shape2 S K (HMM.B_acc acc) -> i < S -> k < K ->
  get2 p0 (HMM.B_acc (step acc seq)) i k
  = add_in_order (get2 p0 (HMM.B_acc acc) i k)
      (map (fun t => np_exp (G seq i t))
         (List.filter (fun t => get1 0 seq t =? k) (List.seq 0 (length seq)))).
Proof.
  intros Hseq HB Hi Hk. unfold acc_step. cbn [HMM.B_acc].
  rewrite add_in_order_fold, Hseq.
  apply (B_updates_cell S K T seq HS HT Hseq (G seq)); try done.
  apply Forall_forall. intros t Ht.
  apply list_elem_of_In, in_seq in Ht. lia.
Qed.

(** The accumulators after the sequences of a corpus, from any start. *)
Lemma acc_steps_cells sequences acc :
  Forall (fun seq => length seq = T) sequences ->
  length (HMM.pi_acc acc) = S -> shape2 S S (HMM.A_acc acc) ->
  shape2 S K (HMM.B_acc acc) ->
  let acc' := fold_left step sequences acc in
  (length (HMM.pi_acc acc') = S /\ shape2 S S (HMM.A_acc acc') /\
   shape2 S K (HMM.B_acc acc')) /\
  (forall i, i < S ->
     get1 p0 (HMM.pi_acc acc') i
     = add_in_order (get1 p0 (HMM.pi_acc acc) i)
         (map (fun seq => np_exp (G seq i 0)) sequences)) /\
  (forall i j, i < S -> j < S ->
     get2 p0 (HMM.A_acc acc') i j
     = add_in_order (get2 p0 (HMM.A_acc acc) i j)
         (map (fun seq =>
                 add_in_order p0
                   (map (fun t => np_exp (E seq i j t))
                      (List.seq 0 (length seq - 1)))) sequences)) /\
  (forall i k, i < S -> k < K ->
     get2 p0 (HMM.B_acc acc') i k
     = add_in_order (get2 p0 (HMM.B_acc acc) i k)
         (concat
            (map (fun seq =>
                    map (fun t => np_exp (G seq i t))
                      (List.filter (fun t => get1 0 seq t =? k)
                         (List.seq 0 (length seq)))) sequences))).
Proof.
  intros Hall. revert acc.
  induction Hall as [| seq rest Hseq _ IH]; intros acc Hpi HA HB; [done |].
  destruct (acc_step_shapes acc seq Hseq Hpi HA HB) as (Hpi' & HA' & HB').
  destruct (IH (step acc seq) Hpi' HA' HB') as (Hsh & Hp & Ha & Hb).
  cbn [fold_left]. split; [exact Hsh |]. split; [| split].
  - intros i Hi. rewrite (Hp i Hi), (acc_step_pi_cell acc seq i Hpi Hi). done.
  - intros i j Hi Hj.
    rewrite (Ha i j Hi Hj), (acc_step_A_cell acc seq i j HA Hi Hj). done.
  - intros i k Hi Hk.
    rewrite (Hb i k Hi Hk), (acc_step_B_cell acc seq i k Hseq HB Hi Hk).
    cbn [map concat]. by rewrite add_in_order_app.
Qed.

(** From zero, they are the counts. *)
Lemma acc_steps_counts sequences :
  Forall (fun seq => length seq = T) sequences ->
  fold_left step sequences
    (HMM.mk_acc (repeat p0 S) (repeat (repeat p0 S) S) (repeat (repeat p0 K) S))
  = HMM.mk_acc (pi_counts log_pi log_A log_B S sequences)
      (A_counts log_pi log_A log_B S sequences)
      (B_counts log_pi log_A log_B S K sequences).
Proof.
  intros Hall.
  destruct (acc_steps_cells sequences
              (HMM.mk_acc (repeat p0 S) (repeat (repeat p0 S) S)
                 (repeat (repeat p0 K) S)) Hall)
    as ((Hpi & HA & HB) & Hp & Ha & Hb).
  { cbn. apply repeat_length. }
  { cbn. split; [apply repeat_length |]. apply Forall_forall. intros row Hrow.
    apply list_elem_of_In, repeat_spec in Hrow as ->. apply repeat_length. }
  { cbn. split; [apply repeat_length |]. apply Forall_forall. intros row Hrow.
    apply list_elem_of_In, repeat_spec in Hrow as ->. apply repeat_length. }
  cbn [HMM.pi_acc HMM.A_acc HMM.B_acc] in Hp, Ha, Hb.
  destruct (fold_left step sequences _) as [pi_acc A_acc B_acc].
  cbn [HMM.pi_acc HMM.A_acc HMM.B_acc] in *. f_equal.
  - apply (list_tabulate p0); [done |]. intros i Hi.
    rewrite <- (get1_repeat S i) at 2. exact (Hp i Hi).
  - apply (matrix_tabulate p0); [done |]. intros i j Hi Hj.
    rewrite <- (get2_repeat S S i j) at 2. exact (Ha i j Hi Hj).
  - apply (matrix_tabulate p0); [done |]. intros i k Hi Hk.
    rewrite <- (get2_repeat S K i k) at 2. exact (Hb i k Hi Hk).
Qed.
End Cells.

(** The loop over the corpus, with the checks on or off: the first
    sequence that fails a check stops it, with the tables as they
    were. *)
Lemma E_steps_cases S K T h sequences sc acc :
  well_formed S K h -> 1 <= S -> 1 <= T ->
  Forall (fun seq => length seq = T /\ Forall (fun o => o < K) seq) sequences ->
  scratch_ok S T sc -> shape2 S K (HMM.B_acc acc) ->
  forM sequences (HMM.E_step T) (sc, acc) h
  = match (if HMM.sanity_checks_enabled h
           then first_check_error (log_of_pi h) (log_of_A h) (log_of_B h) S T
                  sequences
           else None) with
    | Some e => (inl e, warm h)
    | None =>
        (inr (scratch_run (log_of_pi h) (log_of_A h) (log_of_B h) S sc sequences,
              fold_left (acc_step (log_of_pi h) (log_of_A h) (log_of_B h) S)
                sequences acc),
         match sequences with [] => h | _ => warm h end)
    end.
Proof.
  intros Hwf HS HT Hall. revert h sc acc Hwf.
  induction Hall as [| seq rest [Hseq Hsym] Hrest IH];
    intros h sc acc Hwf Hsc Hacc.
  { cbn. by destruct (HMM.sanity_checks_enabled h). }
  pose proof Hwf as (_ & _ & _ & _ & Hc).
  destruct (warm_tables h) as (_ & _ & _ & _ & _ & Hsan').
  destruct (warm_logs h) as (E1 & E2 & E3).
  assert (HMM.sanity_checks_enabled (warm h) = HMM.sanity_checks_enabled h)
    as Hsan by (unfold HMM.sanity_checks_enabled; by rewrite Hsan').
  cbn [forM first_check_error].
  pose proof (E_step_cases S K T h seq sc acc Hwf HS Hseq HT Hsym Hsc Hacc)
    as Hstep.
  pose proof (IH (warm h) (scratch_after (log_of_pi h) (log_of_A h)
                             (log_of_B h) S seq)
                (acc_step (log_of_pi h) (log_of_A h) (log_of_B h) S acc seq)
                (well_formed_warm S K h Hwf)
                (scratch_after_ok (log_of_pi h) (log_of_A h) (log_of_B h)
                   S T seq Hseq)
                (shape2_acc_step (log_of_pi h) (log_of_A h) (log_of_B h)
                   S K T acc seq HS HT Hseq Hacc)) as Hrest'.
  rewrite Hsan, E1, E2, E3, (warm_warm h Hc) in Hrest'.
  destruct (HMM.sanity_checks_enabled h).
  - destruct (HMM.E_step_checks T S _ _) as [e | u].
    + by apply bind_raise.
    + rewrite (bind_ok _ _ _ _ _ Hstep), Hrest'.
      destruct (first_check_error _ _ _ _ _ rest); [done |].
      unfold scratch_run. cbn [fold_left]. f_equal. by destruct rest.
  - rewrite (bind_ok _ _ _ _ _ Hstep), Hrest'.
    unfold scratch_run. cbn [fold_left]. f_equal. by destruct rest.
Qed.

(** C4. One iteration of EM on a model of consistent shapes and a
    non-empty rectangular corpus.  The three accumulators start with
    every cell zero.  While the sequences are gone through the tables
    are not touched, and the loop leaves in the accumulators the counts
    [pi_counts], [A_counts], [B_counts]: per sequence,
    [exp(log_gamma[:, 0])], the sum over [t] of [exp(log_E)] and, in
    column [seq[t]], [exp(log_gamma[:, t])], with [log_E] and [log_gamma]
    as in [log_E_spec] and [log_gamma_spec].  Then [pi], [A] and [B] are
    replaced together by the counts divided by their sums (the vector as
    a whole, the matrices row by row) and their three flags are set.
    With the consistency checks on, the first sequence whose posteriors
    fail a check stops the iteration with the error of that check and
    the three tables as they were; otherwise the validator runs at the
    end, on the three new tables. *)
Theorem EM_iteration_accumulates_then_replaces
    (S K T : nat) (h : HMM.self P L) (sequences : list (list nat))
    (sc : HMM.scratch L) :
  well_formed S K h -> 1 <= S ->
  corpus_ok T K sequences -> scratch_ok S T sc ->
  let log_pi := log_of_pi h in
  let log_A := log_of_A h in
  let log_B := log_of_B h in
  let zero :=
    HMM.mk_acc (repeat p0 S) (repeat (repeat p0 S) S) (repeat (repeat p0 K) S) in
  let counts :=
    HMM.mk_acc (pi_counts log_pi log_A log_B S sequences)
      (A_counts log_pi log_A log_B S sequences)
      (B_counts log_pi log_A log_B S K sequences) in
  let sc' := scratch_run log_pi log_A log_B S sc sequences in
  let h' := after_iteration S K sequences h in
  let stop :=
    if HMM.sanity_checks_enabled h
    then first_check_error log_pi log_A log_B S T sequences else None in
  HMM.mk_acc (zeros_like1 (HMM.pi h)) (zeros_like2 (HMM.A h))
    (zeros_like2 (HMM.B h)) = zero /\
  (HMM.pi (warm h) = HMM.pi h /\ HMM.A (warm h) = HMM.A h /\
   HMM.B (warm h) = HMM.B h) /\
  forM sequences (HMM.E_step T) (sc, zero) h
  = match stop with
    | Some e => (inl e, warm h)
    | None => (inr (sc', counts), warm h)
    end /\
  HMM.EM_iteration sequences T sc h
  = match stop with
    | Some e => (inl e, warm h)
    | None =>
        if HMM.sanity_checks_enabled h
        then match HMM._check_matrices_conditioning h' with
             | inl e => (inl e, h')
             | inr _ => (inr sc', h')
             end
        else (inr sc', h')
    end.
Proof.
  intros Hwf HS Hcorpus Hsc log_pi log_A log_B zero counts sc' h' stop.
  pose proof Hcorpus as (Hne & HT & Hall).
  pose proof Hwf as (_ & Hpi & HA & HB & Hc).
  destruct (warm_tables h) as (E1 & E2 & E3 & _ & _ & Hsan').
  assert (HMM.mk_acc (zeros_like1 (HMM.pi h)) (zeros_like2 (HMM.A h))
            (zeros_like2 (HMM.B h)) = zero) as Hzero.
  { unfold zero.
    by rewrite (zeros_like1_repeat S _ Hpi), (zeros_like2_repeat S S _ HA),
      (zeros_like2_repeat S K _ HB). }
  assert (forM sequences (HMM.E_step T) (sc, zero) h
          = match stop with
            | Some e => (inl e, warm h)
            | None => (inr (sc', counts), warm h)
            end) as Hloop.
  { rewrite (E_steps_cases S K T h sequences sc zero Hwf HS HT Hall Hsc).
    2:{ rewrite <- Hzero. by apply shape2_zeros_like2. }
    fold log_pi log_A log_B stop sc'. destruct stop; [done |].
    unfold zero.
    rewrite (acc_steps_counts log_pi log_A log_B S K T HS HT sequences
               (corpus_lengths T K sequences Hcorpus)).
    by destruct sequences. }
  split; [exact Hzero |]. split; [done |]. split; [exact Hloop |].
  unfold HMM.EM_iteration. rewrite !bind_gets, Hzero.
  destruct stop as [e |].
  { by apply bind_raise. }
  rewrite (bind_ok _ _ _ _ _ Hloop).
  rewrite (warm_record h Hc).
  unfold HMM.set_pi, HMM.set_A, HMM.set_B, modify, bind, gets, ret, lift.
  cbn -[HMM._check_matrices_conditioning after_iteration _normalize
       _normalize_axis1].
  rewrite normalize_divided_by_sum, !normalize_axis1_divided_by_sum.
  fold log_pi log_A log_B.
  change (HMM.mk _ _ _ _ _ _ _ _ _ _ _ _ _) with h'.
  unfold HMM.sanity_checks_enabled.
  destruct (default false (HMM._enable_sanity_checks h)); [| done].
  by destruct (HMM._check_matrices_conditioning h') as [e | []].
Qed.
End IterationCells.

Lemma EM_iteration_accumulates_then_replaces_witness :
  HMM.EM_iteration [[0; 1]; [2; 0]] 2
    (HMM.mk_scratch (full2 uninit 2 2) (full2 uninit 2 2) (empty3 2 2 1)
       (full2 uninit 2 2)) (checked_toy_model 10)
  = match first_check_error (log_of_pi (checked_toy_model 10))
            (log_of_A (checked_toy_model 10)) (log_of_B (checked_toy_model 10))
            2 2 [[0; 1]; [2; 0]] with
    | Some e => (inl e, warm (checked_toy_model 10))
    | None =>
        match HMM._check_matrices_conditioning
                (after_iteration 2 3 [[0; 1]; [2; 0]] (checked_toy_model 10)) with
        | inl e =>
            (inl e, after_iteration 2 3 [[0; 1]; [2; 0]] (checked_toy_model 10))
        | inr _ =>
            (inr (scratch_run (log_of_pi (checked_toy_model 10))
                    (log_of_A (checked_toy_model 10))
                    (log_of_B (checked_toy_model 10)) 2
                    (HMM.mk_scratch (full2 uninit 2 2) (full2 uninit 2 2)
                       (empty3 2 2 1) (full2 uninit 2 2)) [[0; 1]; [2; 0]]),
             after_iteration 2 3 [[0; 1]; [2; 0]] (checked_toy_model 10))
        end
    end.
Proof.
  refine (proj2 (proj2 (proj2 (EM_iteration_accumulates_then_replaces
            2 3 2 (checked_toy_model 10) [[0; 1]; [2; 0]] _
            (toy_model_well_formed 10) _ _ _)))).
  - lia.
  - split; [done |]. split; [lia |]. repeat constructor.
  - split; [apply shape2_full2 |]. split; [apply shape2_full2 |].
    apply (shape3_repeat 2 2 1).
Defined.

(** ** What rounding and division by zero do to the claims

    Runs of the program on small models, in exact arithmetic and in
    binary64. *)

(** C4, a corpus to which the model gives likelihood zero.  The
    constructor accepts the tables of [det_model]; in one iteration on
    the sequence [1, 1], a symbol that no state shows, every posterior
    is a quotient by the likelihood zero.  In exact arithmetic, with a
    quotient by zero read as zero, the iteration returns without an error
    and leaves [pi = [0, 0]], which does not sum to 1, and no row of [A]
    or [B] sums to 1 either; in binary64 it leaves NaN in every cell. *)
Lemma EM_iteration_leaves_tables_that_do_not_sum_to_1 :
  (HMM.__init__ [1%Qc; 0%Qc] [[1%Qc; 0%Qc]; [0%Qc; 1%Qc]]
     [[1%Qc; 0%Qc; 0%Qc]; [0%Qc; 0%Qc; 1%Qc]] 1 = inr (det_model 1)) /\
  fst (HMM.EM [[1; 1]] 1 (det_model 1)) = inr tt /\
  HMM.pi (snd (HMM.EM [[1; 1]] 1 (det_model 1))) = [0%Qc; 0%Qc] /\
  HMM.A (snd (HMM.EM [[1; 1]] 1 (det_model 1)))
  = [[0%Qc; 0%Qc]; [0%Qc; 0%Qc]] /\
  HMM.B (snd (HMM.EM [[1; 1]] 1 (det_model 1)))
  = [[0%Qc; 0%Qc; 0%Qc]; [0%Qc; 0%Qc; 0%Qc]] /\
  sums_to_1 (psum (HMM.pi (snd (HMM.EM [[1; 1]] 1 (det_model 1))))) = false /\
  (HMM.__init__ (FL := Binary64.floats) (HMM.pi (Binary64.det_model 1))
     (HMM.A (Binary64.det_model 1)) (HMM.B (Binary64.det_model 1)) 1
   = inr (Binary64.det_model 1)) /\
  fst (HMM.EM (FL := Binary64.floats) [[1; 1]] 1 (Binary64.det_model 1))
  = inr tt /\
  HMM.pi (snd (HMM.EM (FL := Binary64.floats) [[1; 1]] 1 (Binary64.det_model 1)))
  = [Some PrimFloat.nan; Some PrimFloat.nan].
Proof. vm_compute. repeat split. Qed.

Section Binary64Runs.
Import PrimFloat.
#[local] Existing Instance Binary64.floats.
Local Open Scope float_scope.

Local Abbreviation one_state := (Binary64.one_state_model 1).

Lemma binary64_differ (x y : float) :
  (x =? x) = true -> (x =? y) = false -> Some x <> (Some y : Binary64.f64).
Proof. intros Hxx Hxy [= E]. rewrite <- E in Hxy. congruence. Qed.

(** C2, in binary64.  The constructor accepts the model with one hidden
    state and the emission row [0.5, 0.25, 0.25].  On the sequence
    [0, 1, 1], [_forward] returns [-3.465735902799726], the three
    logarithms added from the left, and [_backward] adds them from the
    right: at [t = 0] the log-sum-exp of [log_alpha[:, 0] + log_beta[:, 0]]
    is [-3.4657359027997265], another number. *)
Lemma forward_backward_differ_in_binary64 :
  let buffer := full2 uninit 1 3 in
  let log_alpha :=
    [[Some (-0.6931471805599453); Some (-2.0794415416798357);
      Some (-3.465735902799726)]] in
  let log_beta :=
    [[Some (-2.772588722239781); Some (-1.3862943611198906); Some 0]] in
  let returned := Some (-3.465735902799726) in
  (HMM.__init__ (HMM.pi one_state) (HMM.A one_state) (HMM.B one_state) 1
   = inr one_state) /\
  (HMM._forward [0; 1; 1]%nat buffer one_state
   = (inr (log_alpha, returned), warm one_state)) /\
  (HMM._backward [0; 1; 1]%nat buffer (warm one_state)
   = (inr log_beta, warm one_state)) /\
  _logsumexp (vladd (lcol log_alpha 0) (lcol log_beta 0))
  = Some (-3.4657359027997265) /\
  _logsumexp (vladd (lcol log_alpha 0) (lcol log_beta 0)) <> returned.
Proof.
  cbv zeta. split; [reflexivity |]. split; [by vm_compute |].
  split; [by vm_compute |]. split; [by vm_compute |].
  assert (_logsumexp
            (vladd (lcol [[Some (-0.6931471805599453);
                           Some (-2.0794415416798357);
                           Some (-3.465735902799726)]] 0)
                   (lcol [[Some (-2.772588722239781);
                           Some (-1.3862943611198906); Some 0]] 0))
          = Some (-3.4657359027997265)) as -> by (by vm_compute).
  by apply binary64_differ.
Qed.

(** C10, in binary64, on the same model.  The likelihood of the corpus
    [[0], [1]] is [exp(log 0.5 + log 0.25) = 0.12500000000000003]; the
    likelihoods of its two sequences are [0.5] and [0.25], whose product
    is [0.125]. *)
Lemma likelihood_is_not_the_product_in_binary64 :
  fst (HMM.likelihood [[0]; [1]]%nat one_state)
  = inr (Some 0.12500000000000003) /\
  fst (HMM.likelihood [[0]]%nat one_state) = inr (Some 0.5) /\
  fst (HMM.likelihood [[1]]%nat one_state) = inr (Some 0.25) /\
  pmul (Some 0.5) (Some 0.25) = Some 0.125 /\
  Some 0.125 <> (Some 0.12500000000000003 : Binary64.f64).
Proof.
  split; [by vm_compute |]. split; [by vm_compute |].
  split; [by vm_compute |]. split; [by vm_compute |].
  by apply binary64_differ.
Qed.
End Binary64Runs.
